(** * Editorial pipeline: a shallow embedding of the core algorithms

    The development follows the Python sources of the pipeline:
    - [libs/common/dedupe.py]      the duplicate store ([Dedupe]);
    - [libs/tavily_client]         claim corroboration ([Tavily]);
    - [libs/common/chunking.py]    the heading/token chunker ([Chunking]);
    - [libs/common/extract.py]     URL canonicalisation ([Extract]);
    - [libs/seven011_client]       the graph write ([Seven011]);
    - [apps/worker-understanding], [apps/worker-editorial] the two stages
      with local fallbacks ([Understanding], [Editorial]).

    Python [str] values are modelled as lists of characters.  A character
    is a code point of U+0000..U+00FF: the 256 values of [ascii].  The
    character classes ([isspace], [\s], [\w], [\d], [lower]) are those of
    Python on the whole of that range, U+0080..U+00FF included. *)

From Stdlib Require Import ZArith QArith List Ascii String Lia Bool.
From Stdlib Require Import DecimalString.
From Stdlib Require DecimalNat.
From stdpp Require Import base decidable option list gmap strings.

Abbreviation str := (list ascii).

(** A string literal as a Python [str]. *)
Definition lit (s : string) : str := list_ascii_of_string s.

(** * Exceptions and effects

    A Python call either returns or raises; calls that reach outside the
    process (search, queue) leave a trace in a state that survives a raised
    exception. *)

Inductive exn := Exception (msg : string).

Inductive result (A : Type) :=
| Ok (a : A)
| Raise (e : exn).
Arguments Ok {A} a.
Arguments Raise {A} e.

Definition Eff (S A : Type) : Type := S → result A * S.

Definition eff_ret {S A} (a : A) : Eff S A := λ s, (Ok a, s).

Definition eff_bind {S A B} (m : Eff S A) (k : A → Eff S B) : Eff S B :=
  λ s, match m s with
       | (Ok a, s') => k a s'
       | (Raise e, s') => (Raise e, s')
       end.

(** [try: m except Exception as e: h e] *)
Definition eff_try {S A} (m : Eff S A) (h : exn → Eff S A) : Eff S A :=
  λ s, match m s with
       | (Ok a, s') => (Ok a, s')
       | (Raise e, s') => h e s'
       end.

(** A collaborator's answer, as an effect that changes no state. *)
Definition eff_of {S A} (r : result A) : Eff S A := λ s, (r, s).

Declare Scope eff_scope.
Delimit Scope eff_scope with eff.
Notation "x <- m ;; k" := (eff_bind m (λ x, k))
  (at level 100, m at next level, right associativity) : eff_scope.

(** * Strings *)

Module Str.

Definition nl : ascii := "010"%char.

Definition between (lo hi c : ascii) : bool :=
  (nat_of_ascii lo <=? nat_of_ascii c) && (nat_of_ascii c <=? nat_of_ascii hi).

Definition is_upper (c : ascii) : bool := between "A" "Z" c.
Definition is_lower (c : ascii) : bool := between "a" "z" c.
Definition is_digit (c : ascii) : bool := between "0" "9" c.
Definition is_alpha (c : ascii) : bool := is_upper c || is_lower c.

(** The letters and numbers of U+0080..U+00FF: the ordinal indicators, the
    superscript digits, the micro sign, the fractions, and the letters
    U+00C0..U+00FF without the multiplication and the division sign. *)
Definition is_latin1_alnum (c : ascii) : bool :=
  Ascii.eqb c "170" || between "178" "179" c || Ascii.eqb c "181" ||
  between "185" "186" c || between "188" "190" c ||
  between "192" "214" c || between "216" "246" c || between "248" "255" c.

(** [\w]: letters, numbers and the underscore. *)
Definition is_word (c : ascii) : bool :=
  is_alpha c || is_digit c || Ascii.eqb c "_" || is_latin1_alnum c.

(** [str.isspace] and [\s]: TAB..CR, FS..US, the space, U+0085 (next line)
    and U+00A0 (no-break space). *)
Definition is_space (c : ascii) : bool :=
  between "009" "013" c || between "028" "031" c || Ascii.eqb c " " ||
  Ascii.eqb c "133" || Ascii.eqb c "160".

(** The capital letters U+00C0..U+00DE, the multiplication sign excepted. *)
Definition is_latin1_upper (c : ascii) : bool :=
  between "192" "214" c || between "216" "222" c.

(** [c.lower()]: a capital letter, of A..Z or of U+00C0..U+00DE, is 32 code
    points below its small letter. *)
Definition lower_char (c : ascii) : ascii :=
  if is_upper c || is_latin1_upper c
  then ascii_of_nat (nat_of_ascii c + 32) else c.

(** [s.lower()] *)
Definition lower (s : str) : str := map lower_char s.

(** [s.startswith(p)] *)
Fixpoint starts_with (p s : str) : bool :=
  match p, s with
  | [], _ => true
  | a :: p', b :: s' => Ascii.eqb a b && starts_with p' s'
  | _ :: _, [] => false
  end.

(** [sub in s] *)
Fixpoint contains (sub s : str) : bool :=
  starts_with sub s ||
  match s with
  | [] => false
  | _ :: s' => contains sub s'
  end.

(** [c in s] for a single character. *)
Definition has_char (c : ascii) (s : str) : bool := existsb (Ascii.eqb c) s.

Fixpoint drop_while (p : ascii → bool) (s : str) : str :=
  match s with
  | [] => []
  | c :: s' => if p c then drop_while p s' else s
  end.

Fixpoint take_while (p : ascii → bool) (s : str) : str :=
  match s with
  | [] => []
  | c :: s' => if p c then c :: take_while p s' else []
  end.

(** [s.lstrip()], [s.rstrip()], [s.strip()] *)
Definition lstrip (s : str) : str := drop_while is_space s.
Definition rstrip (s : str) : str := rev (drop_while is_space (rev s)).
Definition strip (s : str) : str := rstrip (lstrip s).

(** [sep.join(parts)] *)
Fixpoint join (sep : str) (parts : list str) : str :=
  match parts with
  | [] => []
  | [p] => p
  | p :: ps => p ++ sep ++ join sep ps
  end.

(** [s.split(c)] for a one-character separator: never empty, one more piece
    than there are separators. *)
Fixpoint split (c : ascii) (s : str) : list str :=
  match s with
  | [] => [[]]
  | a :: s' =>
      if Ascii.eqb a c then [] :: split c s'
      else match split c s' with
           | [] => [[a]]
           | p :: ps => (a :: p) :: ps
           end
  end.

(** [s[:n]] and [s[n:]] for [n >= 0] are [take n s] and [drop n s]. *)

(** The 256 code points, and the classes as tables over them. *)
Definition code_points : list ascii := ascii_of_nat <$> seq 0 256.

Example is_space_table :
  nat_of_ascii <$> List.filter is_space code_points =
  [9; 10; 11; 12; 13; 28; 29; 30; 31; 32; 133; 160].
Proof. vm_compute. reflexivity. Qed.

Example is_word_table :
  nat_of_ascii <$> List.filter is_word code_points =
  seq 48 10 ++ seq 65 26 ++ [95] ++ seq 97 26 ++
  [170; 178; 179; 181; 185; 186; 188; 189; 190] ++
  seq 192 23 ++ seq 216 31 ++ seq 248 8.
Proof. vm_compute. reflexivity. Qed.

Example is_digit_table :
  nat_of_ascii <$> List.filter is_digit code_points = seq 48 10.
Proof. vm_compute. reflexivity. Qed.

Example lower_char_table :
  nat_of_ascii <$>
    List.filter (λ c, negb (Ascii.eqb (lower_char c) c)) code_points =
  seq 65 26 ++ seq 192 23 ++ seq 216 7 ∧
  forallb (λ c, Ascii.eqb (lower_char c) c ||
                (nat_of_ascii (lower_char c) =? nat_of_ascii c + 32))
    code_points = true.
Proof. split; vm_compute; reflexivity. Qed.

Lemma starts_with_spec p s : starts_with p s = true ↔ ∃ post, s = p ++ post.
Proof.
  revert s. induction p as [|a p IH]; intros s; simpl.
  - split; [eauto|done].
  - destruct s as [|b s]; simpl.
    + split; [done|]. intros [post H]. discriminate.
    + rewrite andb_true_iff, Ascii.eqb_eq, IH. split.
      * intros [-> [post ->]]. eauto.
      * intros [post H]. injection H as -> ->. eauto.
Qed.

(** [sub in s] holds exactly when [s] is [pre ++ sub ++ post]. *)
Lemma contains_spec sub s :
  contains sub s = true ↔ ∃ pre post, s = pre ++ sub ++ post.
Proof.
  induction s as [|c s IH]; simpl.
  - rewrite orb_false_r, starts_with_spec. split.
    + intros [post ->]. by exists [], post.
    + intros (pre & post & H). destruct pre; simpl in H; [eauto|done].
  - rewrite orb_true_iff, starts_with_spec, IH. split.
    + intros [[post ->]|(pre & post & ->)].
      * by exists [], post.
      * by exists (c :: pre), post.
    + intros (pre & post & H). destruct pre as [|a pre]; simpl in H.
      * left. eauto.
      * right. injection H as -> ->. eauto.
Qed.

End Str.

(** * The duplicate store ([libs/common/dedupe.py]) *)

Module Dedupe.

(** The keys of the document dictionary that [is_duplicate] reads.  ['url']
    is indexed directly and is therefore mandatory; ['canonical_url'] and
    ['content_hash'] are read with [dict.get] and may be absent. *)
Record Doc := mkDoc {
  url : str;
  canonical_url : option str;
  content_hash : option str
}.

(** The two module-level sets [_seen_hashes] and [_seen_urls]. *)
Record Store := mkStore {
  seen_hashes : gset str;
  seen_urls : gset str
}.

Definition empty_store : Store := mkStore ∅ ∅.

(** [doc.get('canonical_url', doc['url'])] *)
Definition doc_url (doc : Doc) : str :=
  match canonical_url doc with
  | Some u => u
  | None => url doc
  end.

(** Python truthiness of [doc.get('content_hash')]: present and non-empty. *)
Definition truthy (h : option str) : bool :=
  match h with
  | Some (_ :: _) => true
  | _ => false
  end.

Definition hash_seen (h : option str) (st : Store) : bool :=
  match h with
  | Some h' => bool_decide (h' ∈ seen_hashes st)
  | None => false
  end.

Definition mark_hash (h : option str) (hs : gset str) : gset str :=
  match h with
  | Some h' => if truthy h then {[ h' ]} ∪ hs else hs
  | None => hs
  end.

(** [is_duplicate]: the verdict together with the store after the call. *)
Definition is_duplicate (doc : Doc) (st : Store) : bool * Store :=
  let canonical_url := doc_url doc in
  let content_hash := content_hash doc in
  if bool_decide (canonical_url ∈ seen_urls st) then (true, st)
  else if truthy content_hash && hash_seen content_hash st then (true, st)
  else (false, mkStore (mark_hash content_hash (seen_hashes st))
                       ({[ canonical_url ]} ∪ seen_urls st)).

(** The store after a sequence of checks, verdicts ignored. *)
Fixpoint checks (docs : list Doc) (st : Store) : Store :=
  match docs with
  | [] => st
  | d :: ds => checks ds (snd (is_duplicate d st))
  end.

(** An element just added to a set is in it. *)
Ltac newly_added := apply elem_of_union; left; by apply elem_of_singleton.

(** Entries are never removed. *)
Lemma is_duplicate_mono doc st :
  seen_urls st ⊆ seen_urls (snd (is_duplicate doc st)) ∧
  seen_hashes st ⊆ seen_hashes (snd (is_duplicate doc st)).
Proof.
  unfold is_duplicate.
  case_bool_decide; simpl; [done|].
  destruct (truthy (content_hash doc) && hash_seen (content_hash doc) st);
    simpl; [done|].
  split; [apply union_subseteq_r|].
  unfold mark_hash. destruct (content_hash doc) as [h|]; [|done].
  destruct (truthy (Some h)); [apply union_subseteq_r|done].
Qed.

Lemma checks_mono docs : ∀ st,
  seen_urls st ⊆ seen_urls (checks docs st) ∧
  seen_hashes st ⊆ seen_hashes (checks docs st).
Proof.
  induction docs as [|d ds IH]; intros st; simpl; [done|].
  destruct (is_duplicate_mono d st) as [Hu Hh].
  destruct (IH (snd (is_duplicate d st))) as [Hu' Hh'].
  split; etrans; eauto.
Qed.

(** A document whose URL or (non-empty) hash is in the store is flagged. *)
Lemma is_duplicate_seen doc st :
  doc_url doc ∈ seen_urls st ∨
  (∃ h, content_hash doc = Some h ∧ h ≠ [] ∧ h ∈ seen_hashes st) →
  fst (is_duplicate doc st) = true.
Proof.
  intros Hseen. unfold is_duplicate.
  case_bool_decide as Hu; [done|].
  destruct Hseen as [?|(h & Hh & Hne & Hin)]; [done|].
  rewrite Hh. simpl. destruct h as [|c h]; [done|]. simpl.
  by rewrite bool_decide_eq_true_2.
Qed.

(** C2. From a store in which a document's canonical URL and its content
    hash (a present, non-empty digest) are both unseen, the first check
    answers [false] and records both; after any further checks, a check on
    any document sharing that URL or that hash answers [true].  Taking the
    same document again, with no checks in between, gives [false] then
    [true]. *)
Theorem is_duplicate_first_then_later doc h st later doc2 :
  content_hash doc = Some h → h ≠ [] →
  doc_url doc ∉ seen_urls st → h ∉ seen_hashes st →
  doc_url doc2 = doc_url doc ∨ content_hash doc2 = Some h →
  let st1 := snd (is_duplicate doc st) in
  fst (is_duplicate doc st) = false ∧
  doc_url doc ∈ seen_urls st1 ∧ h ∈ seen_hashes st1 ∧
  fst (is_duplicate doc2 (checks later st1)) = true ∧
  fst (is_duplicate doc st1) = true.
Proof.
  intros Hh Hne Hu Hhs Hshare. simpl.
  assert (Hfirst : is_duplicate doc st =
    (false, mkStore ({[ h ]} ∪ seen_hashes st)
                    ({[ doc_url doc ]} ∪ seen_urls st))).
  { unfold is_duplicate. rewrite bool_decide_eq_false_2 by done.
    rewrite Hh. destruct h as [|c h]; [done|]. simpl.
    by rewrite bool_decide_eq_false_2. }
  rewrite Hfirst. simpl.
  split; [done|]. split; [newly_added|]. split; [newly_added|].
  set (st1 := mkStore _ _).
  split.
  - apply is_duplicate_seen.
    destruct (checks_mono later st1) as [Hmu Hmh].
    destruct Hshare as [Heq|Heq].
    + left. rewrite Heq. apply Hmu. subst st1. simpl. newly_added.
    + right. exists h. split; [done|]. split; [done|].
      apply Hmh. subst st1. simpl. newly_added.
  - apply is_duplicate_seen. left. subst st1. simpl. newly_added.
Qed.

Definition sha256_of_test : string :=
  "9f86d081884c7d659a2feaa0c55ad015a3bf4f1b2b0b822cd15d6c15b0f00a08".

Definition doc_a : Doc :=
  mkDoc (lit "https://a.example/x") None (Some (lit sha256_of_test)).
Definition doc_b : Doc :=
  mkDoc (lit "https://b.example/y") None (Some (lit sha256_of_test)).

Lemma is_duplicate_first_then_later_witness :
  fst (is_duplicate doc_a empty_store) = false ∧
  fst (is_duplicate doc_b
         (checks [] (snd (is_duplicate doc_a empty_store)))) = true.
Proof.
  pose proof (is_duplicate_first_then_later doc_a (lit sha256_of_test)
                empty_store [] doc_b) as H.
  simpl in H.
  destruct H as (H1 & _ & _ & H2 & _).
  - reflexivity.
  - discriminate.
  - apply not_elem_of_empty.
  - apply not_elem_of_empty.
  - right. reflexivity.
  - split; [exact H1 | exact H2].
Defined.

End Dedupe.

(** * Claim corroboration ([libs/tavily_client/client.py]) *)

Module Tavily.

(** One entry of the search response.  ['url'] is indexed directly;
    ['title'] and ['content'] are read with [dict.get]. *)
Record SearchResult := mkResult {
  r_url : str;
  r_title : option str;
  r_content : option str
}.

Record Citation := mkCitation {
  c_claim : str;
  c_url : str;
  c_title : str;
  c_snippet : str
}.

(** A search request as the provider sees it: the query and [max_results]. *)
Definition SearchCall : Type := str * nat.

(** [claims[:n]] for any integer [n]: a negative bound counts from the end. *)
Definition slice_to {A} (n : Z) (l : list A) : list A :=
  if (0 <=? n)%Z then take (Z.to_nat n) l
  else take (length l - Z.to_nat (- n)) l.

(** [verified_claims >= len(claims) * 0.8].  Python does this test in
    binary64: the literal is 0.8 + 0.4 * 2^-53, so for a list of [n] claims
    the product is off 0.8 * n by n * 0.4 * 2^-53.  When 5 divides [n] that is
    less than half a unit in the last place of the integer 4n/5 and the
    product rounds to it exactly; otherwise 0.8 * n is at least 0.2 away
    from every integer.  Hence, for every length a list can have, the test
    is the exact comparison of 5 * verified with 4 * n. *)
Definition at_least_80_percent (verified total : nat) : bool :=
  4 * total <=? 5 * verified.

(** [result.get("content") and claim.lower() in result["content"].lower()] *)
Definition matches (claim : str) (r : SearchResult) : bool :=
  match r_content r with
  | Some (c :: cs) => Str.contains (Str.lower claim) (Str.lower (c :: cs))
  | _ => false
  end.

Definition cite (claim : str) (r : SearchResult) : Citation :=
  mkCitation claim (r_url r) (default [] (r_title r))
             (take 200 (default [] (r_content r)) ++ lit "...").

(** The inner loop: one citation per matching result, in result order. *)
Fixpoint claim_citations (claim : str) (results : list SearchResult)
    (acc : list Citation) : list Citation :=
  match results with
  | [] => acc
  | r :: rs =>
      if matches claim r then claim_citations claim rs (acc ++ [cite claim r])
      else claim_citations claim rs acc
  end.

Section Corroborate.

(** The search provider: the answer to a query with a given [max_results],
    or the exception the request raises. *)
Variable provider : str → nat → result (list SearchResult).

(** [tavily_search(query, max_results)]: the request is issued, then the
    provider's answer is returned or re-raised. *)
Definition tavily_search (query : str) (max_results : nat)
  : Eff (list SearchCall) (list SearchResult) :=
  λ issued, (provider query max_results, issued ++ [(query, max_results)]).

Open Scope eff_scope.

(** The outer loop over [claims], carrying [all_citations] and
    [verified_claims]. *)
Fixpoint claims_loop (claims : list str) (required : Z)
    (all_citations : list Citation) (verified_claims : nat)
  : Eff (list SearchCall) (list Citation * nat) :=
  match claims with
  | [] => eff_ret (all_citations, verified_claims)
  | claim :: rest =>
      results <- tavily_search claim 5 ;;
      let cs := claim_citations claim results [] in
      if (required <=? Z.of_nat (length cs))%Z
      then claims_loop rest required
             (all_citations ++ slice_to required cs) (S verified_claims)
      else claims_loop rest required all_citations verified_claims
  end.

Definition corroborate_claims (claims : list str) (required : Z)
  : Eff (list SearchCall) (bool * list Citation) :=
  acc <- claims_loop claims required [] 0 ;;
  let success := at_least_80_percent (snd acc) (length claims) in
  eff_ret (success, fst acc).

Close Scope eff_scope.

(** What the specification calls a matching result: it has content, and
    that content contains the claim text, case-insensitively. *)
Definition has_matching_content (claim : str) (r : SearchResult) : Prop :=
  ∃ content, r_content r = Some content ∧ content ≠ [] ∧
    ∃ pre post, Str.lower content = pre ++ Str.lower claim ++ post.

Lemma matches_spec claim r :
  matches claim r = true ↔ has_matching_content claim r.
Proof.
  unfold matches, has_matching_content.
  destruct (r_content r) as [[|c cs]|].
  - split; [done|]. intros (content & H & Hne & _). by injection H as <-.
  - rewrite Str.contains_spec. split.
    + intros H. exists (c :: cs). done.
    + intros (content & H & _ & Hsub). by injection H as <-.
  - split; [done|]. by intros (content & H & _).
Qed.

#[global] Instance has_matching_content_dec claim r :
  Decision (has_matching_content claim r).
Proof.
  destruct (matches claim r) eqn:E.
  - left. by apply matches_spec.
  - right. intros H. apply matches_spec in H. congruence.
Defined.

(** The results that support a claim, and the claims that are verified. *)
Definition supporting (claim : str) (results : list SearchResult)
  : list SearchResult :=
  filter (has_matching_content claim) results.

Definition verified (evidence : str → list SearchResult) (required : Z)
    (claim : str) : Prop :=
  (required ≤ Z.of_nat (length (supporting claim (evidence claim))))%Z.

#[global] Instance verified_dec evidence required claim :
  Decision (verified evidence required claim).
Proof. unfold verified. apply _. Defined.

(** The citations a claim contributes to the returned list. *)
Definition contributed (evidence : str → list SearchResult) (required : Z)
    (claim : str) : list Citation :=
  if decide (verified evidence required claim)
  then take (Z.to_nat required)
            (cite claim <$> supporting claim (evidence claim))
  else [].

Lemma claim_citations_spec claim results acc :
  claim_citations claim results acc =
  acc ++ (cite claim <$> supporting claim results).
Proof.
  revert acc. unfold supporting.
  induction results as [|r rs IH]; intros acc; simpl.
  - by rewrite app_nil_r.
  - rewrite filter_cons. destruct (matches claim r) eqn:E.
    + rewrite decide_True by (by apply matches_spec).
      rewrite IH. by rewrite <- app_assoc.
    + rewrite decide_False; [apply IH|].
      intros H. apply matches_spec in H. congruence.
Qed.

Lemma claims_loop_spec claims required evidence :
  (0 ≤ required)%Z →
  (∀ claim, claim ∈ claims → provider claim 5 = Ok (evidence claim)) →
  ∀ all_citations verified_claims issued,
    claims_loop claims required all_citations verified_claims issued =
    (Ok (all_citations ++ flat_map (contributed evidence required) claims,
         verified_claims + length (filter (verified evidence required) claims)),
     issued ++ ((λ claim, (claim, 5)) <$> claims)).
Proof.
  intros Hreq. induction claims as [|claim rest IH]; intros Hev acc v issued.
  - simpl. unfold eff_ret. by rewrite !app_nil_r, Nat.add_0_r.
  - simpl. unfold eff_bind, tavily_search.
    rewrite (Hev claim) by apply list_elem_of_here.
    rewrite claim_citations_spec. simpl. rewrite length_fmap.
    assert (Hrest : ∀ c, c ∈ rest → provider c 5 = Ok (evidence c)).
    { intros c Hc. apply Hev. by apply list_elem_of_further. }
    rewrite filter_cons. unfold contributed at 1.
    destruct (decide (verified evidence required claim)) as [Hv|Hv].
    + unfold verified in Hv.
      rewrite (proj2 (Z.leb_le _ _)) by done.
      rewrite IH by done. unfold slice_to.
      rewrite (proj2 (Z.leb_le 0 required)) by done.
      simpl. rewrite <- !app_assoc. simpl.
      do 2 f_equal. f_equal. lia.
    + unfold verified in Hv.
      rewrite (proj2 (Z.leb_gt _ _)) by lia.
      rewrite IH by done. simpl. by rewrite <- app_assoc.
Qed.

(** C1. For a non-empty list of claims and a threshold of at least 1, with
    every evidence search (one per claim, asking for 5 results) answered: a
    claim is counted as verified exactly when at least [required] of its
    results have content containing the claim text case-insensitively; each verified claim contributes at most
    [required] citations and every other claim none; and the verdict is
    [true] exactly when verified / total >= 0.8.  With five claims, four
    verified give [true] and three give [false]. *)
Theorem corroborate_claims_threshold claims required evidence issued :
  claims ≠ [] → (1 ≤ required)%Z →
  (∀ claim, claim ∈ claims → provider claim 5 = Ok (evidence claim)) →
  let verifiedClaims := length (filter (verified evidence required) claims) in
  let totalClaims := length claims in
  ∃ accepted citations,
    corroborate_claims claims required issued =
      (Ok (accepted, citations),
       issued ++ ((λ claim, (claim, 5)) <$> claims)) ∧
    citations = flat_map (contributed evidence required) claims ∧
    (∀ claim,
       length (contributed evidence required claim) ≤ Z.to_nat required ∧
       (¬ verified evidence required claim →
        contributed evidence required claim = [])) ∧
    (accepted = true ↔
     (4 # 5 <= Z.of_nat verifiedClaims # Pos.of_nat totalClaims)%Q) ∧
    (totalClaims = 5 → verifiedClaims = 4 → accepted = true) ∧
    (totalClaims = 5 → verifiedClaims = 3 → accepted = false).
Proof.
  intros Hne Hreq Hev verifiedClaims totalClaims.
  exists (at_least_80_percent verifiedClaims totalClaims).
  exists (flat_map (contributed evidence required) claims).
  split.
  { unfold corroborate_claims, eff_bind.
    rewrite (claims_loop_spec claims required evidence) by (done || lia).
    reflexivity. }
  split; [reflexivity|].
  split.
  { intros claim. unfold contributed.
    destruct (decide (verified evidence required claim)); simpl.
    - split; [|done]. rewrite length_take. lia.
    - split; [lia|done]. }
  assert (Hpos : 0 < totalClaims).
  { subst totalClaims. destruct claims; [done|simpl; lia]. }
  unfold at_least_80_percent.
  split.
  { unfold Qle. simpl. rewrite Nat.leb_le.
    replace (Z.pos (Pos.of_nat totalClaims)) with (Z.of_nat totalClaims)
      by (destruct totalClaims; [lia|]; rewrite <- Pos.of_nat_succ; lia).
    lia. }
  split.
  - intros -> ->. reflexivity.
  - intros -> ->. reflexivity.
Qed.

(** With no claims the loop body never runs: the verdict is [true], no
    citation is returned and the list of issued searches is unchanged. *)
Lemma corroborate_claims_empty required issued :
  corroborate_claims [] required issued = (Ok (true, []), issued).
Proof. reflexivity. Qed.

End Corroborate.

(** A run on five claims: every search finds the same two pages, which
    mention four of the five claims. *)
Definition sample_page (u : string) : SearchResult :=
  mkResult (lit u) (Some (lit "Notes")) (Some (lit "alpha Beta gamma DELTA")).

Definition sample_provider (query : str) (max_results : nat)
  : result (list SearchResult) :=
  Ok [sample_page "https://one.example"; sample_page "https://two.example"].

Definition sample_claims : list str :=
  [lit "Alpha"; lit "beta"; lit "GAMMA"; lit "delta"; lit "omega"].

Example corroborate_four_of_five :
  ∃ citations,
    fst (corroborate_claims sample_provider sample_claims 2 []) =
    Ok (true, citations) ∧ length citations = 8.
Proof. eexists. split; vm_compute; reflexivity. Qed.

Example corroborate_three_of_five :
  ∃ citations,
    fst (corroborate_claims sample_provider
           [lit "Alpha"; lit "beta"; lit "GAMMA"; lit "x"; lit "omega"]
           2 []) = Ok (false, citations) ∧ length citations = 6.
Proof. eexists. split; vm_compute; reflexivity. Qed.

(** Letters of U+0080..U+00FF are lowered too: a claim that begins with
    U+00C4 is found in a content that has U+00E4. *)
Example corroborate_latin1 :
  ∃ citation,
    fst (corroborate_claims
           (λ _ _, Ok [mkResult (lit "https://one.example") None
                         (Some (lit "die " ++ ["228"%char] ++
                                lit "nderung gilt"))])
           ["196"%char :: lit "nderung"] 1 []) = Ok (true, [citation]).
Proof. eexists. vm_compute. reflexivity. Qed.

Lemma corroborate_claims_threshold_witness :
  ∃ citations,
    corroborate_claims sample_provider sample_claims 2 [] =
      (Ok (true, citations), (λ claim, (claim, 5)) <$> sample_claims) ∧
    length citations = 8.
Proof.
  destruct (corroborate_claims_threshold sample_provider sample_claims 2
              (λ _, [sample_page "https://one.example";
                     sample_page "https://two.example"]) [])
    as (accepted & citations & Hrun & Hcit & _ & _ & Hfour & _).
  - discriminate.
  - lia.
  - reflexivity.
  - assert (accepted = true) as ->.
    { apply Hfour; vm_compute; reflexivity. }
    exists citations. split; [exact Hrun|].
    rewrite Hcit. vm_compute. reflexivity.
Defined.

End Tavily.

(** * The graph write ([libs/seven011_client/client.py]) *)

Module Seven011.

Record Entity := mkEntity {
  e_name : str;
  e_type : str
}.

Record Edge := mkEdge {
  source : str;
  target : str;
  relation : str
}.

(** [f"{i}"] for a non-negative integer. *)
Definition decimal (i : nat) : str :=
  list_ascii_of_string (NilEmpty.string_of_uint (Nat.to_uint i)).

(** [f"MERGE (n{i}:{entity['type']} {{name: '{entity['name']}'}})"] *)
Definition merge_node (i : nat) (entity : Entity) : str :=
  lit "MERGE (n" ++ decimal i ++ lit ":" ++ e_type entity ++
  lit " {name: '" ++ e_name entity ++ lit "'})".

(** [f"MERGE (n{source_idx})-[:{edge['relation']}]->(n{target_idx})"] *)
Definition merge_edge (source_idx target_idx : nat) (edge : Edge) : str :=
  lit "MERGE (n" ++ decimal source_idx ++ lit ")-[:" ++ relation edge ++
  lit "]->(n" ++ decimal target_idx ++ lit ")".

(** [next((i for i, e in enumerate(entities) if e['name'] == name), None)],
    with [i] the index the enumeration has reached. *)
Fixpoint index_from (i : nat) (name : str) (entities : list Entity)
  : option nat :=
  match entities with
  | [] => None
  | e :: es =>
      if bool_decide (e_name e = name) then Some i
      else index_from (S i) name es
  end.

Definition index_of (name : str) (entities : list Entity) : option nat :=
  index_from 0 name entities.

(** The first loop: one statement per entity. *)
Fixpoint entity_loop (i : nat) (entities : list Entity)
    (cypher_parts : list str) : list str :=
  match entities with
  | [] => cypher_parts
  | entity :: rest =>
      entity_loop (S i) rest (cypher_parts ++ [merge_node i entity])
  end.

(** The second loop: one statement per edge with both indices found. *)
Fixpoint edge_loop (entities : list Entity) (edges : list Edge)
    (cypher_parts : list str) : list str :=
  match edges with
  | [] => cypher_parts
  | edge :: rest =>
      match index_of (source edge) entities,
            index_of (target edge) entities with
      | Some source_idx, Some target_idx =>
          edge_loop entities rest
            (cypher_parts ++ [merge_edge source_idx target_idx edge])
      | _, _ => edge_loop entities rest cypher_parts
      end
  end.

Definition cypher_parts (entities : list Entity) (edges : list Edge)
  : list str :=
  edge_loop entities edges (entity_loop 0 entities []).

(** A graph query as the store receives it: collection and Cypher text. *)
Definition GraphQuery : Type := str * str.

Section GraphUpsert.

(** [_get_client()]: raises when the environment is not configured. *)
Variable get_client : result unit.

(** The store's answer to a graph query. *)
Variable graph_store : str → str → result unit.

Definition graph_query (collection cypher : str)
  : Eff (list GraphQuery) unit :=
  λ sent, (graph_store collection cypher, sent ++ [(collection, cypher)]).

Open Scope eff_scope.

Definition graph_upsert (collection : str) (entities : list Entity)
    (edges : list Edge) : Eff (list GraphQuery) unit :=
  match entities, edges with
  | [], [] => eff_ret tt
  | _, _ =>
      _ <- eff_of get_client ;;
      match cypher_parts entities edges with
      | [] => eff_ret tt
      | parts => graph_query collection (Str.join (lit " ") parts)
      end
  end.

Close Scope eff_scope.

(** An edge resolves when both of its endpoint names are names of entities
    in the list. *)
Definition named (name : str) (entities : list Entity) : Prop :=
  ∃ e, e ∈ entities ∧ e_name e = name.

Definition resolves (entities : list Entity) (edge : Edge) : Prop :=
  named (source edge) entities ∧ named (target edge) entities.

(** The statement an edge contributes, if any. *)
Definition statement_of (entities : list Entity) (edge : Edge) : option str :=
  match index_of (source edge) entities, index_of (target edge) entities with
  | Some source_idx, Some target_idx =>
      Some (merge_edge source_idx target_idx edge)
  | _, _ => None
  end.

Lemma index_from_None i name entities :
  index_from i name entities = None ↔ ¬ named name entities.
Proof.
  revert i. induction entities as [|e es IH]; intros i; simpl.
  - split; [|done]. intros _ (e & He & _). by apply elem_of_nil in He.
  - case_bool_decide as Hn.
    + split; [done|]. intros H. exfalso. apply H. exists e.
      split; [apply list_elem_of_here|done].
    + rewrite IH. split.
      * intros H (e' & He' & Hname). apply elem_of_cons in He' as [->|He'].
        -- done.
        -- apply H. by exists e'.
      * intros H (e' & He' & Hname). apply H. exists e'.
        split; [by apply list_elem_of_further|done].
Qed.

Lemma index_from_Some i name entities j :
  index_from i name entities = Some j →
  ∃ e, entities !! (j - i) = Some e ∧ e_name e = name ∧ i ≤ j.
Proof.
  revert i. induction entities as [|e es IH]; intros i; simpl; [done|].
  case_bool_decide as Hn.
  - intros [= <-]. exists e. rewrite Nat.sub_diag. done.
  - intros H. destruct (IH _ H) as (e' & Hl & Hname & Hle).
    exists e'. replace (j - i) with (S (j - S i)) by lia.
    simpl. split; [done|]. split; [done|lia].
Qed.

Lemma index_from_named i name entities j :
  index_from i name entities = Some j → named name entities.
Proof.
  intros H. destruct (index_from_Some _ _ _ _ H) as (e & Hl & Hname & _).
  exists e. split; [|done]. apply list_elem_of_lookup. eauto.
Qed.

#[global] Instance named_dec name entities : Decision (named name entities).
Proof.
  destruct (index_of name entities) eqn:E.
  - left. by apply (index_from_named 0 name entities n).
  - right. by apply (index_from_None 0).
Defined.

#[global] Instance resolves_dec entities edge :
  Decision (resolves entities edge).
Proof. unfold resolves. apply _. Defined.

Lemma statement_of_None entities edge :
  statement_of entities edge = None ↔ ¬ resolves entities edge.
Proof.
  unfold statement_of, resolves, index_of.
  destruct (index_from 0 (source edge) entities) eqn:Es.
  - destruct (index_from 0 (target edge) entities) eqn:Et.
    + split; [done|]. intros H. exfalso. apply H.
      split; eapply index_from_named; eauto.
    + split; [|done]. intros _ [_ Ht]. by apply (index_from_None 0) in Et.
  - split; [|done]. intros _ [Hs _]. by apply (index_from_None 0) in Es.
Qed.

Lemma edge_loop_spec entities (edges : list Edge) acc :
  edge_loop entities edges acc = acc ++ omap (statement_of entities) edges.
Proof.
  revert acc. induction edges as [|edge rest IH]; intros acc; simpl.
  - by rewrite app_nil_r.
  - unfold statement_of in *.
    destruct (index_of (source edge) entities);
      [destruct (index_of (target edge) entities)|];
      rewrite IH; simpl; by rewrite <- ?app_assoc.
Qed.

Lemma omap_statement_filter entities (edges : list Edge) :
  omap (statement_of entities) (filter (resolves entities) edges) =
  omap (statement_of entities) edges.
Proof.
  induction edges as [|edge rest IH]; simpl; [done|].
  rewrite filter_cons.
  destruct (decide (resolves entities edge)) as [H|H]; simpl.
  - destruct (statement_of entities edge); [f_equal|]; exact IH.
  - apply statement_of_None in H. rewrite H. exact IH.
Qed.

Lemma cypher_parts_spec entities (edges : list Edge) :
  cypher_parts entities edges =
  entity_loop 0 entities [] ++ omap (statement_of entities) edges.
Proof. apply edge_loop_spec. Qed.

Lemma graph_upsert_run collection entities (edges : list Edge) sent :
  get_client = Ok tt →
  graph_upsert collection entities edges sent =
  match cypher_parts entities edges with
  | [] => (Ok tt, sent)
  | parts => (graph_store collection (Str.join (lit " ") parts),
              sent ++ [(collection, Str.join (lit " ") parts)])
  end.
Proof.
  intros Hc. unfold graph_upsert, eff_bind, eff_of. rewrite Hc.
  destruct entities as [|e es]; [destruct edges as [|edge rest]|];
    try reflexivity; by destruct (cypher_parts _ _).
Qed.

(** C8. With the client configured: the statements written are one per
    entity followed by one per edge whose two endpoint names both name an
    entity of the list, in order; an edge with an unresolved endpoint
    contributes no statement, and the call behaves exactly as if that edge
    had not been passed, so it raises nothing of its own. *)
Theorem graph_upsert_drops_unresolved collection entities
    (edges : list Edge) sent :
  get_client = Ok tt →
  cypher_parts entities edges =
    entity_loop 0 entities [] ++ omap (statement_of entities) edges ∧
  (∀ edge, ¬ resolves entities edge → statement_of entities edge = None) ∧
  (∀ edge, edge ∈ edges → resolves entities edge →
     ∃ i j, e_name <$> entities !! i = Some (source edge) ∧
            e_name <$> entities !! j = Some (target edge) ∧
            statement_of entities edge = Some (merge_edge i j edge) ∧
            merge_edge i j edge ∈ cypher_parts entities edges) ∧
  graph_upsert collection entities edges sent =
    graph_upsert collection entities (filter (resolves entities) edges) sent ∧
  graph_upsert collection entities edges sent =
    match cypher_parts entities edges with
    | [] => (Ok tt, sent)
    | parts => (graph_store collection (Str.join (lit " ") parts),
                sent ++ [(collection, Str.join (lit " ") parts)])
    end.
Proof.
  intros Hc.
  split; [apply cypher_parts_spec|].
  split; [intros edge H; by apply statement_of_None|].
  split.
  { intros edge Hin Hres.
    destruct (statement_of entities edge) as [stmt|] eqn:Hstmt.
    - pose proof Hstmt as Hkeep.
      unfold statement_of, index_of in Hstmt.
      destruct (index_from 0 (source edge) entities) as [i|] eqn:Es; [|done].
      destruct (index_from 0 (target edge) entities) as [j|] eqn:Et; [|done].
      injection Hstmt as <-.
      apply index_from_Some in Es as (ei & Hi & Hni & _).
      apply index_from_Some in Et as (ej & Hj & Hnj & _).
      rewrite Nat.sub_0_r in Hi, Hj.
      exists i, j. rewrite Hi, Hj. simpl. rewrite Hni, Hnj.
      split; [done|]. split; [done|]. split; [done|].
      rewrite cypher_parts_spec. apply elem_of_app. right.
      apply list_elem_of_omap. by exists edge.
    - apply statement_of_None in Hstmt. done. }
  split.
  - rewrite !graph_upsert_run by done.
    by rewrite !cypher_parts_spec, omap_statement_filter.
  - by apply graph_upsert_run.
Qed.

End GraphUpsert.

(** A write of two entities and two edges, one of them naming an entity
    that is not in the list. *)
Definition sample_entities : list Entity :=
  [mkEntity (lit "Acme") (lit "Org"); mkEntity (lit "Bob") (lit "Person")].

Definition sample_edges : list Edge :=
  [mkEdge (lit "Bob") (lit "Zed") (lit "KNOWS");
   mkEdge (lit "Bob") (lit "Acme") (lit "WORKS_AT")].

Definition accepting_store (collection cypher : str) : result unit := Ok tt.

Example graph_upsert_sample :
  graph_upsert (Ok tt) accepting_store (lit "kb") sample_entities
    sample_edges [] =
  (Ok tt,
   [(lit "kb",
     lit "MERGE (n0:Org {name: 'Acme'}) MERGE (n1:Person {name: 'Bob'}) MERGE (n1)-[:WORKS_AT]->(n0)")]).
Proof. vm_compute. reflexivity. Qed.

Lemma graph_upsert_drops_unresolved_witness :
  graph_upsert (Ok tt) accepting_store (lit "kb") sample_entities
    sample_edges [] =
  graph_upsert (Ok tt) accepting_store (lit "kb") sample_entities
    (filter (resolves sample_entities) sample_edges) [].
Proof.
  destruct (graph_upsert_drops_unresolved (Ok tt) accepting_store (lit "kb")
              sample_entities sample_edges []) as (_ & _ & _ & H & _).
  - reflexivity.
  - exact H.
Defined.

End Seven011.

(** * The chunker ([libs/common/chunking.py]) *)

Module Chunking.

Import Str.

(** ** The heading pattern

    [(?m)^(?:#+ |={2,}|={2,}\n|\d+\.\s+|\w+\.\s+|[A-Z][A-Z\s]+:)]

    Each alternative is given as the length of its match at the head of a
    string.  Every repetition is greedy and is followed by a character
    outside the repeated class (or by nothing), so backtracking into it
    cannot produce another match: the match is the longest run. *)

Definition run (p : ascii → bool) (s : str) : nat := length (take_while p s).

(** [#+ ] *)
Definition alt_hashes (s : str) : option nat :=
  let k := run (Ascii.eqb "#") s in
  if (1 <=? k) && starts_with (lit " ") (drop k s) then Some (k + 1)
  else None.

(** [={2,}] *)
Definition alt_rule (s : str) : option nat :=
  let k := run (Ascii.eqb "=") s in
  if 2 <=? k then Some k else None.

(** [={2,}\n] *)
Definition alt_rule_nl (s : str) : option nat :=
  let k := run (Ascii.eqb "=") s in
  if (2 <=? k) && starts_with [nl] (drop k s) then Some (k + 1) else None.

(** [\d+\.\s+] and [\w+\.\s+]: a run of the class, a dot, a run of spaces. *)
Definition alt_marker (class : ascii → bool) (s : str) : option nat :=
  let k := run class s in
  match drop k s with
  | "."%char :: rest =>
      let m := run is_space rest in
      if (1 <=? k) && (1 <=? m) then Some (k + 1 + m) else None
  | _ => None
  end.

(** [[A-Z][A-Z\s]+:] *)
Definition alt_label (s : str) : option nat :=
  match s with
  | c :: s' =>
      let k := run (λ c, is_upper c || is_space c) s' in
      if is_upper c && (1 <=? k) && starts_with (lit ":") (drop k s')
      then Some (1 + k + 1) else None
  | [] => None
  end.

(** The alternation: the first alternative that matches wins. *)
Definition first_match (alts : list (str → option nat)) (s : str)
  : option nat :=
  foldr (λ alt later, match alt s with Some n => Some n | None => later end)
        None alts.

Definition heading_alternatives : list (str → option nat) :=
  [alt_hashes; alt_rule; alt_rule_nl; alt_marker is_digit;
   alt_marker is_word; alt_label].

Definition heading_match (s : str) : option nat :=
  first_match heading_alternatives s.

(** ** [re.split(heading_pattern, text)]

    The text is scanned from left to right.  [at_line_start] says whether
    [^] matches here (start of text, or just after a newline); [skip] is the
    number of characters of the current match still to be consumed.  The
    result is never empty: its head is the piece being read. *)
Fixpoint scan (at_line_start : bool) (skip : nat) (s : str) : list str :=
  match s with
  | [] => [[]]
  | c :: s' =>
      let next_line_start := Ascii.eqb c nl in
      match skip with
      | S k => scan next_line_start k s'
      | 0 =>
          match (if at_line_start then heading_match s else None) with
          | Some (S k) => [] :: scan next_line_start k s'
          | _ =>
              match scan next_line_start 0 s' with
              | piece :: pieces => (c :: piece) :: pieces
              | [] => [[c]]
              end
          end
      end
  end.

Definition re_split (text : str) : list str := scan true 0 text.

(** ** [chunk_by_headings] *)

Definition nonempty (s : str) : bool :=
  match s with [] => false | _ :: _ => true end.

(** The loop over [sections], carrying [chunks] and [current_chunk]. *)
Fixpoint chunk_loop (target_tokens : Z) (sections : list str)
    (chunks : list str) (current_chunk : str) : list str * str :=
  match sections with
  | [] => (chunks, current_chunk)
  | section :: rest =>
      let section := strip section in
      if negb (nonempty section)
      then chunk_loop target_tokens rest chunks current_chunk
      else
        let section_tokens := length section / 4 in
        let current_tokens := length current_chunk / 4 in
        if (target_tokens <? Z.of_nat (current_tokens + section_tokens))%Z
           && nonempty current_chunk
        then chunk_loop target_tokens rest
               (chunks ++ [strip current_chunk]) section
        else if nonempty current_chunk
        then chunk_loop target_tokens rest chunks
               (current_chunk ++ [nl; nl] ++ section)
        else chunk_loop target_tokens rest chunks section
  end.

Definition chunk_by_headings (text : str) (keep_headings : bool)
    (target_tokens : Z) : list str :=
  let sections := re_split text in
  let '(chunks, current_chunk) := chunk_loop target_tokens sections [] [] in
  if nonempty (strip current_chunk) then chunks ++ [strip current_chunk]
  else chunks.

(** Lines of text, joined by newlines. *)
Definition lines (ls : list string) : str := join [nl] (lit <$> ls).

(** ** What the split discards

    [scan_delims] follows [scan] and collects the matches of the pattern;
    [weave] puts pieces and matches back together. *)
Fixpoint scan_delims (at_line_start : bool) (skip : nat) (s : str)
  : list str :=
  match s with
  | [] => []
  | c :: s' =>
      let next_line_start := Ascii.eqb c nl in
      match skip with
      | S k => scan_delims next_line_start k s'
      | 0 =>
          match (if at_line_start then heading_match s else None) with
          | Some (S k) => take (S k) s :: scan_delims next_line_start k s'
          | _ => scan_delims next_line_start 0 s'
          end
      end
  end.

Fixpoint weave (pieces delims : list str) : str :=
  match pieces, delims with
  | p :: ps, d :: ds => p ++ d ++ weave ps ds
  | p :: _, [] => p
  | [], _ => []
  end.

(** The characters of a string that are not whitespace, in order. *)
Definition visible (s : str) : str :=
  List.filter (λ c, negb (is_space c)) s.

(** ** Facts about strings *)

Lemma run_le p s : run p s ≤ length s.
Proof.
  unfold run. induction s as [|c s IH]; simpl; [lia|].
  destruct (p c); simpl; lia.
Qed.

Lemma starts_with_length p s :
  starts_with p s = true → length p ≤ length s.
Proof.
  intros H. apply starts_with_spec in H as [post ->].
  rewrite length_app. lia.
Qed.

Lemma visible_app s1 s2 : visible (s1 ++ s2) = visible s1 ++ visible s2.
Proof. apply List.filter_app. Qed.

Lemma visible_drop_while s : visible (drop_while is_space s) = visible s.
Proof.
  induction s as [|c s IH]; simpl; [done|].
  destruct (is_space c) eqn:E; simpl; [done|]. by rewrite E.
Qed.

Lemma visible_rev s : visible (rev s) = rev (visible s).
Proof.
  induction s as [|c s IH]; simpl; [done|].
  rewrite visible_app, IH. simpl.
  destruct (negb (is_space c)); simpl; [done|]. by rewrite app_nil_r.
Qed.

Lemma visible_strip s : visible (strip s) = visible s.
Proof.
  unfold strip, rstrip, lstrip.
  rewrite visible_rev, visible_drop_while, visible_rev, rev_involutive.
  apply visible_drop_while.
Qed.

Lemma visible_nil_of_empty s : nonempty s = false → visible s = [].
Proof. by destruct s. Qed.

(** ** The split: pieces and matches make up the text *)

Lemma alt_hashes_le s n : alt_hashes s = Some n → 0 < n ≤ length s.
Proof.
  unfold alt_hashes. pose proof (run_le (Ascii.eqb "#") s).
  destruct (1 <=? run (Ascii.eqb "#") s) eqn:Hk,
    (starts_with (lit " ") (drop (run (Ascii.eqb "#") s) s)) eqn:Hs;
    cbn [andb]; try discriminate.
  intros [= <-]. apply starts_with_length in Hs.
  rewrite length_drop in Hs. simpl in Hs. lia.
Qed.

Lemma alt_rule_le s n : alt_rule s = Some n → 0 < n ≤ length s.
Proof.
  unfold alt_rule. pose proof (run_le (Ascii.eqb "=") s).
  destruct (2 <=? run (Ascii.eqb "=") s) eqn:Hk; try discriminate.
  intros [= <-]. apply Nat.leb_le in Hk. lia.
Qed.

Lemma alt_rule_nl_le s n : alt_rule_nl s = Some n → 0 < n ≤ length s.
Proof.
  unfold alt_rule_nl. pose proof (run_le (Ascii.eqb "=") s).
  destruct (2 <=? run (Ascii.eqb "=") s) eqn:Hk,
    (starts_with [nl] (drop (run (Ascii.eqb "=") s) s)) eqn:Hs;
    cbn [andb]; try discriminate.
  intros [= <-]. apply starts_with_length in Hs.
  rewrite length_drop in Hs. simpl in Hs. lia.
Qed.

Lemma alt_marker_le class s n : alt_marker class s = Some n → 0 < n ≤ length s.
Proof.
  unfold alt_marker. pose proof (run_le class s).
  destruct (drop (run class s) s) as [|c rest] eqn:Hd; [done|].
  pose proof (f_equal length Hd) as Hlen. rewrite length_drop in Hlen.
  simpl in Hlen. pose proof (run_le is_space rest).
  intros Hm.
  assert ((1 <=? run class s) && (1 <=? run is_space rest) = true ∧
          n = run class s + 1 + run is_space rest) as [_ ->].
  { destruct c as [[] [] [] [] [] [] [] []]; try discriminate.
    destruct ((1 <=? run class s) && (1 <=? run is_space rest));
      [|discriminate]. by injection Hm as <-. }
  lia.
Qed.

Lemma alt_label_le s n : alt_label s = Some n → 0 < n ≤ length s.
Proof.
  unfold alt_label. destruct s as [|c s']; [done|].
  pose proof (run_le (λ c, is_upper c || is_space c) s').
  destruct (is_upper c && (1 <=? run (λ c, is_upper c || is_space c) s')),
    (starts_with (lit ":")
       (drop (run (λ c, is_upper c || is_space c) s') s')) eqn:Hs;
    cbn [andb]; try discriminate.
  intros [= <-]. apply starts_with_length in Hs.
  rewrite length_drop in Hs. simpl in *. lia.
Qed.

Lemma first_match_Some alts s n :
  first_match alts s = Some n → ∃ alt, alt ∈ alts ∧ alt s = Some n.
Proof.
  induction alts as [|alt alts IH]; [done|].
  cbn [first_match foldr]. destruct (alt s) eqn:E.
  - intros [= <-]. exists alt. split; [apply list_elem_of_here|done].
  - intros H. destruct (IH H) as (alt' & Hin & Halt).
    exists alt'. split; [by apply list_elem_of_further|done].
Qed.

Lemma heading_match_le s n : heading_match s = Some n → 0 < n ≤ length s.
Proof.
  intros H. apply first_match_Some in H as (alt & Hin & Halt).
  unfold heading_alternatives in Hin.
  repeat (apply elem_of_cons in Hin as [->|Hin]).
  - by apply alt_hashes_le.
  - by apply alt_rule_le.
  - by apply alt_rule_nl_le.
  - by apply (alt_marker_le is_digit).
  - by apply (alt_marker_le is_word).
  - by apply alt_label_le.
  - by apply elem_of_nil in Hin.
Qed.

Lemma scan_nonempty at_line_start skip s : scan at_line_start skip s ≠ [].
Proof.
  revert at_line_start skip. induction s as [|c s IH]; intros b k; simpl.
  - done.
  - destruct k as [|k]; [|apply IH].
    destruct (if b then heading_match (c :: s) else None) as [[|n]|];
      try done; by destruct (scan (Ascii.eqb c nl) 0 s).
Qed.

Lemma weave_cons c p ps ds : weave ((c :: p) :: ps) ds = c :: weave (p :: ps) ds.
Proof. by destruct ds. Qed.

Lemma scan_weave s : ∀ at_line_start skip,
  skip ≤ length s →
  weave (scan at_line_start skip s) (scan_delims at_line_start skip s) =
  drop skip s ∧
  length (scan at_line_start skip s) =
  S (length (scan_delims at_line_start skip s)).
Proof.
  induction s as [|c s IH]; intros b k Hk; simpl.
  - by destruct k.
  - destruct k as [|k].
    + destruct (if b then heading_match (c :: s) else None) as [[|n]|] eqn:Hm.
      * destruct (IH (Ascii.eqb c nl) 0) as [IH1 IH2]; [lia|].
        pose proof (scan_nonempty (Ascii.eqb c nl) 0 s).
        destruct (scan (Ascii.eqb c nl) 0 s) as [|p ps] eqn:Hs; [done|].
        rewrite weave_cons, IH1. done.
      * assert (S n ≤ length (c :: s)) as Hn.
        { destruct b; [|done]. by apply heading_match_le in Hm as [_ ?]. }
        simpl in Hn.
        destruct (IH (Ascii.eqb c nl) n) as [IH1 IH2]; [lia|].
        simpl. rewrite IH1, IH2. by rewrite take_drop.
      * destruct (IH (Ascii.eqb c nl) 0) as [IH1 IH2]; [lia|].
        pose proof (scan_nonempty (Ascii.eqb c nl) 0 s).
        destruct (scan (Ascii.eqb c nl) 0 s) as [|p ps] eqn:Hs; [done|].
        rewrite weave_cons, IH1. done.
    + apply IH. simpl in Hk. lia.
Qed.

(** ** What the heading pattern matches

    The texts of the pattern, read off its six alternatives and stated
    without the matcher.  A run is a non-empty string of characters of one
    class. *)
Definition run_of (class : ascii → bool) (s : str) : Prop :=
  s ≠ [] ∧ forallb class s = true.

Inductive pattern_text : str → Prop :=
| hashes_text hs :
    run_of (Ascii.eqb "#") hs → pattern_text (hs ++ lit " ")
| rule_text r :
    2 ≤ length r → forallb (Ascii.eqb "=") r = true → pattern_text r
| rule_line_text r :
    2 ≤ length r → forallb (Ascii.eqb "=") r = true →
    pattern_text (r ++ [nl])
| numbered_text ds sp :
    run_of is_digit ds → run_of is_space sp →
    pattern_text (ds ++ lit "." ++ sp)
| worded_text w sp :
    run_of is_word w → run_of is_space sp →
    pattern_text (w ++ lit "." ++ sp)
| label_text c body :
    is_upper c = true → run_of (λ c, is_upper c || is_space c) body →
    pattern_text (c :: body ++ lit ":").

(** A piece of [text] that the split discards: a text of the pattern that
    begins a line of [text]. *)
Definition discarded (text d : str) : Prop :=
  pattern_text d ∧
  ∃ before after,
    text = before ++ d ++ after ∧
    (before = [] ∨ ∃ line_end, before = line_end ++ [nl]).

Lemma take_run p s : take (run p s) s = take_while p s.
Proof.
  unfold run. induction s as [|c s IH]; simpl; [done|].
  destruct (p c); simpl; [by rewrite IH|done].
Qed.

Lemma forallb_take_while p s : forallb p (take_while p s) = true.
Proof.
  induction s as [|c s IH]; simpl; [done|].
  destruct (p c) eqn:E; simpl; [by rewrite E|done].
Qed.

Lemma run_of_take p s : 1 ≤ run p s → run_of p (take (run p s) s).
Proof.
  intros H. rewrite take_run. split; [|apply forallb_take_while].
  unfold run in H. destruct (take_while p s); [simpl in H; lia|done].
Qed.

Lemma take_plus {A} k m (s : list A) :
  take (k + m) s = take k s ++ take m (drop k s).
Proof.
  revert s. induction k as [|k IH]; intros s; [done|].
  destruct s as [|a s]; simpl; [by destruct m|by rewrite IH].
Qed.

Lemma starts_with_take p s : starts_with p s = true → take (length p) s = p.
Proof. intros [post ->]%starts_with_spec. by rewrite take_app_length. Qed.

(** Each alternative of the matcher matches a text of the pattern. *)
Lemma alt_hashes_text s n : alt_hashes s = Some n → pattern_text (take n s).
Proof.
  unfold alt_hashes.
  destruct (1 <=? run (Ascii.eqb "#") s) eqn:Hk,
    (starts_with (lit " ") (drop (run (Ascii.eqb "#") s) s)) eqn:Hs;
    cbn [andb]; try discriminate.
  intros [= <-]. rewrite take_plus.
  change 1 with (length (lit " ")). rewrite (starts_with_take _ _ Hs).
  apply hashes_text, run_of_take. by apply Nat.leb_le.
Qed.

Lemma rule_run s :
  2 ≤ run (Ascii.eqb "=") s →
  2 ≤ length (take (run (Ascii.eqb "=") s) s) ∧
  forallb (Ascii.eqb "=") (take (run (Ascii.eqb "=") s) s) = true.
Proof.
  intros H. rewrite take_run. split; [done|apply forallb_take_while].
Qed.

Lemma alt_rule_text s n : alt_rule s = Some n → pattern_text (take n s).
Proof.
  unfold alt_rule.
  destruct (2 <=? run (Ascii.eqb "=") s) eqn:Hk; try discriminate.
  intros [= <-]. apply Nat.leb_le in Hk.
  destruct (rule_run s Hk). by apply rule_text.
Qed.

Lemma alt_rule_nl_text s n : alt_rule_nl s = Some n → pattern_text (take n s).
Proof.
  unfold alt_rule_nl.
  destruct (2 <=? run (Ascii.eqb "=") s) eqn:Hk,
    (starts_with [nl] (drop (run (Ascii.eqb "=") s) s)) eqn:Hs;
    cbn [andb]; try discriminate.
  intros [= <-]. apply Nat.leb_le in Hk. rewrite take_plus.
  change 1 with (length [nl]). rewrite (starts_with_take _ _ Hs).
  destruct (rule_run s Hk). by apply rule_line_text.
Qed.

Lemma alt_marker_text class s n :
  alt_marker class s = Some n →
  ∃ w sp, take n s = w ++ lit "." ++ sp ∧ run_of class w ∧ run_of is_space sp.
Proof.
  unfold alt_marker.
  destruct (drop (run class s) s) as [|c rest] eqn:Hd; [done|].
  intros Hm.
  assert (c = "."%char ∧
          (1 <=? run class s) && (1 <=? run is_space rest) = true ∧
          n = run class s + (1 + run is_space rest)) as (-> & Hk & ->).
  { destruct c as [[] [] [] [] [] [] [] []]; try discriminate.
    destruct ((1 <=? run class s) && (1 <=? run is_space rest));
      [|discriminate]. injection Hm as <-. split; [done|]. split; [done|lia]. }
  apply andb_true_iff in Hk as [Hk Hm'].
  apply Nat.leb_le in Hk, Hm'.
  exists (take (run class s) s), (take (run is_space rest) rest).
  split; [|split; by apply run_of_take].
  by rewrite take_plus, Hd.
Qed.

Lemma alt_label_text s n : alt_label s = Some n → pattern_text (take n s).
Proof.
  unfold alt_label. destruct s as [|c s']; [done|].
  destruct (is_upper c) eqn:Hc,
    (1 <=? run (λ c, is_upper c || is_space c) s') eqn:Hk,
    (starts_with (lit ":")
       (drop (run (λ c, is_upper c || is_space c) s') s')) eqn:Hs;
    cbn [andb]; try discriminate.
  intros [= <-]. apply Nat.leb_le in Hk.
  change (pattern_text
            (c :: take (run (λ c, is_upper c || is_space c) s' + 1) s')).
  rewrite take_plus. change 1 with (length (lit ":")).
  rewrite (starts_with_take _ _ Hs).
  apply label_text; [done|]. by apply run_of_take.
Qed.

Lemma heading_match_text s n :
  heading_match s = Some n → pattern_text (take n s).
Proof.
  intros H. apply first_match_Some in H as (alt & Hin & Halt).
  unfold heading_alternatives in Hin.
  repeat (apply elem_of_cons in Hin as [->|Hin]).
  - by apply alt_hashes_text.
  - by apply alt_rule_text.
  - by apply alt_rule_nl_text.
  - destruct (alt_marker_text _ _ _ Halt) as (w & sp & -> & ? & ?).
    by apply numbered_text.
  - destruct (alt_marker_text _ _ _ Halt) as (w & sp & -> & ? & ?).
    by apply worded_text.
  - by apply alt_label_text.
  - by apply elem_of_nil in Hin.
Qed.

(** Conversely, the matcher finds a match wherever a text of the pattern
    begins. *)
Lemma run_app_ge p w rest :
  forallb p w = true → length w ≤ run p (w ++ rest).
Proof.
  unfold run. induction w as [|c w IH]; simpl; [lia|].
  intros [-> Hw]%andb_true_iff. simpl. specialize (IH Hw). lia.
Qed.

Lemma run_app_stop p w c rest :
  forallb p w = true → p c = false → run p (w ++ c :: rest) = length w.
Proof.
  unfold run. intros Hw Hc. induction w as [|a w IH]; simpl.
  - by rewrite Hc.
  - simpl in Hw. apply andb_true_iff in Hw as [-> Hw]. simpl.
    by rewrite IH.
Qed.

Lemma first_match_alt alts alt s :
  alt ∈ alts → alt s ≠ None → first_match alts s ≠ None.
Proof.
  induction alts as [|a alts IH]; [by intros ?%elem_of_nil|].
  cbn [first_match foldr]. intros [->|Hin]%elem_of_cons Halt.
  - by destruct (a s).
  - destruct (a s); [done|]. by apply IH.
Qed.

Lemma alt_rule_complete r rest :
  2 ≤ length r → forallb (Ascii.eqb "=") r = true →
  alt_rule (r ++ rest) ≠ None.
Proof.
  intros Hlen Hr. unfold alt_rule.
  pose proof (run_app_ge _ _ rest Hr) as Hk.
  by rewrite (proj2 (Nat.leb_le _ _)) by lia.
Qed.

Lemma alt_marker_complete class w sp rest :
  class "."%char = false → run_of class w → run_of is_space sp →
  alt_marker class ((w ++ lit "." ++ sp) ++ rest) ≠ None.
Proof.
  intros Hdot [Hw Hcw] [Hsp Hcsp]. unfold alt_marker.
  replace ((w ++ lit "." ++ sp) ++ rest)
    with (w ++ "."%char :: sp ++ rest) by (by rewrite <- !app_assoc).
  rewrite (run_app_stop _ _ _ _ Hcw Hdot), drop_app_length.
  pose proof (run_app_ge _ _ rest Hcsp) as Hm.
  assert (1 ≤ length w) by (destruct w; [done|simpl; lia]).
  assert (1 ≤ length sp) by (destruct sp; [done|simpl; lia]).
  rewrite !(proj2 (Nat.leb_le _ _)) by lia. done.
Qed.

Lemma heading_match_complete d rest :
  pattern_text d → heading_match (d ++ rest) ≠ None.
Proof.
  intros Hd. unfold heading_match.
  destruct Hd as [hs [Hne Hhs]|r Hlen Hr|r Hlen Hr|ds sp Hds Hsp|w sp Hw Hsp
                 |c body Hc [Hne Hbody] ].
  - apply (first_match_alt _ alt_hashes); [apply list_elem_of_here|].
    unfold alt_hashes.
    replace ((hs ++ lit " ") ++ rest) with (hs ++ " "%char :: rest)
      by (by rewrite <- app_assoc).
    rewrite (run_app_stop _ _ _ _ Hhs) by done.
    rewrite drop_app_length.
    assert (1 ≤ length hs) by (destruct hs; [done|simpl; lia]).
    rewrite (proj2 (Nat.leb_le _ _)) by lia. done.
  - apply (first_match_alt _ alt_rule);
      [apply list_elem_of_further, list_elem_of_here|].
    by apply alt_rule_complete.
  - apply (first_match_alt _ alt_rule);
      [apply list_elem_of_further, list_elem_of_here|].
    rewrite <- app_assoc. by apply alt_rule_complete.
  - apply (first_match_alt _ (alt_marker is_digit));
      [do 3 apply list_elem_of_further; apply list_elem_of_here|].
    by apply alt_marker_complete.
  - apply (first_match_alt _ (alt_marker is_word));
      [do 4 apply list_elem_of_further; apply list_elem_of_here|].
    by apply alt_marker_complete.
  - apply (first_match_alt _ alt_label);
      [do 5 apply list_elem_of_further; apply list_elem_of_here|].
    unfold alt_label.
    replace ((c :: body ++ lit ":") ++ rest)
      with (c :: body ++ ":"%char :: rest)
      by (simpl; by rewrite <- app_assoc).
    rewrite (run_app_stop _ _ _ _ Hbody) by done.
    rewrite drop_app_length, Hc.
    assert (1 ≤ length body) by (destruct body; [done|simpl; lia]).
    rewrite (proj2 (Nat.leb_le _ _)) by lia. done.
Qed.

(** The matcher and the pattern agree on where a match begins. *)
Lemma heading_match_spec line :
  heading_match line ≠ None ↔
  ∃ d rest, line = d ++ rest ∧ pattern_text d.
Proof.
  split.
  - destruct (heading_match line) as [n|] eqn:Hm; [|done]. intros _.
    exists (take n line), (drop n line).
    split; [by rewrite take_drop|by apply heading_match_text].
  - intros (d & rest & -> & Hd). by apply heading_match_complete.
Qed.

(** Every collected match is a text of the pattern at the start of a
    line. *)
Lemma scan_delims_discarded s : ∀ at_line_start skip pre,
  (at_line_start = true → pre = [] ∨ ∃ line_end, pre = line_end ++ [nl]) →
  Forall (discarded (pre ++ s)) (scan_delims at_line_start skip s).
Proof.
  induction s as [|c s IH]; intros b k pre Hb; cbn [scan_delims];
    [constructor|].
  assert (Hrest : ∀ k', Forall (discarded (pre ++ c :: s))
                          (scan_delims (Ascii.eqb c nl) k' s)).
  { intros k'.
    replace (pre ++ c :: s) with ((pre ++ [c]) ++ s)
      by (by rewrite <- app_assoc).
    apply IH. intros ->%Ascii.eqb_eq. right. by exists pre. }
  destruct k as [|k]; [|apply Hrest].
  destruct (if b then heading_match (c :: s) else None) as [[|n]|] eqn:Hm;
    try apply Hrest.
  constructor; [|apply Hrest].
  destruct b; [|done]. split.
  - by apply heading_match_text.
  - exists pre, (drop (S n) (c :: s)).
    split; [by rewrite take_drop|by apply Hb].
Qed.

(** ** The loop keeps every visible character, once and in order *)

#[local] Arguments Nat.div : simpl never.

Lemma chunk_loop_visible target_tokens sections : ∀ chunks current_chunk,
  visible
    (concat (fst (chunk_loop target_tokens sections chunks current_chunk)) ++
     snd (chunk_loop target_tokens sections chunks current_chunk)) =
  visible (concat chunks ++ current_chunk) ++ visible (concat sections).
Proof.
  induction sections as [|section rest IH]; intros chunks cur; simpl.
  - by rewrite app_nil_r.
  - rewrite (visible_app section), <- (visible_strip section).
    destruct (nonempty (strip section)) eqn:Hsec; simpl.
    + destruct ((target_tokens <?
                 Z.of_nat (length cur / 4 + length (strip section) / 4))%Z
                && nonempty cur) eqn:Hfull.
      * rewrite IH. rewrite concat_app. simpl.
        rewrite !visible_app, app_nil_r, visible_strip.
        by rewrite <- !app_assoc.
      * destruct (nonempty cur) eqn:Hcur.
        -- rewrite IH. rewrite !visible_app. simpl.
           by rewrite <- !app_assoc.
        -- rewrite IH. destruct cur; [|done].
           rewrite !visible_app. simpl. by rewrite <- !app_assoc.
    + rewrite IH. rewrite (visible_nil_of_empty _ Hsec). done.
Qed.

Lemma chunk_by_headings_visible text keep_headings target_tokens :
  visible (concat (chunk_by_headings text keep_headings target_tokens)) =
  visible (concat (re_split text)).
Proof.
  unfold chunk_by_headings.
  pose proof (chunk_loop_visible target_tokens (re_split text) [] []) as H.
  destruct (chunk_loop target_tokens (re_split text) [] [])
    as [chunks cur]. simpl in H.
  rewrite visible_app in H.
  destruct (nonempty (strip cur)) eqn:Hcur.
  - rewrite concat_app. simpl.
    by rewrite visible_app, app_nil_r, visible_strip.
  - apply visible_nil_of_empty in Hcur. rewrite visible_strip in Hcur.
    by rewrite Hcur, app_nil_r in H.
Qed.


(** ** The wording of the specification

    The heading markers of the specification: markdown headers,
    underline-style headers, numbered and lettered list markers, and
    ALL-CAPS label lines.  A lettered list marker is one letter, a full stop
    and white space. *)
Definition matched (m : option nat) : bool :=
  match m with
  | Some _ => true
  | None => false
  end.

Definition lettered_marker (s : str) : bool :=
  match s with
  | c :: "."%char :: sp :: _ => is_alpha c && is_space sp
  | _ => false
  end.

Definition heading_marker (s : str) : bool :=
  matched (alt_hashes s) || matched (alt_rule s) ||
  matched (alt_marker is_digit s) || lettered_marker s ||
  matched (alt_label s).

(** The text from the start of each of its lines. *)
Fixpoint line_heads (at_line_start : bool) (s : str) : list str :=
  match s with
  | [] => []
  | c :: s' =>
      (if at_line_start then [s] else []) ++ line_heads (Ascii.eqb c nl) s'
  end.

(** No line of the text begins with a heading marker. *)
Definition marker_free (text : str) : bool :=
  forallb (λ line, negb (heading_marker line)) (line_heads true text).

(** The coverage as the specification words it, on a text without heading
    markers: the visible characters of the chunks are those of the text. *)
Definition covered (text : str) : Prop :=
  marker_free text = true →
  visible (concat (chunk_by_headings text true 500)) = visible text.

(** Two sentences on one line, with no heading marker. *)
Definition two_sentences : str := lit "Taxes. They rise.".

Example two_sentences_chunks :
  marker_free two_sentences = true ∧
  chunk_by_headings two_sentences true 500 = [lit "They rise."] ∧
  chunk_by_headings (lines ["Yes."; "No."; "Maybe."]) true 500 =
    [lit "Maybe."].
Proof. repeat split; vm_compute; reflexivity. Qed.


(** Letters and white space of U+0080..U+00FF: a word that begins with
    U+00DC is a word of the pattern, and U+00A0 and U+0085 are stripped. *)
Example chunk_by_headings_latin1 :
  chunk_by_headings ("220"%char :: lit "bersicht. Die Reform kommt bald")
    true 1 = [lit "Die Reform kommt bald"] ∧
  chunk_by_headings
    (["160"%char] ++ lit "abc" ++ ["133"%char; nl] ++ lit "# def" ++
     ["160"%char]) true 500 =
  [lit "abc" ++ [nl; nl] ++ lit "def"].
Proof. split; vm_compute; reflexivity. Qed.

Example chunk_by_headings_sample :
  chunk_by_headings
    (lines ["Intro text"; "# First"; "body one"; "2. item"; "NOTE: end"])
    true 500 =
  [lit "Intro text" ++ [nl; nl] ++ lines ["First"; "body one"] ++ [nl; nl] ++
   lit "item" ++ [nl; nl] ++ lit "end"].
Proof. vm_compute. reflexivity. Qed.

(** A match of the pattern need not be a heading: at the start of a line,
    a word followed by a full stop and a space is a delimiter as well, and is
    discarded with the others. *)
Example chunk_by_headings_word_and_stop :
  chunk_by_headings (lit "Dr. Smith arrived.") true 500 =
  [lit "Smith arrived."].
Proof. vm_compute. reflexivity. Qed.

(** ** The size of a chunk *)

Lemma drop_while_idem p s : drop_while p (drop_while p s) = drop_while p s.
Proof.
  induction s as [|c s IH]; simpl; [done|].
  destruct (p c) eqn:E; [done|]. simpl. by rewrite E.
Qed.

Lemma drop_while_head p s c t : drop_while p s = c :: t → p c = false.
Proof.
  induction s as [|a s IH]; simpl; [done|].
  destruct (p a) eqn:E; [done|]. by intros [= <- _].
Qed.

Lemma drop_while_snoc p l c :
  p c = false → drop_while p (l ++ [c]) = drop_while p l ++ [c].
Proof.
  intros Hc. induction l as [|a l IH]; simpl.
  - by rewrite Hc.
  - by destruct (p a).
Qed.

Lemma length_drop_while p s : length (drop_while p s) ≤ length s.
Proof.
  induction s as [|c s IH]; simpl; [lia|]. destruct (p c); simpl; lia.
Qed.

Lemma length_strip s : length (strip s) ≤ length s.
Proof.
  unfold strip, rstrip, lstrip. rewrite length_rev.
  pose proof (length_drop_while is_space (rev (drop_while is_space s))).
  pose proof (length_drop_while is_space s).
  rewrite length_rev in *. lia.
Qed.

(** [s.strip().strip() == s.strip()] *)
Lemma strip_idem s : strip (strip s) = strip s.
Proof.
  unfold strip, lstrip.
  destruct (drop_while is_space s) as [|c u] eqn:Hu; [done|].
  pose proof (drop_while_head _ _ _ _ Hu) as Hc.
  unfold rstrip. change (rev (c :: u)) with (rev u ++ [c]).
  rewrite (drop_while_snoc _ _ _ Hc), rev_app_distr.
  change (rev [c] ++ ?x) with (c :: x).
  cbn [drop_while]. rewrite Hc.
  change (rev (c :: ?x)) with (rev x ++ [c]).
  rewrite rev_involutive, (drop_while_snoc _ _ _ Hc), drop_while_idem.
  by rewrite rev_app_distr.
Qed.

(** A chunk is within bounds when it is one stripped section of the split
    or has at most [4 * target_tokens + 8] characters. *)
Definition within (sections : list str) (target_tokens : Z) (chunk : str)
  : Prop :=
  (∃ section, section ∈ sections ∧ chunk = strip section) ∨
  (Z.of_nat (length chunk) ≤ 4 * target_tokens + 8)%Z.

Lemma within_strip sections target_tokens chunk :
  within sections target_tokens chunk →
  within sections target_tokens (strip chunk).
Proof.
  intros [(section & Hin & ->)|Hlen].
  - left. exists section. by rewrite strip_idem.
  - right. pose proof (length_strip chunk). lia.
Qed.

Lemma chunk_loop_within target_tokens all sections : ∀ chunks current_chunk,
  (∀ section, section ∈ sections → section ∈ all) →
  Forall (within all target_tokens) chunks →
  current_chunk = [] ∨ within all target_tokens current_chunk →
  Forall (within all target_tokens)
    (fst (chunk_loop target_tokens sections chunks current_chunk)) ∧
  (snd (chunk_loop target_tokens sections chunks current_chunk) = [] ∨
   within all target_tokens
     (snd (chunk_loop target_tokens sections chunks current_chunk))).
Proof.
  induction sections as [|section rest IH]; intros chunks cur Hall Hchunks Hcur.
  - done.
  - assert (Hrest : ∀ s, s ∈ rest → s ∈ all).
    { intros s Hs. apply Hall. by apply list_elem_of_further. }
    assert (Hsec : within all target_tokens (strip section)).
    { left. exists section. split; [|done]. apply Hall, list_elem_of_here. }
    cbn [chunk_loop].
    destruct (nonempty (strip section)) eqn:Hne; cbn [negb].
    + destruct (target_tokens <?
                Z.of_nat (length cur / 4 + length (strip section) / 4))%Z
        eqn:Hfull; cbn [andb].
      * destruct (nonempty cur) eqn:Hc.
        -- apply IH; [done| |by right].
           apply Forall_app. split; [done|].
           apply Forall_singleton, within_strip.
           destruct Hcur as [->|?]; done.
        -- apply IH; [done|done|by right].
      * destruct (nonempty cur) eqn:Hc.
        -- apply IH; [done|done|]. right. right.
           apply Z.ltb_ge in Hfull.
           rewrite !length_app. simpl.
           pose proof (Nat.div_mod_eq (length cur) 4).
           pose proof (Nat.div_mod_eq (length (strip section)) 4).
           pose proof (Nat.mod_upper_bound (length cur) 4).
           pose proof (Nat.mod_upper_bound (length (strip section)) 4).
           lia.
        -- apply IH; [done|done|by right].
    + by apply IH.
Qed.

(** C4, as the code has it.  Every chunk is one stripped section of the
    heading split, or has at most [4 * target_tokens + 8] characters: a
    section is joined to a non-empty buffer only while the two [len // 4]
    estimates sum to at most [target_tokens], and the join adds the two
    characters of the separator. *)
Theorem chunk_by_headings_bound text keep_headings target_tokens chunk :
  chunk ∈ chunk_by_headings text keep_headings target_tokens →
  (∃ section, section ∈ re_split text ∧ chunk = strip section) ∨
  (Z.of_nat (length chunk) ≤ 4 * target_tokens + 8)%Z.
Proof.
  unfold chunk_by_headings.
  destruct (chunk_loop_within target_tokens (re_split text) (re_split text)
              [] []) as [Hchunks Hcur]; [done|constructor|by left|].
  destruct (chunk_loop target_tokens (re_split text) [] [])
    as [chunks cur]. simpl in Hchunks, Hcur.
  rewrite Forall_forall in Hchunks.
  destruct (nonempty (strip cur)) eqn:Hne.
  - intros Hin. apply elem_of_app in Hin as [Hin|Hin].
    + by apply Hchunks.
    + apply list_elem_of_singleton in Hin as ->.
      apply within_strip. destruct Hcur as [->|?]; done.
  - apply Hchunks.
Qed.

(** Seven three-letter sections under a budget of two tokens. *)
Definition short_sections : str :=
  lines ["abc"; "# def"; "# ghi"; "# jkl"; "# mno"; "# pqr"; "# stu"].

Example short_sections_chunks :
  chunk_by_headings short_sections true 2 =
  [lit "abc" ++ [nl; nl] ++ lit "def" ++ [nl; nl] ++ lit "ghi";
   lit "jkl" ++ [nl; nl] ++ lit "mno" ++ [nl; nl] ++ lit "pqr";
   lit "stu"].
Proof. vm_compute. reflexivity. Qed.

(** The length of the longest piece of the heading split. *)
Definition longest_section (text : str) : nat :=
  foldr (λ section m, Nat.max (length section) m) 0 (re_split text).

(** A chunk exceeds [target_tokens * 4] characters by more than one
    section's length, however long that section is taken to be. *)
Definition overshoots (text : str) (target_tokens : Z) (chunk : str) : bool :=
  (4 * target_tokens + Z.of_nat (longest_section text) <?
   Z.of_nat (length chunk))%Z.

(** The bound as the specification words it: at most one chunk overshoots. *)
Definition at_most_one_overshoots (text : str) (target_tokens : Z) : Prop :=
  length (List.filter (overshoots text target_tokens)
            (chunk_by_headings text true target_tokens)) ≤ 1.

(** Two chunks of 13 characters, against 2 * 4 characters and sections of
    at most 4. *)
Lemma at_most_one_overshoots_fails : ¬ at_most_one_overshoots short_sections 2.
Proof.
  unfold at_most_one_overshoots.
  replace (length _) with 2 by (vm_compute; reflexivity).
  lia.
Qed.

Lemma chunk_by_headings_bound_witness :
  (∃ section, section ∈ re_split short_sections ∧
              lit "stu" = strip section) ∨
  (Z.of_nat (length (lit "stu")) ≤ 4 * 2 + 8)%Z.
Proof.
  apply (chunk_by_headings_bound short_sections true 2 (lit "stu")).
  rewrite short_sections_chunks.
  apply list_elem_of_further, list_elem_of_further, list_elem_of_here.
Defined.

End Chunking.

(** * URL canonicalisation ([libs/common/extract.py]) *)

Module Extract.

Import Str.

(** ** [urllib.parse.urlparse], as CPython 3.11 implements it for [str] *)

Record ParseResult := mkParse {
  scheme : str;
  netloc : str;
  path : str;
  params : str;
  query : str;
  fragment : str
}.

(** [s.find(c)]: the first index of [c], if any. *)
Fixpoint find_char (c : ascii) (s : str) : option nat :=
  match s with
  | [] => None
  | a :: s' => if Ascii.eqb a c then Some 0 else S <$> find_char c s'
  end.

(** [s.find(c, start)] *)
Definition find_from (c : ascii) (start : nat) (s : str) : option nat :=
  (λ i, start + i) <$> find_char c (drop start s).

(** [s.rfind(c)]: the last index of [c], if any. *)
Fixpoint rfind_char (c : ascii) (s : str) : option nat :=
  match s with
  | [] => None
  | a :: s' =>
      match rfind_char c s' with
      | Some i => Some (S i)
      | None => if Ascii.eqb a c then Some 0 else None
      end
  end.

(** [s.split(c, 1)] when [c in s]: the text before and after the first [c]. *)
Fixpoint cut (c : ascii) (s : str) : option (str * str) :=
  match s with
  | [] => None
  | a :: s' =>
      if Ascii.eqb a c then Some ([], s')
      else match cut c s' with
           | Some (before, after) => Some (a :: before, after)
           | None => None
           end
  end.

(** [scheme_chars] *)
Definition is_scheme_char (c : ascii) : bool :=
  is_alpha c || is_digit c || Ascii.eqb c "+" || Ascii.eqb c "-" ||
  Ascii.eqb c ".".

(** [_WHATWG_C0_CONTROL_OR_SPACE]: U+0000..U+0020. *)
Definition is_c0_or_space (c : ascii) : bool := nat_of_ascii c <=? 32.

(** [_UNSAFE_URL_BYTES_TO_REMOVE] *)
Definition is_unsafe (c : ascii) : bool :=
  Ascii.eqb c "009" || Ascii.eqb c "013" || Ascii.eqb c "010".

(** [uses_params] *)
Definition uses_params : list str :=
  lit <$> [""; "ftp"; "hdl"; "prospero"; "http"; "imap"; "https"; "shttp";
           "rtsp"; "rtspu"; "sip"; "sips"; "mms"; "sftp"; "tel"]%string.

(** [_splitnetloc(url, start)] *)
Definition splitnetloc (url : str) (start : nat) : str * str :=
  let delim :=
    foldl (λ delim c,
             match find_from c start url with
             | Some wdelim => Nat.min delim wdelim
             | None => delim
             end)
          (length url) (lit "/?#") in
  (take (delim - start) (drop start url), drop delim url).

(** [_splitparams(url)] *)
Definition splitparams (url : str) : str * str :=
  let semicolon :=
    match rfind_char "/" url with
    | Some slash => find_from ";" slash url
    | None => find_char ";" url
    end in
  match semicolon with
  | Some i => (take i url, drop (S i) url)
  | None => (url, [])
  end.

Definition is_ascii_str (s : str) : bool :=
  forallb (λ c, nat_of_ascii c <? 128) s.

(** ** Facts about searching and cutting *)

Lemma has_char_spec c s : has_char c s = true ↔ c ∈ s.
Proof.
  unfold has_char. induction s as [|a s IH]; simpl.
  - split; [done|]. intros H. by apply elem_of_nil in H.
  - rewrite orb_true_iff, IH, elem_of_cons, Ascii.eqb_eq.
    split; (intros [?|?]; [by left|by right]).
Qed.

Lemma has_char_false c s : has_char c s = false ↔ c ∉ s.
Proof.
  rewrite <- has_char_spec. destruct (has_char c s); naive_solver.
Qed.

Lemma find_char_None c s : find_char c s = None ↔ c ∉ s.
Proof.
  induction s as [|a s IH]; simpl.
  - split; [|done]. intros _ H. by apply elem_of_nil in H.
  - rewrite not_elem_of_cons. destruct (Ascii.eqb_spec a c) as [->|Hne].
    + split; [done|]. by intros [? _].
    + destruct (find_char c s); simpl.
      * split; [done|]. intros [_ H]. by apply IH in H.
      * split; [|done]. intros _. split; [done|]. by apply IH.
Qed.

Lemma find_char_app c pre post :
  c ∉ pre → find_char c (pre ++ c :: post) = Some (length pre).
Proof.
  induction pre as [|a pre IH]; simpl.
  - by rewrite Ascii.eqb_refl.
  - rewrite not_elem_of_cons. intros [Hne Hpre].
    destruct (Ascii.eqb_spec a c) as [->|_]; [done|].
    by rewrite IH.
Qed.

Lemma find_char_Some c s i :
  find_char c s = Some i →
  s = take i s ++ c :: drop (S i) s ∧ c ∉ take i s.
Proof.
  revert i. induction s as [|a s IH]; intros i; simpl; [done|].
  destruct (Ascii.eqb_spec a c) as [->|Hne].
  - intros [= <-]. simpl. split; [done|]. apply not_elem_of_nil.
  - destruct (find_char c s) as [j|] eqn:E; simpl; [|done].
    intros [= <-]. destruct (IH j eq_refl) as [Hs Hpre]. simpl.
    split; [by rewrite <- Hs|]. apply not_elem_of_cons. done.
Qed.

Lemma cut_None c s : cut c s = None ↔ c ∉ s.
Proof.
  induction s as [|a s IH]; simpl.
  - split; [|done]. intros _. apply not_elem_of_nil.
  - rewrite not_elem_of_cons. destruct (Ascii.eqb_spec a c) as [->|Hne].
    + split; [done|]. by intros [? _].
    + destruct (cut c s) as [[b1 b2]|].
      * split; [done|]. intros [_ H]. by apply IH in H.
      * split; [|done]. intros _. split; [done|]. by apply IH.
Qed.

Lemma cut_app c before after :
  c ∉ before → cut c (before ++ c :: after) = Some (before, after).
Proof.
  induction before as [|a before IH]; simpl.
  - by rewrite Ascii.eqb_refl.
  - rewrite not_elem_of_cons. intros [Hne Hb].
    destruct (Ascii.eqb_spec a c) as [->|_]; [done|].
    by rewrite IH.
Qed.

Lemma cut_Some c s before after :
  cut c s = Some (before, after) → s = before ++ c :: after ∧ c ∉ before.
Proof.
  revert before. induction s as [|a s IH]; intros before; simpl; [done|].
  destruct (Ascii.eqb_spec a c) as [->|Hne].
  - intros [= <- <-]. split; [done|]. apply not_elem_of_nil.
  - destruct (cut c s) as [[b1 b2]|]; [|done].
    intros [= <- <-]. destruct (IH b1 eq_refl) as [-> Hb].
    split; [done|]. by apply not_elem_of_cons.
Qed.

Lemma rfind_char_None c s : rfind_char c s = None ↔ c ∉ s.
Proof.
  induction s as [|a s IH]; simpl.
  - split; [|done]. intros _. apply not_elem_of_nil.
  - rewrite not_elem_of_cons. destruct (rfind_char c s).
    + split; [done|]. intros [_ H]. by apply IH in H.
    + destruct (Ascii.eqb_spec a c) as [->|Hne].
      * split; [done|]. by intros [? _].
      * split; [|done]. intros _. split; [done|]. by apply IH.
Qed.

Lemma rfind_char_app c before after :
  c ∉ after → rfind_char c (before ++ c :: after) = Some (length before).
Proof.
  intros Hafter. induction before as [|a before IH]; simpl.
  - apply rfind_char_None in Hafter. rewrite Hafter.
    by rewrite Ascii.eqb_refl.
  - by rewrite IH.
Qed.

Lemma rfind_char_Some c s i :
  rfind_char c s = Some i →
  s = take i s ++ c :: drop (S i) s ∧ c ∉ drop (S i) s.
Proof.
  revert i. induction s as [|a s IH]; intros i; simpl; [done|].
  destruct (rfind_char c s) as [j|] eqn:E.
  - intros [= <-]. destruct (IH j eq_refl) as [Hs Hpost]. simpl.
    split; [by rewrite <- Hs|done].
  - destruct (Ascii.eqb_spec a c) as [->|Hne]; [|done].
    intros [= <-]. simpl. rewrite drop_0. split; [done|].
    by apply rfind_char_None.
Qed.

(** ** Facts about character classes *)

Definition is_delim (c : ascii) : bool :=
  Ascii.eqb c "/" || Ascii.eqb c "?" || Ascii.eqb c "#".

Definition not_delim (c : ascii) : bool := negb (is_delim c).

Definition safe (c : ascii) : bool := negb (is_unsafe c).

Ltac by_cases_on_char c :=
  destruct c as [[] [] [] [] [] [] [] []];
  let H := fresh in
  intros H; vm_compute in H; try discriminate H;
  repeat split; try discriminate; vm_compute; reflexivity.

Lemma alpha_facts c :
  is_alpha c = true →
  is_c0_or_space c = false ∧ is_alpha (lower_char c) = true.
Proof. by_cases_on_char c. Qed.

Lemma scheme_char_facts c :
  is_scheme_char c = true →
  c ≠ ":"%char ∧ safe c = true ∧ is_scheme_char (lower_char c) = true ∧
  lower_char (lower_char c) = lower_char c.
Proof. by_cases_on_char c. Qed.

Lemma delim_facts c :
  is_delim c = true → c = "/"%char ∨ c = "?"%char ∨ c = "#"%char.
Proof.
  unfold is_delim. rewrite !orb_true_iff, !Ascii.eqb_eq. tauto.
Qed.

(** ** [_splitnetloc] stops at the first of [/], [?] and [#] *)

Definition idx (c : ascii) (u : str) : nat :=
  match find_char c u with Some i => i | None => length u end.

Lemma idx_cons c a u :
  idx c (a :: u) = if Ascii.eqb a c then 0 else S (idx c u).
Proof.
  unfold idx. simpl. destruct (Ascii.eqb a c); [done|].
  by destruct (find_char c u).
Qed.

Lemma first_delim u :
  Nat.min (Nat.min (Nat.min (length u) (idx "/" u)) (idx "?" u)) (idx "#" u) =
  length (take_while not_delim u).
Proof.
  induction u as [|a u IH]; [done|].
  rewrite !idx_cons. cbn [take_while length].
  unfold not_delim at 1, is_delim.
  destruct (Ascii.eqb a "/"), (Ascii.eqb a "?"), (Ascii.eqb a "#");
    cbn [orb negb length]; lia.
Qed.

Lemma take_take_while p (u : str) :
  take (length (take_while p u)) u = take_while p u.
Proof.
  induction u as [|a u IH]; simpl; [done|].
  destruct (p a); simpl; [by rewrite IH|done].
Qed.

Lemma drop_take_while p (u : str) :
  drop (length (take_while p u)) u = drop_while p u.
Proof.
  induction u as [|a u IH]; simpl; [done|].
  destruct (p a); simpl; [by rewrite IH|done].
Qed.

Lemma find_from_app c pre u :
  find_from c (length pre) (pre ++ u) = (λ i, length pre + i) <$> find_char c u.
Proof. unfold find_from. by rewrite drop_app_length. Qed.

Lemma splitnetloc_spec pre u :
  splitnetloc (pre ++ u) (length pre) =
  (take_while not_delim u, drop_while not_delim u).
Proof.
  unfold splitnetloc.
  change (lit "/?#") with ["/"; "?"; "#"]%char. cbn [foldl].
  rewrite !find_from_app.
  match goal with
  | |- (take (?d - _) _, _) = _ =>
      assert (d = length pre + length (take_while not_delim u)) as ->
  end.
  { rewrite <- first_delim. unfold idx. rewrite length_app.
    destruct (find_char "/" u), (find_char "?" u), (find_char "#" u);
      simpl; lia. }
  rewrite drop_app_length.
  replace (length pre + length (take_while not_delim u) - length pre)
    with (length (take_while not_delim u)) by lia.
  rewrite take_take_while. f_equal.
  rewrite drop_app_ge by lia.
  replace (length pre + length (take_while not_delim u) - length pre)
    with (length (take_while not_delim u)) by lia.
  apply drop_take_while.
Qed.

Lemma take_while_all p (u v : str) :
  forallb p u = true → (match v with [] => true | c :: _ => negb (p c) end) = true →
  take_while p (u ++ v) = u ∧ drop_while p (u ++ v) = v.
Proof.
  intros Hu Hv. induction u as [|a u IH]; simpl in *.
  - destruct v as [|c v]; [done|]. simpl.
    apply negb_true_iff in Hv. by rewrite Hv.
  - apply andb_true_iff in Hu as [Ha Hu]. rewrite Ha.
    destruct (IH Hu) as [-> ->]. done.
Qed.

Lemma take_while_forallb p (u : str) : forallb p (take_while p u) = true.
Proof.
  induction u as [|a u IH]; simpl; [done|].
  destruct (p a) eqn:E; simpl; [by rewrite E|done].
Qed.

Lemma drop_while_head_false p (u : str) :
  (match drop_while p u with [] => true | c :: _ => negb (p c) end) = true.
Proof.
  induction u as [|a u IH]; simpl; [done|].
  destruct (p a) eqn:E; [done|]. simpl. by rewrite E.
Qed.

(** ** [_splitparams] finds nothing to split in its own path *)

Lemma splitparams_slash a b :
  "/"%char ∉ b →
  splitparams (a ++ "/"%char :: b) =
  match find_char ";" b with
  | Some j => (a ++ "/"%char :: take j b, drop (S j) b)
  | None => (a ++ "/"%char :: b, [])
  end.
Proof.
  intros Hb. unfold splitparams.
  rewrite (rfind_char_app _ _ _ Hb), find_from_app.
  cbn [find_char]. change (Ascii.eqb "/" ";") with false. cbn iota.
  destruct (find_char ";" b) as [j|]; [|done].
  cbn [fmap option_fmap option_map].
  rewrite take_app_ge, drop_app_ge by lia.
  replace (length a + S j - length a) with (S j) by lia.
  replace (S (length a + S j) - length a) with (S (S j)) by lia.
  done.
Qed.

Lemma splitparams_no_slash s :
  "/"%char ∉ s →
  splitparams s =
  match find_char ";" s with
  | Some i => (take i s, drop (S i) s)
  | None => (s, [])
  end.
Proof.
  intros Hs. unfold splitparams.
  apply rfind_char_None in Hs. by rewrite Hs.
Qed.

Lemma not_elem_of_take {A} (x : A) n (l : list A) : x ∉ l → x ∉ take n l.
Proof. intros H Hin. apply H. by apply (subseteq_take n l). Qed.

Lemma splitparams_prefix s : ∃ rest, s = fst (splitparams s) ++ rest.
Proof.
  unfold splitparams.
  destruct (match rfind_char "/" s with
            | Some slash => find_from ";" slash s
            | None => find_char ";" s
            end) as [i|]; simpl.
  - exists (drop i s). by rewrite take_drop.
  - exists []. by rewrite app_nil_r.
Qed.

Lemma splitparams_idem s :
  splitparams (fst (splitparams s)) = (fst (splitparams s), []).
Proof.
  destruct (rfind_char "/" s) as [i|] eqn:Hr.
  - apply rfind_char_Some in Hr as [Hs Hb].
    rewrite Hs at 1 2. rewrite (splitparams_slash _ _ Hb).
    destruct (find_char ";" (drop (S i) s)) as [j|] eqn:Hf; simpl.
    + apply find_char_Some in Hf as [_ Hsemi].
      rewrite splitparams_slash by (by apply not_elem_of_take).
      apply find_char_None in Hsemi. by rewrite Hsemi.
    + rewrite (splitparams_slash _ _ Hb). by rewrite Hf.
  - apply rfind_char_None in Hr.
    rewrite (splitparams_no_slash _ Hr).
    destruct (find_char ";" s) as [i|] eqn:Hf; simpl.
    + apply find_char_Some in Hf as [_ Hsemi].
      rewrite splitparams_no_slash by (by apply not_elem_of_take).
      apply find_char_None in Hsemi. by rewrite Hsemi.
    + rewrite (splitparams_no_slash _ Hr). by rewrite Hf.
Qed.

Section UrlParse.

(** The netloc checks that consult tables outside [urllib]:
    [_check_bracketed_netloc] ([ipaddress]) for a netloc holding both
    brackets, and the NFKC test of [_checknetloc] ([unicodedata]) for a
    netloc that is not ASCII.  [true] means that no [ValueError] is raised. *)
Variable table_checks : str → bool.

Definition netloc_ok (netloc : str) : bool :=
  let opening := has_char "[" netloc in
  let closing := has_char "]" netloc in
  if (opening && negb closing) || (closing && negb opening) then false
  else if (opening && closing) || negb (is_ascii_str netloc)
  then table_checks netloc
  else true.

Definition ValueError : exn := Exception "ValueError".

(** The steps of [urlsplit], in the order of the source. *)

(** [url.lstrip(_WHATWG_C0_CONTROL_OR_SPACE)], then the three
    [url.replace(b, "")]. *)
Definition clean (url : str) : str :=
  List.filter (λ c, negb (is_unsafe c)) (drop_while is_c0_or_space url).

(** [i = url.find(':')] and the scheme test: [i > 0], an ASCII letter
    first, only [scheme_chars] before the colon. *)
Definition split_scheme (url : str) : str * str :=
  match find_char ":" url, url with
  | Some (S i), c :: _ =>
      if is_alpha c && forallb is_scheme_char (take (S i) url)
      then (lower (take (S i) url), drop (S (S i)) url)
      else ([], url)
  | _, _ => ([], url)
  end.

(** [if url[:2] == '//': netloc, url = _splitnetloc(url, 2)] *)
Definition split_authority (url : str) : str * str :=
  if bool_decide (take 2 url = lit "//") then splitnetloc url 2
  else ([], url).

(** [if c in url: url, rest = url.split(c, 1)] *)
Definition split_at (c : ascii) (url : str) : str * str :=
  match cut c url with
  | Some (before, after) => (before, after)
  | None => (url, [])
  end.

(** [urlsplit(url)]: scheme, netloc, path, query, fragment. *)
Definition urlsplit (url : str) : result (str * str * str * str * str) :=
  let '(scheme, url) := split_scheme (clean url) in
  let '(netloc, url) := split_authority url in
  let '(url, fragment) := split_at "#" url in
  let '(url, query) := split_at "?" url in
  if netloc_ok netloc then Ok (scheme, netloc, url, query, fragment)
  else Raise ValueError.

Definition urlparse (url : str) : result ParseResult :=
  match urlsplit url with
  | Ok (scheme, netloc, url, query, fragment) =>
      let '(url, params) :=
        if bool_decide (scheme ∈ uses_params) && has_char ";" url
        then splitparams url else (url, []) in
      Ok (mkParse scheme netloc url params query fragment)
  | Raise e => Raise e
  end.

(** ** [canonicalize_url] *)

Definition tracking_params : list str :=
  lit <$> ["utm_source"; "utm_medium"; "utm_campaign"; "utm_term";
           "utm_content"; "fbclid"; "gclid"; "wt_mc"; "wt_zmc"; "_ga";
           "_gid"]%string.

(** [param.split('=')[0]] *)
Definition key_of (param : str) : str := take_while (λ c, negb (Ascii.eqb c "=")) param.

(** The loop over [parsed.query.split('&')], carrying [params]. *)
Fixpoint params_loop (pieces : list str) (params : list str) : list str :=
  match pieces with
  | [] => params
  | param :: rest =>
      if has_char "=" param
      then if bool_decide (key_of param ∈ tracking_params)
           then params_loop rest params
           else params_loop rest (params ++ [param])
      else params_loop rest params
  end.

Definition canonical_query (parsed_query : str) : str :=
  match parsed_query with
  | [] => []
  | _ :: _ =>
      match params_loop (split "&" parsed_query) [] with
      | [] => []
      | params => join (lit "&") params
      end
  end.

Definition canonicalize_url (url : str) : result str :=
  match urlparse url with
  | Ok parsed =>
      let query := canonical_query (query parsed) in
      Ok (scheme parsed ++ lit "://" ++ netloc parsed ++ path parsed ++
          match query with
          | [] => []
          | _ :: _ => lit "?" ++ query
          end)
  | Raise e => Raise e
  end.

(** ** The steps of [urlsplit], taken apart and put together *)

Lemma forallb_elem (f : ascii → bool) (l : str) :
  forallb f l = true ↔ ∀ x, x ∈ l → f x = true.
Proof.
  rewrite forallb_forall. split; intros H x Hx; apply H;
    by apply list_elem_of_In.
Qed.

Lemma forallb_subseteq (f : ascii → bool) (l l' : str) :
  forallb f l = true → l' ⊆ l → forallb f l' = true.
Proof.
  rewrite !forallb_elem. intros H Hsub x Hx. by apply H, Hsub.
Qed.

Lemma filter_fixed (f : ascii → bool) (l : str) :
  forallb f l = true → List.filter f l = l.
Proof.
  induction l as [|a l IH]; simpl; [done|].
  intros [Ha Hl]%andb_true_iff. rewrite Ha. by rewrite IH.
Qed.

Lemma forallb_filter (f : ascii → bool) (l : str) :
  forallb f (List.filter f l) = true.
Proof.
  induction l as [|a l IH]; simpl; [done|].
  destruct (f a) eqn:E; simpl; [by rewrite E|done].
Qed.

(** A scheme as [split_scheme] returns it. *)
Definition scheme_ok (sc : str) : Prop :=
  (match sc with c :: _ => is_alpha c | [] => false end) = true ∧
  forallb is_scheme_char sc = true ∧ lower sc = sc.

Lemma lower_scheme s :
  forallb is_scheme_char s = true →
  forallb is_scheme_char (lower s) = true ∧ lower (lower s) = lower s.
Proof.
  induction s as [|a s IH]; simpl; [done|].
  intros [Ha Hs]%andb_true_iff.
  destruct (scheme_char_facts a Ha) as (_ & _ & Hl & Hi).
  destruct (IH Hs) as [IH1 IH2]. unfold lower in *.
  rewrite Hl, IH1, Hi, IH2. done.
Qed.

Lemma scheme_no_colon s :
  forallb is_scheme_char s = true → ":"%char ∉ s.
Proof.
  rewrite forallb_elem. intros H Hin.
  by destruct (scheme_char_facts _ (H _ Hin)) as [Hne _].
Qed.

Lemma split_scheme_parts url sc rest :
  split_scheme url = (sc, rest) → sc ≠ [] → scheme_ok sc ∧ rest ⊆ url.
Proof.
  unfold split_scheme.
  destruct (find_char ":" url) as [[|i]|], url as [|c u];
    try (intros [= <- <-]; done).
  destruct (is_alpha c && forallb is_scheme_char (take (S i) (c :: u)))
    eqn:E; [|intros [= <- <-]; done].
  apply andb_true_iff in E as [Hc Hall].
  intros [= <- <-] _. split; [|apply (subseteq_drop (S (S i)) (c :: u))].
  destruct (lower_scheme _ Hall) as [H1 H2].
  split; [|done]. simpl. by destruct (alpha_facts c Hc).
Qed.

Lemma split_scheme_compose sc rest :
  scheme_ok sc → split_scheme (sc ++ ":"%char :: rest) = (sc, rest).
Proof.
  intros (Hhead & Hall & Hlow). unfold split_scheme.
  rewrite (find_char_app _ _ _ (scheme_no_colon _ Hall)).
  destruct sc as [|c cs]; [done|].
  cbn [length app firstn skipn].
  rewrite take_app_length, Hhead, Hall, Hlow. cbn [andb].
  f_equal.
  replace (S (length cs)) with (length cs + 1) by lia.
  by rewrite <- drop_drop, drop_app_length.
Qed.

Lemma clean_safe url : forallb safe (clean url) = true.
Proof. apply forallb_filter. Qed.

Lemma clean_fixed url :
  (match url with c :: _ => negb (is_c0_or_space c) | [] => true end) = true →
  forallb safe url = true → clean url = url.
Proof.
  intros Hhead Hsafe. unfold clean.
  replace (drop_while is_c0_or_space url) with url.
  - by apply filter_fixed.
  - destruct url as [|c u]; [done|]. simpl.
    apply negb_true_iff in Hhead. by rewrite Hhead.
Qed.

(** What follows a netloc: nothing, or one of [/], [?], [#]. *)
Definition starts_delim (rest : str) : bool :=
  match rest with [] => true | c :: _ => is_delim c end.

Lemma split_authority_parts url nl rest :
  split_authority url = (nl, rest) → nl ≠ [] →
  forallb not_delim nl = true ∧ starts_delim rest = true ∧
  nl ⊆ url ∧ rest ⊆ url.
Proof.
  unfold split_authority. case_bool_decide as H2; [|by intros [= <- <-]].
  rewrite <- (take_drop 2 url) at 1. rewrite H2.
  change 2 with (length (lit "//")) at 2. rewrite splitnetloc_spec.
  intros [= <- <-] _.
  split; [apply take_while_forallb|].
  split.
  { pose proof (drop_while_head_false not_delim (drop 2 url)) as H.
    unfold starts_delim. destruct (drop_while not_delim (drop 2 url));
      [done|]. unfold not_delim in H. by rewrite negb_involutive in H. }
  split.
  - rewrite <- take_take_while.
    etrans; [apply subseteq_take|apply subseteq_drop].
  - rewrite <- drop_take_while.
    etrans; [apply subseteq_drop|apply subseteq_drop].
Qed.

Lemma split_authority_compose nl rest :
  forallb not_delim nl = true → starts_delim rest = true →
  split_authority (lit "//" ++ nl ++ rest) = (nl, rest).
Proof.
  intros Hnl Hrest. unfold split_authority.
  rewrite bool_decide_eq_true_2 by done.
  change 2 with (length (lit "//")). rewrite splitnetloc_spec.
  destruct (take_while_all not_delim nl rest Hnl) as [-> ->]; [|done].
  unfold starts_delim in Hrest. destruct rest as [|c rest]; [done|].
  unfold not_delim. by rewrite negb_involutive.
Qed.

Lemma split_at_parts c url before after :
  split_at c url = (before, after) →
  (c ∉ before) ∧ (before ⊆ url) ∧ (after ⊆ url) ∧
  ∃ tail, url = before ++ tail.
Proof.
  unfold split_at. destruct (cut c url) as [[b a]|] eqn:E.
  - intros [= <- <-]. apply cut_Some in E as [-> Hb].
    split; [done|]. split; [set_solver|]. split; [set_solver|]. eauto.
  - intros [= <- <-]. apply cut_None in E.
    split; [done|]. split; [done|]. split; [set_solver|].
    exists []. by rewrite app_nil_r.
Qed.

Lemma split_at_none c url : c ∉ url → split_at c url = (url, []).
Proof. intros H. unfold split_at. apply cut_None in H. by rewrite H. Qed.

Lemma split_at_app c before after :
  c ∉ before → split_at c (before ++ c :: after) = (before, after).
Proof. intros H. unfold split_at. by rewrite cut_app. Qed.

(** Scheme, netloc and path as [urlsplit] returns them when scheme and
    netloc are not empty. *)
Definition parts_ok (sc nl p : str) : Prop :=
  scheme_ok sc ∧
  forallb not_delim nl = true ∧ netloc_ok nl = true ∧
  forallb safe nl = true ∧
  (match p with [] => true | c :: _ => Ascii.eqb c "/" end) = true ∧
  ("?"%char ∉ p) ∧ ("#"%char ∉ p) ∧ forallb safe p = true.

Definition query_ok (q : str) : Prop :=
  ("#"%char ∉ q) ∧ forallb safe q = true.

Lemma urlsplit_parts url sc nl p q f :
  urlsplit url = Ok (sc, nl, p, q, f) → sc ≠ [] → nl ≠ [] →
  parts_ok sc nl p ∧ query_ok q.
Proof.
  unfold urlsplit.
  destruct (split_scheme (clean url)) as [sc' u1] eqn:E1.
  destruct (split_authority u1) as [nl' u2] eqn:E2.
  destruct (split_at "#" u2) as [u3 f'] eqn:E3.
  destruct (split_at "?" u3) as [p' q'] eqn:E4.
  destruct (netloc_ok nl') eqn:Hok; [|done].
  intros [= <- <- <- <- <-] Hsc Hnl.
  destruct (split_scheme_parts _ _ _ E1 Hsc) as [Hscheme Hu1].
  destruct (split_authority_parts _ _ _ E2 Hnl) as (Hnd & Hstart & Hnlsub & Hu2).
  destruct (split_at_parts _ _ _ _ E3) as (Hf3 & Hu3 & _ & [t3 Ht3]).
  destruct (split_at_parts _ _ _ _ E4) as (Hq & Hp & Hqsub & [t4 Ht4]).
  pose proof (clean_safe url) as Hsafe.
  assert (Hsafe2 : forallb safe u2 = true).
  { eapply forallb_subseteq; [exact Hsafe|]. by etrans. }
  split; [|split].
  - split; [done|]. split; [done|]. split; [done|].
    split. { eapply forallb_subseteq; [exact Hsafe|]. by etrans. }
    split.
    { subst u3 u2. unfold starts_delim in Hstart.
      destruct p' as [|c p'']; [done|]. simpl in Hstart.
      apply delim_facts in Hstart as [-> | [-> | ->] ]; [done| |].
      - exfalso. apply Hq. apply list_elem_of_here.
      - exfalso. apply Hf3. apply list_elem_of_here. }
    split; [done|].
    split. { intros Hin. apply Hf3. by apply Hp. }
    eapply forallb_subseteq; [exact Hsafe2|]. by etrans.
  - intros Hin. apply Hf3. by apply Hqsub.
  - eapply forallb_subseteq; [exact Hsafe2|]. by etrans.
Qed.

(** [(f"?{query}" if query else "")] *)
Definition query_suffix (q : str) : str :=
  match q with
  | [] => []
  | _ :: _ => lit "?" ++ q
  end.

Lemma scheme_safe sc : forallb is_scheme_char sc = true → forallb safe sc = true.
Proof.
  rewrite !forallb_elem. intros H x Hx.
  by destruct (scheme_char_facts x (H x Hx)) as (_ & ? & _).
Qed.

Lemma urlsplit_compose sc nl p q :
  parts_ok sc nl p → query_ok q →
  urlsplit (sc ++ lit "://" ++ nl ++ p ++ query_suffix q) =
  Ok (sc, nl, p, q, []).
Proof.
  intros (Hsc & Hnd & Hok & Hnls & Hhead & Hpq & Hpf & Hps) [Hqf Hqs].
  pose proof Hsc as (Hc & Hall & Hlow).
  assert (Hsuffix_safe : forallb safe (query_suffix q) = true).
  { destruct q as [|c q]; [done|]. unfold query_suffix.
    change (lit "?" ++ c :: q) with ("?"%char :: c :: q).
    cbn [forallb]. change (safe "?") with true. exact Hqs. }
  assert (Hsuffix_f : "#"%char ∉ query_suffix q).
  { destruct q as [|c q]; [apply not_elem_of_nil|]. unfold query_suffix.
    change (lit "?" ++ c :: q) with ("?"%char :: c :: q).
    apply not_elem_of_cons. split; [discriminate|done]. }
  assert (Hstart : starts_delim (p ++ query_suffix q) = true).
  { destruct p as [|c p'].
    - by destruct q.
    - simpl. apply Ascii.eqb_eq in Hhead as ->. reflexivity. }
  unfold urlsplit.
  rewrite clean_fixed.
  - change (lit "://" ++ nl ++ p ++ query_suffix q)
      with (":"%char :: (lit "//" ++ nl ++ p ++ query_suffix q)).
    rewrite (split_scheme_compose _ _ Hsc). cbv beta iota.
    rewrite (split_authority_compose nl (p ++ query_suffix q) Hnd Hstart).
    cbv beta iota.
    rewrite split_at_none.
    2: { apply not_elem_of_app. done. }
    cbv beta iota.
    destruct q as [|c q].
    + simpl. rewrite app_nil_r, split_at_none by done.
      cbv beta iota. by rewrite Hok.
    + unfold query_suffix.
      change (lit "?" ++ c :: q) with ("?"%char :: c :: q).
      rewrite split_at_app by done. cbv beta iota. by rewrite Hok.
  - destruct sc as [|c cs]; [done|]. simpl.
    by destruct (alpha_facts c Hc) as [-> _].
  - rewrite !forallb_app. rewrite (scheme_safe _ Hall), Hnls, Hps, Hsuffix_safe.
    reflexivity.
Qed.

(** ** The query filter *)

(** A parameter is kept when it has a [=] and its key is not a tracking
    key. *)
Definition kept (param : str) : bool :=
  has_char "=" param && negb (bool_decide (key_of param ∈ tracking_params)).

Lemma params_loop_spec pieces params :
  params_loop pieces params = params ++ List.filter kept pieces.
Proof.
  revert params. induction pieces as [|param rest IH]; intros params; simpl.
  - by rewrite app_nil_r.
  - unfold kept at 1. destruct (has_char "=" param); simpl; [|apply IH].
    destruct (bool_decide (key_of param ∈ tracking_params)); simpl;
      [apply IH|].
    rewrite IH. by rewrite <- app_assoc.
Qed.

Lemma canonical_query_spec q :
  canonical_query q =
  match List.filter kept (split "&" q) with
  | [] => []
  | params => join (lit "&") params
  end.
Proof.
  unfold canonical_query. destruct q as [|c q]; [done|].
  by rewrite params_loop_spec.
Qed.

Lemma split_nonempty c s : split c s ≠ [].
Proof.
  induction s as [|a s IH]; simpl; [done|].
  destruct (Ascii.eqb a c); [done|]. by destruct (split c s).
Qed.

Lemma split_pieces c s :
  Forall (λ piece, (c ∉ piece) ∧ (piece ⊆ s)) (split c s).
Proof.
  induction s as [|a s IH]; simpl.
  - constructor; [|constructor]. split; [apply not_elem_of_nil|done].
  - destruct (Ascii.eqb_spec a c) as [->|Hne].
    + constructor.
      * split; [apply not_elem_of_nil|]. intros x Hx.
        by apply elem_of_nil in Hx.
      * eapply Forall_impl; [exact IH|]. intros piece [? Hsub].
        split; [done|]. intros x Hx. apply list_elem_of_further. by apply Hsub.
    + pose proof (split_nonempty c s).
      destruct (split c s) as [|p ps]; [done|].
      apply Forall_cons in IH as [[Hp Hsub] IH].
      constructor.
      * split; [by apply not_elem_of_cons|].
        intros x Hx. apply elem_of_cons in Hx as [->|Hx].
        -- apply list_elem_of_here.
        -- apply list_elem_of_further. by apply Hsub.
      * eapply Forall_impl; [exact IH|]. intros piece [? Hsub'].
        split; [done|]. intros x Hx. apply list_elem_of_further. by apply Hsub'.
Qed.

Lemma split_join c parts :
  parts ≠ [] → Forall (λ piece, c ∉ piece) parts →
  split c (join [c] parts) = parts.
Proof.
  induction parts as [|p ps IH]; [done|]. intros _ Hall.
  apply Forall_cons in Hall as [Hp Hps].
  assert (Hone : ∀ tail, split c tail ≠ [] →
            split c (p ++ tail) =
            match split c tail with
            | q :: qs => (p ++ q) :: qs
            | [] => [p]
            end).
  { intros tail Htail. induction p as [|a p IHp]; simpl.
    - by destruct (split c tail).
    - apply not_elem_of_cons in Hp as [Hne Hp].
      destruct (Ascii.eqb_spec a c) as [->|_]; [done|].
      rewrite (IHp Hp). by destruct (split c tail). }
  destruct ps as [|p' ps'].
  - simpl. rewrite <- (app_nil_r p) at 1.
    rewrite Hone by done. simpl. by rewrite app_nil_r.
  - change (join [c] (p :: p' :: ps')) with (p ++ c :: join [c] (p' :: ps')).
    rewrite Hone by apply split_nonempty.
    cbn [split]. rewrite Ascii.eqb_refl. rewrite IH by done.
    by rewrite app_nil_r.
Qed.

Lemma filter_kept_idem (l : list str) :
  List.filter kept (List.filter kept l) = List.filter kept l.
Proof.
  induction l as [|p l IH]; simpl; [done|].
  destruct (kept p) eqn:E; simpl; [by rewrite E, IH|done].
Qed.

Lemma filter_kept_Forall (P : str → Prop) (l : list str) :
  Forall P l → Forall P (List.filter kept l).
Proof.
  induction 1 as [|p l Hp Hl IH]; simpl; [constructor|].
  destruct (kept p); [by constructor|done].
Qed.

(** The canonical query is a fixed point of the filter. *)
Lemma canonical_query_idem q :
  canonical_query (canonical_query q) = canonical_query q.
Proof.
  rewrite (canonical_query_spec q).
  destruct (List.filter kept (split "&" q)) as [|p ps] eqn:Hk; [done|].
  rewrite canonical_query_spec.
  change (lit "&") with ["&"%char].
  rewrite split_join.
  - by rewrite <- Hk, filter_kept_idem, Hk.
  - done.
  - rewrite <- Hk. apply filter_kept_Forall.
    eapply Forall_impl; [apply split_pieces|]. by intros piece [? _].
Qed.

Lemma filter_kept_head l p ps : List.filter kept l = p :: ps → kept p = true.
Proof.
  induction l as [|a l IH]; simpl; [done|].
  destruct (kept a) eqn:E; [|done]. by intros [= <- _].
Qed.

Lemma join_nonempty sep p ps : p ≠ [] → join sep (p :: ps) ≠ [].
Proof. destruct p; [done|]. by destruct ps. Qed.

(** C5, as the code has it.  For a URL that parses, the result is
    scheme, [://], netloc and path, followed by [?] and the kept parameters
    joined by [&] when there are any; a parameter of the query is kept,
    unchanged and in its place, exactly when it has a [=] and its key is not
    one of the eleven tracking keys.  The example of the specification
    holds. *)
Theorem canonicalize_url_kept url parsed :
  urlparse url = Ok parsed →
  let params := List.filter kept (split "&" (query parsed)) in
  canonicalize_url url =
    Ok (scheme parsed ++ lit "://" ++ netloc parsed ++ path parsed ++
        match params with
        | [] => []
        | _ :: _ => lit "?" ++ join (lit "&") params
        end) ∧
  canonicalize_url (lit "https://example.com/article?utm_source=x") =
    Ok (lit "https://example.com/article").
Proof.
  intros Hparse params. split; [|vm_compute; reflexivity].
  unfold canonicalize_url. rewrite Hparse, canonical_query_spec.
  fold params. destruct params as [|p ps] eqn:Hk; [done|].
  pose proof (filter_kept_head _ _ _ Hk) as Hp.
  assert (p ≠ []) as Hne.
  { intros ->. done. }
  pose proof (join_nonempty (lit "&") p ps Hne).
  by destruct (join (lit "&") (p :: ps)).
Qed.

(** ** A canonical URL parses into its own parts *)

Lemma join_elem x sep parts :
  x ∈ join sep parts → x ∈ sep ∨ ∃ p, p ∈ parts ∧ x ∈ p.
Proof.
  induction parts as [|p ps IH]; [by intros ?%elem_of_nil|].
  destruct ps as [|p' ps'].
  - simpl. intros Hx. right. exists p. split; [apply list_elem_of_here|done].
  - change (join sep (p :: p' :: ps')) with (p ++ sep ++ join sep (p' :: ps')).
    rewrite !elem_of_app. intros [Hx|[Hx|Hx]].
    + right. exists p. split; [apply list_elem_of_here|done].
    + by left.
    + destruct (IH Hx) as [?|(piece & Hin & Hp)]; [by left|].
      right. exists piece. split; [by apply list_elem_of_further|done].
Qed.

Lemma canonical_query_chars q x :
  x ∈ canonical_query q → x ∈ q ∨ x = "&"%char.
Proof.
  rewrite canonical_query_spec.
  destruct (List.filter kept (split "&" q)) as [|p ps] eqn:Hk;
    [by intros ?%elem_of_nil|].
  intros [Hx|(piece & Hin & Hx)]%join_elem.
  - right. by apply list_elem_of_singleton in Hx.
  - left. rewrite <- Hk in Hin.
    apply list_elem_of_In, List.filter_In in Hin as [Hin _].
    apply list_elem_of_In in Hin.
    pose proof (split_pieces "&" q) as Hall.
    rewrite Forall_forall in Hall. destruct (Hall _ Hin) as [_ Hsub].
    by apply Hsub.
Qed.

Lemma canonical_query_ok q : query_ok q → query_ok (canonical_query q).
Proof.
  intros [Hf Hs]. split.
  - intros [Hin|Heq]%canonical_query_chars; [done|discriminate].
  - apply forallb_elem. intros x [Hin| ->]%canonical_query_chars.
    + rewrite forallb_elem in Hs. by apply Hs.
    + reflexivity.
Qed.

Lemma parts_ok_prefix sc nl p p' rest :
  parts_ok sc nl p → p = p' ++ rest → parts_ok sc nl p'.
Proof.
  intros (Hsc & Hnd & Hok & Hnls & Hhead & Hpq & Hpf & Hps) ->.
  apply not_elem_of_app in Hpq as [Hpq _].
  apply not_elem_of_app in Hpf as [Hpf _].
  rewrite forallb_app in Hps. apply andb_true_iff in Hps as [Hps _].
  split; [done|]. repeat split; try done. by destruct p'.
Qed.

(** C10. For a URL that parses with a non-empty scheme and a non-empty
    netloc, the canonical URL is a fixed point: canonicalising it again
    returns it unchanged. *)
Theorem canonicalize_url_idempotent url parsed canonical :
  urlparse url = Ok parsed →
  scheme parsed ≠ [] → netloc parsed ≠ [] →
  canonicalize_url url = Ok canonical →
  canonicalize_url canonical = Ok canonical.
Proof.
  intros Hparse Hsc Hnl Hcanon.
  unfold canonicalize_url in Hcanon. rewrite Hparse in Hcanon.
  injection Hcanon as <-.
  unfold urlparse in Hparse.
  destruct (urlsplit url) as [[[[[sc nl] p] q] f]|] eqn:Hsplit; [|done].
  destruct (if bool_decide (sc ∈ uses_params) && has_char ";" p
            then splitparams p else (p, [])) as [p' prm] eqn:Hprm.
  injection Hparse as <-. simpl in Hsc, Hnl. cbn [scheme netloc path query].
  destruct (urlsplit_parts _ _ _ _ _ _ Hsplit Hsc Hnl) as [Hparts Hq].
  assert (Hprefix : ∃ rest, p = p' ++ rest).
  { destruct (bool_decide (sc ∈ uses_params) && has_char ";" p).
    - destruct (splitparams_prefix p) as [rest Hrest].
      rewrite Hprm in Hrest. by exists rest.
    - injection Hprm as <- <-. exists []. by rewrite app_nil_r. }
  destruct Hprefix as [rest Hrest].
  pose proof (parts_ok_prefix _ _ _ _ _ Hparts Hrest) as Hparts'.
  pose proof (canonical_query_ok _ Hq) as Hq'.
  change (canonicalize_url
            (sc ++ lit "://" ++ nl ++ p' ++ query_suffix (canonical_query q)) =
          Ok (sc ++ lit "://" ++ nl ++ p' ++ query_suffix (canonical_query q))).
  unfold canonicalize_url, urlparse.
  rewrite (urlsplit_compose _ _ _ _ Hparts' Hq').
  assert (Hagain :
    (if bool_decide (sc ∈ uses_params) && has_char ";" p'
     then splitparams p' else (p', [])) = (p', [])).
  { destruct (bool_decide (sc ∈ uses_params)) eqn:Hu; cbn [andb]; [|done].
    cbn [andb] in Hprm. destruct (has_char ";" p) eqn:Hsemi.
    - assert (p' = fst (splitparams p)) as -> by (by rewrite Hprm).
      rewrite splitparams_idem.
      by destruct (has_char ";" (fst (splitparams p))).
    - injection Hprm as <- <-. by rewrite Hsemi. }
  rewrite Hagain. cbn [scheme netloc path query].
  by rewrite canonical_query_idem.
Qed.

End UrlParse.

(** ** The wording of the specification *)

(** The denylist of the specification: every key that begins with [utm_],
    and six further keys. *)
Definition denylisted (key : str) : bool :=
  starts_with (lit "utm_") key ||
  bool_decide (key ∈ lit <$> ["fbclid"; "gclid"; "wt_mc"; "wt_zmc"; "_ga";
                              "_gid"]%string).

(** Scheme, host, path and the remaining query, otherwise unchanged. *)
Definition as_specified (parsed : ParseResult) : str :=
  let remaining :=
    List.filter (λ param, negb (denylisted (key_of param)))
                (split "&" (query parsed)) in
  scheme parsed ++ lit "://" ++ netloc parsed ++ path parsed ++
  match join (lit "&") remaining with
  | [] => []
  | q => lit "?" ++ q
  end.

Definition no_table_checks (netloc : str) : bool := true.

(** A parameter without [=] is not in the denylist, yet it is removed. *)
Lemma canonicalize_url_not_as_specified :
  ∃ url parsed,
    url = lit "https://example.com/a?flag&x=1" ∧
    urlparse no_table_checks url = Ok parsed ∧
    as_specified parsed = lit "https://example.com/a?flag&x=1" ∧
    canonicalize_url no_table_checks url = Ok (lit "https://example.com/a?x=1") ∧
    canonicalize_url no_table_checks url ≠ Ok (as_specified parsed).
Proof.
  eexists _, _. split; [reflexivity|].
  split; [vm_compute; reflexivity|].
  split; [vm_compute; reflexivity|].
  split; [vm_compute; reflexivity|].
  vm_compute. discriminate.
Qed.

(** A key that begins with [utm_] but is not one of the five listed is
    kept. *)
Example canonicalize_url_utm_id :
  canonicalize_url no_table_checks (lit "https://example.com/a?utm_id=7") =
  Ok (lit "https://example.com/a?utm_id=7").
Proof. vm_compute. reflexivity. Qed.

Lemma canonicalize_url_kept_witness :
  canonicalize_url no_table_checks (lit "https://example.com/a?flag&x=1") =
  Ok (lit "https://example.com/a?x=1").
Proof.
  destruct (canonicalize_url_kept no_table_checks
              (lit "https://example.com/a?flag&x=1")
              (mkParse (lit "https") (lit "example.com") (lit "/a") []
                       (lit "flag&x=1") [])) as [H _].
  - vm_compute. reflexivity.
  - exact H.
Defined.

Example canonicalize_url_sample :
  canonicalize_url no_table_checks
    (lit "HTTPS://example.com/a;v=1?x=1&utm_source=n&y=2#top") =
  Ok (lit "https://example.com/a?x=1&y=2").
Proof. vm_compute. reflexivity. Qed.

Lemma canonicalize_url_idempotent_witness :
  canonicalize_url no_table_checks (lit "https://example.com/a?x=1&y=2") =
  Ok (lit "https://example.com/a?x=1&y=2").
Proof.
  apply (canonicalize_url_idempotent no_table_checks
           (lit "HTTPS://example.com/a;v=1?x=1&utm_source=n&y=2#top")
           (mkParse (lit "https") (lit "example.com") (lit "/a") (lit "v=1")
                    (lit "x=1&utm_source=n&y=2") (lit "top"))).
  - vm_compute. reflexivity.
  - discriminate.
  - discriminate.
  - vm_compute. reflexivity.
Defined.

End Extract.

(** * The Understanding stage ([apps/worker-understanding/tasks.py]) *)

Module Understanding.

(** The classification: the JSON object the model returns. *)
Abbreviation Labels := (gmap string str).

(** [{"doc_type": "article", "language": "en", "audience": "general"}] *)
Definition default_labels : Labels :=
  {[ "doc_type"%string := lit "article";
     "language"%string := lit "en";
     "audience"%string := lit "general" ]}.

(** A binary64 number, by its bit pattern; [0.0] is 0.  The stage stores
    these numbers and never computes with them. *)
Definition float64 : Type := Z.

(** The document handed over by Intake: the keys this stage and the next
    read; every key is carried along by [**doc]. *)
Record Document := mkDocument {
  url : str;
  title : option str;
  text : str
}.

(** The payload for the Editorial stage. *)
Record Enriched := mkEnriched {
  doc : Document;
  labels : Labels;
  entities : list Seven011.Entity;
  edges : list Seven011.Edge;
  chunks : list str;
  vectors : list (list float64)
}.

(** What the task returns. *)
Record Outcome := mkOutcome {
  success : bool;
  out_labels : Labels;
  entities_count : nat;
  edges_count : nat;
  chunks_count : nat
}.

(** A task on the queue: task name, queue name, payload. *)
Definition Task (P : Type) : Type := string * string * P.

(** [[0.0] * 1536] *)
Definition zero_vector : list float64 := replicate 1536 0%Z.

Section Stage.

(** The collaborators, each as the answer (or the exception) of its call. *)
Variable classify_json : str → result Labels.
Variable ner_link :
  str → Labels → result (list Seven011.Entity * list Seven011.Edge).

(** The call [chunk_by_headings(doc["text"], keep_headings, target_tokens)]
    as the stage sees it. *)
Variable chunk_by_headings : str → bool → Z → result (list str).

(** [openai.OpenAI(api_key=...)] and [client.embeddings.create(...)] with
    the list comprehension over its response. *)
Variable openai_client : result unit.
Variable embeddings_create : list str → result (list (list float64)).

(** The message broker behind [celery.send_task]. *)
Variable broker : result unit.

(** [embed_chunks] ([libs/common/embed.py]) *)
Definition embed_chunks (chunks : list str) : result (list (list float64)) :=
  match chunks with
  | [] => Ok []
  | _ :: _ =>
      match openai_client with
      | Raise e => Raise e
      | Ok _ =>
          match embeddings_create chunks with
          | Ok embeddings => Ok embeddings
          | Raise _ => Ok ((λ _, zero_vector) <$> chunks)
          end
      end
  end.

Definition send_task {P} (name : string) (payload : P) (queue : string)
  : Eff (list (Task P)) unit :=
  λ sent, match broker with
          | Ok _ => (Ok tt, sent ++ [(name, queue, payload)])
          | Raise e => (Raise e, sent)
          end.

(** [self.retry(countdown=60, max_retries=2)] raises. *)
Definition retry {S A} : Eff S A := λ s, (Raise (Exception "Retry"), s).

Open Scope eff_scope.

Definition classify_ner (doc : Document) : Eff (list (Task Enriched)) Outcome :=
  eff_try
    (labels <- eff_try (eff_of (classify_json (text doc)))
                 (λ _, eff_ret default_labels) ;;
     found <- eff_try (eff_of (ner_link (text doc) labels))
                (λ _, eff_ret ([], [])) ;;
     chunks <- eff_try (eff_of (chunk_by_headings (text doc) true 500))
                 (λ _, eff_ret [text doc]) ;;
     vectors <- eff_try (eff_of (embed_chunks chunks)) (λ _, eff_ret []) ;;
     let payload :=
       mkEnriched doc labels (fst found) (snd found) chunks vectors in
     _ <- send_task "tasks.editorial.summarize_and_qc" payload "editorial" ;;
     eff_ret (mkOutcome true labels (length (fst found))
                (length (snd found)) (length chunks)))
    (λ _, retry).

Close Scope eff_scope.

(** The value of a guarded call: its answer, or the fallback. *)
Definition recover {A} (r : result A) (fallback : A) : A :=
  match r with
  | Ok a => a
  | Raise _ => fallback
  end.

(** C6, as the code has it.  With the broker accepting the task, for every
    document and every combination of failures the stage succeeds and
    forwards exactly one payload to the editorial queue, in which: a failed
    classification gives the default labels; a failed NER gives no entities
    and no edges; a failed chunking gives the whole text as the only chunk;
    and the vectors are empty when there are no chunks or the embedding
    client cannot be constructed, one zero vector per chunk when the
    embeddings request fails, and the service's vectors otherwise. *)
Theorem classify_ner_fallbacks doc sent :
  broker = Ok tt →
  let labels := recover (classify_json (text doc)) default_labels in
  let found := recover (ner_link (text doc) labels) ([], []) in
  let chunks := recover (chunk_by_headings (text doc) true 500) [text doc] in
  let vectors :=
    match chunks, openai_client with
    | [], _ => []
    | _ :: _, Raise _ => []
    | _ :: _, Ok _ =>
        recover (embeddings_create chunks) ((λ _, zero_vector) <$> chunks)
    end in
  classify_ner doc sent =
  (Ok (mkOutcome true labels (length (fst found)) (length (snd found))
         (length chunks)),
   sent ++ [("tasks.editorial.summarize_and_qc"%string, "editorial"%string,
             mkEnriched doc labels (fst found) (snd found) chunks vectors)]).
Proof.
  intros Hbroker. cbv zeta.
  unfold classify_ner, eff_try, eff_bind, eff_of, eff_ret, send_task,
    embed_chunks, recover.
  rewrite Hbroker.
  destruct (classify_json (text doc)) as [l|e1];
    (destruct (ner_link (text doc) _) as [found|e2]);
    (destruct (chunk_by_headings (text doc) true 500) as [[|c cs]|e3]);
    try reflexivity;
    (destruct openai_client as [[]|e4]; try reflexivity);
    (destruct (embeddings_create _) as [v|e5]; reflexivity).
Qed.

End Stage.

(** The chunker of the deployed stage: [Chunking.chunk_by_headings], which
    returns for every text. *)
Definition chunker (text : str) (keep_headings : bool) (target_tokens : Z)
  : result (list str) :=
  Ok (Chunking.chunk_by_headings text keep_headings target_tokens).

(** A run in which every collaborator fails, the embeddings request
    included, while the embedding client itself can be constructed. *)
Definition sample_doc : Document :=
  mkDocument (lit "https://example.com/a") (Some (lit "A"))
             (lit "Tax rules change in 2025.").

Definition failing {A} (name : string) : result A := Raise (Exception name).

Definition all_failing_run : result Outcome * list (Task Enriched) :=
  classify_ner (λ _, failing "classification") (λ _ _, failing "ner")
    (λ _ _ _, failing "chunking") (Ok tt) (λ _, failing "embeddings")
    (Ok tt) sample_doc [].

(** The embeddings request fails, and the vector list that is forwarded is
    not empty: it holds one zero vector for the one chunk. *)
Lemma embedding_failure_not_empty :
  ∃ payload,
    snd all_failing_run =
      [("tasks.editorial.summarize_and_qc"%string, "editorial"%string,
        payload)] ∧
    labels payload = default_labels ∧
    entities payload = [] ∧ edges payload = [] ∧
    chunks payload = [text sample_doc] ∧
    vectors payload = [zero_vector] ∧
    vectors payload ≠ [].
Proof.
  eexists. split; [reflexivity|]. simpl. repeat split. discriminate.
Qed.

(** The same document with the real chunker and a missing API key: the
    chunks are those of the text, and no vector is forwarded. *)
Example classify_ner_without_client :
  ∃ outcome payload,
    classify_ner (λ _, failing "classification") (λ _ _, failing "ner")
      chunker (failing "OpenAIError") (λ _, failing "embeddings") (Ok tt)
      sample_doc [] =
    (Ok outcome,
     [("tasks.editorial.summarize_and_qc"%string, "editorial"%string,
       payload)]) ∧
    chunks payload = [lit "Tax rules change in 2025."] ∧
    vectors payload = [].
Proof. eexists _, _. split; [reflexivity|]. split; vm_compute; reflexivity. Qed.

Lemma classify_ner_fallbacks_witness :
  ∃ outcome payload,
    all_failing_run =
    (Ok outcome,
     [("tasks.editorial.summarize_and_qc"%string, "editorial"%string,
       payload)]).
Proof.
  eexists _, _.
  apply (classify_ner_fallbacks (λ _, failing "classification")
           (λ _ _, failing "ner") (λ _ _ _, failing "chunking") (Ok tt)
           (λ _, failing "embeddings") (Ok tt) sample_doc []).
  reflexivity.
Defined.

End Understanding.

(** * The Editorial stage ([apps/worker-editorial/tasks.py]) *)

Module Editorial.

Import Understanding.

(** The payload for the Ingestion stage: the incoming payload and the keys
    this stage adds.  [needs_review] is [payload.get("needs_review", False)]. *)
Record Processed := mkProcessed {
  enriched : Enriched;
  needs_review : bool;
  abstract : str;
  abstract_citations : list Tavily.Citation;
  editorial_claims : list str
}.

Record Report := mkReport {
  success : bool;
  summary_length : nat;
  claims_count : nat;
  citations_count : nat;
  report_needs_review : bool
}.

(** What the stage leaves outside the process: the searches issued and the
    tasks sent. *)
Record World := mkWorld {
  searches : list Tavily.SearchCall;
  outbox : list (Task Processed)
}.

(** A computation of the search client, run inside the stage. *)
Definition with_searches {A} (m : Eff (list Tavily.SearchCall) A)
  : Eff World A :=
  λ w, let '(r, issued) := m (searches w) in (r, mkWorld issued (outbox w)).

Section Stage.

Variable summarize_with_citations : str → Labels → result str.
Variable extract_claims : str → result (list str).
Variable provider : str → nat → result (list Tavily.SearchResult).
Variable broker : result unit.

Definition send_task (name : string) (payload : Processed) (queue : string)
  : Eff World unit :=
  λ w, match broker with
       | Ok _ => (Ok tt, mkWorld (searches w)
                           (outbox w ++ [(name, queue, payload)]))
       | Raise e => (Raise e, w)
       end.

(** [payload["text"][:500] + "..." if len(payload["text"]) > 500
     else payload["text"]] *)
Definition truncated (text : str) : str :=
  if 500 <? length text then take 500 text ++ lit "..." else text.

Open Scope eff_scope.

(** The fact-check block: the review flag it sets and the citations. *)
Definition fact_check (claims : list str)
  : Eff World (bool * list Tavily.Citation) :=
  match claims with
  | [] => eff_ret (false, [])
  | _ :: _ =>
      eff_try
        (checked <- with_searches (Tavily.corroborate_claims provider claims 2) ;;
         eff_ret (negb (fst checked), snd checked))
        (λ _, eff_ret (false, []))
  end.

Definition summarize_and_qc (payload : Enriched) : Eff World Report :=
  eff_try
    (summary <- eff_try
                  (eff_of (summarize_with_citations (text (doc payload))
                             (labels payload)))
                  (λ _, eff_ret (truncated (text (doc payload)))) ;;
     claims <- eff_try
                 (claims <- eff_of (extract_claims summary) ;;
                  eff_ret (take 10 claims))
                 (λ _, eff_ret []) ;;
     checked <- fact_check claims ;;
     let processed :=
       mkProcessed payload (fst checked) summary (snd checked) claims in
     _ <- send_task "tasks.ingestion.write_to_0711" processed "ingestion" ;;
     eff_ret (mkReport true (length summary) (length claims)
                (length (snd checked)) (fst checked)))
    (λ _, retry).

Close Scope eff_scope.

(** The fact-check block never raises and sends nothing. *)
Lemma fact_check_returns claims w :
  ∃ checked issued,
    fact_check claims w = (Ok checked, mkWorld issued (outbox w)).
Proof.
  destruct claims as [|claim rest].
  - exists (false, []), (searches w). by destruct w.
  - unfold fact_check, eff_try, eff_bind, with_searches, eff_ret.
    destruct (Tavily.corroborate_claims provider (claim :: rest) 2
                (searches w)) as [[checked|e] issued]; eauto.
Qed.

(** C7, as the code has it.  When the summarizer fails and the broker accepts
    the task, the stage succeeds and forwards the payload to the ingestion
    queue, whatever claim extraction and corroboration do; the abstract is
    the first 500 characters of the text followed by [...] when the text is
    longer than 500 characters, and the whole text, with nothing added,
    otherwise. *)
Theorem summarize_and_qc_summarizer_fails payload w e :
  summarize_with_citations (text (doc payload)) (labels payload) = Raise e →
  broker = Ok tt →
  ∃ report processed issued,
    summarize_and_qc payload w =
      (Ok report,
       mkWorld issued
         (outbox w ++ [("tasks.ingestion.write_to_0711"%string,
                        "ingestion"%string, processed)])) ∧
    enriched processed = payload ∧
    (500 < length (text (doc payload)) →
     abstract processed = take 500 (text (doc payload)) ++ lit "...") ∧
    (length (text (doc payload)) ≤ 500 →
     abstract processed = text (doc payload)).
Proof.
  intros Hsum Hbroker.
  unfold summarize_and_qc, eff_try at 1 2. unfold eff_bind at 1.
  unfold eff_of at 1. rewrite Hsum. unfold eff_ret at 1.
  unfold eff_bind at 1.
  set (summary := truncated (text (doc payload))).
  set (extracted := eff_try _ _ w).
  assert (Hext : ∃ claims, extracted = (Ok claims, w)) .
  { subst extracted. unfold eff_try, eff_bind, eff_of, eff_ret.
    destruct (extract_claims summary); eauto. }
  destruct Hext as [claims ->].
  unfold eff_bind at 1.
  destruct (fact_check_returns claims w) as (checked & issued & ->).
  unfold eff_bind, send_task, eff_ret. rewrite Hbroker. simpl.
  eexists _, _, _. split; [reflexivity|]. simpl.
  split; [reflexivity|]. subst summary. unfold truncated.
  split; intros Hlen.
  - by rewrite (proj2 (Nat.ltb_lt _ _)) by lia.
  - by rewrite (proj2 (Nat.ltb_ge _ _)) by lia.
Qed.

(** C9. For the empty list of claims, [corroborate_claims] answers [true]
    with no citation and issues no search; and the stage does not call it:
    with no claims, the fact-check block leaves the searches as they were,
    keeps the citation list empty and raises no review flag. *)
Theorem corroborate_claims_empty_skipped required issued w :
  Tavily.corroborate_claims provider [] required issued =
    (Ok (true, []), issued) ∧
  fact_check [] w = (Ok (false, []), w).
Proof.
  split.
  - apply Tavily.corroborate_claims_empty.
  - reflexivity.
Qed.

End Stage.

(** A text of 127 characters, above Intake's minimum of 100. *)
Definition short_text : str :=
  lit "The 2025 tax reform lowers the basic rate for small firms and extends the filing deadline for family partnerships by one month.".

Example short_text_length : length short_text = 127.
Proof. reflexivity. Qed.

Definition short_payload : Enriched :=
  mkEnriched (mkDocument (lit "https://example.com/tax") None short_text)
             default_labels [] [] [short_text] [].

Definition failed_summary_run : result Report * World :=
  summarize_and_qc (λ _ _, failing "summarizer") (λ _, Ok [])
    (λ _ _, Ok []) (Ok tt) short_payload (mkWorld [] []).

(** The summarizer fails on a text of 127 characters: the abstract is the
    text itself, not its first 500 characters plus an ellipsis. *)
Lemma summarizer_failure_no_ellipsis :
  ∃ processed,
    outbox (snd failed_summary_run) =
      [("tasks.ingestion.write_to_0711"%string, "ingestion"%string,
        processed)] ∧
    abstract processed = short_text ∧
    abstract processed ≠ take 500 short_text ++ lit "...".
Proof.
  eexists. split; [reflexivity|]. split; [reflexivity|].
  intros H. apply (f_equal length) in H. vm_compute in H. discriminate.
Qed.

Lemma summarize_and_qc_summarizer_fails_witness :
  ∃ report processed issued,
    failed_summary_run =
    (Ok report,
     mkWorld issued
       [("tasks.ingestion.write_to_0711"%string, "ingestion"%string,
         processed)]).
Proof.
  destruct (summarize_and_qc_summarizer_fails
              (λ _ _, failing "summarizer") (λ _, Ok []) (λ _ _, Ok [])
              (Ok tt) short_payload (mkWorld [] []) (Exception "summarizer"))
    as (report & processed & issued & Hrun & _).
  - reflexivity.
  - reflexivity.
  - exists report, processed, issued. exact Hrun.
Defined.

End Editorial.

(** * Runs of the duplicate store

    Further properties of [is_duplicate] ([libs/common/dedupe.py]) over a
    sequence of calls on the same module-level sets. *)

Module DedupeRun.

Import Dedupe.

(** The documents of a sequence of calls that were answered [False], in
    order: those the Intake stage goes on to forward. *)
Fixpoint fresh (docs : list Doc) (st : Store) : list Doc :=
  match docs with
  | [] => []
  | d :: ds =>
      if fst (is_duplicate d st) then fresh ds (snd (is_duplicate d st))
      else d :: fresh ds (snd (is_duplicate d st))
  end.

(** The hash under which a document is recorded: [content_hash] when it is
    truthy, nothing otherwise. *)
Definition hash_key (doc : Doc) : option str :=
  if truthy (content_hash doc) then content_hash doc else None.

Lemma is_duplicate_false doc st :
  fst (is_duplicate doc st) = false →
  (doc_url doc ∉ seen_urls st) ∧
  (∀ h, hash_key doc = Some h → h ∉ seen_hashes st) ∧
  seen_urls (snd (is_duplicate doc st)) = {[ doc_url doc ]} ∪ seen_urls st ∧
  seen_hashes (snd (is_duplicate doc st)) =
    match hash_key doc with
    | Some h => {[ h ]} ∪ seen_hashes st
    | None => seen_hashes st
    end.
Proof.
  unfold is_duplicate, hash_key.
  case_bool_decide as Hu; [done|].
  destruct (content_hash doc) as [[|c h]|]; simpl.
  - intros _. repeat split; try done.
  - case_bool_decide as Hh; [done|]. intros _.
    repeat split; try done. by intros h' [= <-].
  - intros _. repeat split; try done.
Qed.

Lemma is_duplicate_true doc st :
  fst (is_duplicate doc st) = true → snd (is_duplicate doc st) = st.
Proof.
  unfold is_duplicate.
  case_bool_decide; [done|].
  by destruct (truthy (content_hash doc) && hash_seen (content_hash doc) st).
Qed.

Lemma fresh_unseen docs : ∀ st d,
  d ∈ fresh docs st →
  (doc_url d ∉ seen_urls st) ∧ (∀ h, hash_key d = Some h → h ∉ seen_hashes st).
Proof.
  induction docs as [|d0 ds IH]; intros st d; simpl.
  - intros H. by apply elem_of_nil in H.
  - destruct (fst (is_duplicate d0 st)) eqn:E.
    + rewrite (is_duplicate_true _ _ E). apply IH.
    + destruct (is_duplicate_false _ _ E) as (Hu & Hh & Hsu & Hsh).
      intros [->|Hin]%elem_of_cons; [done|].
      destruct (IH _ _ Hin) as [Hu' Hh']. split.
      * rewrite Hsu in Hu'. intros Hc. apply Hu'.
        apply elem_of_union. by right.
      * intros h Hk Hc. apply (Hh' h Hk). rewrite Hsh.
        destruct (hash_key d0); [apply elem_of_union; by right|done].
Qed.

(** X1. Whatever the store holds at the start and whatever documents are
    submitted, the documents answered [False] have pairwise distinct
    (canonical) URLs and pairwise distinct non-empty content hashes, and none
    of these URLs or hashes was in the store at the start. *)
Theorem fresh_pairwise_distinct docs st :
  NoDup (doc_url <$> fresh docs st) ∧
  NoDup (omap hash_key (fresh docs st)) ∧
  (∀ d, d ∈ fresh docs st →
     (doc_url d ∉ seen_urls st) ∧
     ∀ h, hash_key d = Some h → h ∉ seen_hashes st).
Proof.
  split; [|split; [|apply fresh_unseen] ].
  - revert st. induction docs as [|d0 ds IH]; intros st; simpl.
    + constructor.
    + destruct (fst (is_duplicate d0 st)) eqn:E; [apply IH|].
      destruct (is_duplicate_false _ _ E) as (_ & _ & Hsu & _).
      simpl. constructor; [|apply IH].
      intros (d & Heq & Hin)%list_elem_of_fmap.
      destruct (fresh_unseen _ _ _ Hin) as [Hu _]. apply Hu.
      rewrite Hsu, <- Heq. apply elem_of_union. left.
      by apply elem_of_singleton.
  - revert st. induction docs as [|d0 ds IH]; intros st; simpl.
    + constructor.
    + destruct (fst (is_duplicate d0 st)) eqn:E; [apply IH|].
      destruct (is_duplicate_false _ _ E) as (_ & _ & _ & Hsh).
      simpl. destruct (hash_key d0) as [h0|] eqn:Ek; [|apply IH].
      constructor; [|apply IH].
      intros (d & Hin & Hk)%list_elem_of_omap.
      destruct (fresh_unseen _ _ _ Hin) as [_ Hh]. apply (Hh h0 Hk).
      rewrite Hsh. apply elem_of_union. left. by apply elem_of_singleton.
Qed.

(** X2. After any sequence of calls the store holds what it held at the
    start together with the URLs and the non-empty hashes of the documents
    answered [False], and nothing else: a document answered [True] leaves no
    trace, so a URL first seen on a document rejected for its hash is still
    unseen afterwards. *)
Theorem checks_records_fresh docs st :
  seen_urls (checks docs st) =
    seen_urls st ∪ list_to_set (doc_url <$> fresh docs st) ∧
  seen_hashes (checks docs st) =
    seen_hashes st ∪ list_to_set (omap hash_key (fresh docs st)).
Proof.
  revert st. induction docs as [|d0 ds IH]; intros st; simpl.
  - by rewrite !(right_id_L ∅ (∪)).
  - destruct (IH (snd (is_duplicate d0 st))) as [IHu IHh].
    rewrite IHu, IHh.
    destruct (fst (is_duplicate d0 st)) eqn:E.
    + by rewrite (is_duplicate_true _ _ E).
    + destruct (is_duplicate_false _ _ E) as (_ & _ & -> & ->).
      simpl. destruct (hash_key d0) as [h0|]; simpl.
      * by rewrite (comm_L (∪) {[ doc_url d0 ]}), (comm_L (∪) {[ h0 ]}),
          <- !(assoc_L (∪)).
      * by rewrite (comm_L (∪) {[ doc_url d0 ]}), <- !(assoc_L (∪)).
Qed.

End DedupeRun.

(** * Runs of claim corroboration

    Error and edge behaviour of [corroborate_claims]
    ([libs/tavily_client/client.py]). *)

Module TavilyRun.

Import Tavily.

(** What a citation of the returned list is made of: a claim of the input,
    and a result of that claim's search whose content mentions it. *)
Definition cites (provider : str → nat → result (list SearchResult))
    (claims : list str) (c : Citation) : Prop :=
  c_claim c ∈ claims ∧
  ∃ results r,
    provider (c_claim c) 5 = Ok results ∧ r ∈ results ∧
    has_matching_content (c_claim c) r ∧
    c = cite (c_claim c) r.

Section Run.

Variable provider : str → nat → result (list SearchResult).

Lemma claims_loop_raises before claim after required e :
  (∀ c, c ∈ before → ∃ results, provider c 5 = Ok results) →
  provider claim 5 = Raise e →
  ∀ all_citations verified_claims issued,
    claims_loop provider (before ++ claim :: after) required
      all_citations verified_claims issued =
    (Raise e, issued ++ ((λ c, (c, 5)) <$> (before ++ [claim]))).
Proof.
  intros Hbefore Hfail.
  induction before as [|c0 before IH]; intros acc v issued; simpl.
  - unfold eff_bind, tavily_search. by rewrite Hfail.
  - unfold eff_bind, tavily_search.
    destruct (Hbefore c0) as [results ->]; [apply list_elem_of_here|].
    assert (Hrest : ∀ c, c ∈ before → ∃ results, provider c 5 = Ok results).
    { intros c Hc. apply Hbefore. by apply list_elem_of_further. }
    destruct (required <=? _)%Z; rewrite IH by done;
      by rewrite <- app_assoc.
Qed.

Lemma slice_to_subseteq {A} (n : Z) (l : list A) : slice_to n l ⊆ l.
Proof. unfold slice_to. destruct (0 <=? n)%Z; apply subseteq_take. Qed.

Lemma claims_loop_cites all_claims required : ∀ claims,
  claims ⊆ all_claims →
  ∀ all_citations verified_claims issued citations verified_claims' issued',
    Forall (cites provider all_claims) all_citations →
    claims_loop provider claims required all_citations verified_claims issued =
      (Ok (citations, verified_claims'), issued') →
    Forall (cites provider all_claims) citations.
Proof.
  induction claims as [|claim rest IH];
    intros Hsub acc v issued citations v' issued' Hacc; simpl.
  - unfold eff_ret. by intros [= <- _ _].
  - unfold eff_bind, tavily_search.
    destruct (provider claim 5) as [results|e] eqn:Hp; [|done].
    assert (Hrest : rest ⊆ all_claims).
    { intros c Hc. apply Hsub. by apply list_elem_of_further. }
    destruct (required <=? _)%Z; [|by apply IH].
    apply IH; [done|]. apply Forall_app. split; [done|].
    apply Forall_forall. intros c Hc. apply slice_to_subseteq in Hc.
    rewrite claim_citations_spec in Hc. simpl in Hc.
    apply list_elem_of_fmap in Hc as (r & -> & Hr).
    apply list_elem_of_filter in Hr as [Hm Hr].
    split; simpl.
    + apply Hsub. apply list_elem_of_here.
    + exists results, r. done.
Qed.

Lemma claims_loop_all_verified required : (required ≤ 0)%Z → ∀ claims,
  (∀ c, c ∈ claims → ∃ results, provider c 5 = Ok results) →
  ∀ all_citations verified_claims issued,
    ∃ citations issued',
      claims_loop provider claims required all_citations verified_claims
        issued =
      (Ok (citations, verified_claims + length claims), issued') ∧
      (required = 0%Z → citations = all_citations).
Proof.
  intros Hreq. induction claims as [|claim rest IH]; intros Hev acc v issued.
  - simpl. unfold eff_ret. rewrite Nat.add_0_r. eauto.
  - simpl. unfold eff_bind, tavily_search.
    destruct (Hev claim) as [results ->]; [apply list_elem_of_here|].
    rewrite (proj2 (Z.leb_le _ _)) by lia.
    destruct (IH (λ c Hc, Hev c (list_elem_of_further _ _ _ Hc))
                (acc ++ slice_to required
                          (claim_citations claim results []))
                (S v) (issued ++ [(claim, 5)]))
      as (citations & issued' & -> & Hzero).
    exists citations, issued'. split; [do 3 f_equal; lia|].
    intros ->. rewrite Hzero by done. unfold slice_to. simpl.
    by rewrite take_0, app_nil_r.
Qed.

(** X3. [corroborate_claims] does not guard its searches: when the search
    of one claim raises and the searches before it were answered, the call
    raises that same exception, no verdict or citation is returned, and the
    claims after the failing one are never searched. *)
Theorem corroborate_claims_search_raises before claim after required e
    issued :
  (∀ c, c ∈ before → ∃ results, provider c 5 = Ok results) →
  provider claim 5 = Raise e →
  corroborate_claims provider (before ++ claim :: after) required issued =
  (Raise e, issued ++ ((λ c, (c, 5)) <$> (before ++ [claim]))).
Proof.
  intros Hbefore Hfail. unfold corroborate_claims, eff_bind.
  by rewrite (claims_loop_raises before claim after required e).
Qed.

(** X4. With a threshold of zero or less every claim counts as verified,
    whatever its search returns, so the verdict is [True] for every list of
    claims whose searches are answered; with a threshold of exactly zero no
    citation is returned. *)
Theorem corroborate_claims_no_threshold claims required issued :
  (required ≤ 0)%Z →
  (∀ c, c ∈ claims → ∃ results, provider c 5 = Ok results) →
  ∃ citations issued',
    corroborate_claims provider claims required issued =
      (Ok (true, citations), issued') ∧
    (required = 0%Z → citations = []).
Proof.
  intros Hreq Hev. unfold corroborate_claims, eff_bind.
  destruct (claims_loop_all_verified required Hreq claims Hev [] 0 issued)
    as (citations & issued' & -> & Hzero).
  exists citations, issued'. simpl. unfold eff_ret. split; [|done].
  unfold at_least_80_percent.
  by rewrite (proj2 (Nat.leb_le _ _)) by lia.
Qed.

(** X5. Every citation of a returned list names a claim of the input and
    comes from a result of that claim's own search whose content mentions
    the claim; its snippet is at most 203 characters long. *)
Theorem corroborate_claims_citations claims required issued accepted
    citations issued' :
  corroborate_claims provider claims required issued =
    (Ok (accepted, citations), issued') →
  ∀ c, c ∈ citations →
    cites provider claims c ∧ length (c_snippet c) ≤ 203.
Proof.
  unfold corroborate_claims, eff_bind.
  destruct (claims_loop provider claims required [] 0 issued)
    as [[[cs v]|e] issued0] eqn:Hloop; [|done].
  simpl. unfold eff_ret. intros [= _ <- _] c Hc.
  assert (Hall : Forall (cites provider claims) cs).
  { by apply (claims_loop_cites claims required claims (reflexivity _)
                [] 0 issued cs v issued0). }
  rewrite Forall_forall in Hall. specialize (Hall c Hc).
  split; [done|].
  destruct Hall as (_ & results & r & _ & _ & _ & ->).
  unfold cite. cbn [c_snippet]. rewrite length_app, length_take.
  change (length (lit "...")) with 3. lia.
Qed.

End Run.

(** A provider that answers the first claim and fails on the second. *)
Definition flaky_provider (query : str) (max_results : nat)
  : result (list SearchResult) :=
  if bool_decide (query = lit "beta") then Raise (Exception "HTTPError")
  else Ok [sample_page "https://one.example"].

Lemma corroborate_claims_search_raises_witness :
  corroborate_claims flaky_provider [lit "Alpha"; lit "beta"; lit "GAMMA"]
    2 [] =
  (Raise (Exception "HTTPError"), [(lit "Alpha", 5); (lit "beta", 5)]).
Proof.
  apply (corroborate_claims_search_raises flaky_provider [lit "Alpha"]
           (lit "beta") [lit "GAMMA"] 2 (Exception "HTTPError") []).
  - intros c Hc. apply list_elem_of_singleton in Hc as ->.
    eexists. reflexivity.
  - reflexivity.
Defined.

Lemma corroborate_claims_no_threshold_witness :
  ∃ citations issued',
    corroborate_claims sample_provider sample_claims 0 [] =
    (Ok (true, citations), issued').
Proof.
  destruct (corroborate_claims_no_threshold sample_provider sample_claims 0
              []) as (citations & issued' & Hrun & _).
  - lia.
  - intros c _. eexists. reflexivity.
  - exists citations, issued'. exact Hrun.
Defined.

Lemma corroborate_claims_citations_witness :
  ∃ citations issued',
    corroborate_claims sample_provider sample_claims 2 [] =
      (Ok (true, citations), issued') ∧
    ∀ c, c ∈ citations →
      cites sample_provider sample_claims c ∧ length (c_snippet c) ≤ 203.
Proof.
  eexists _, _. split; [vm_compute; reflexivity|].
  eapply (corroborate_claims_citations sample_provider sample_claims 2 []
            true).
  vm_compute. reflexivity.
Defined.

End TavilyRun.

(** * The document store client ([libs/seven011_client/client.py])

    The remaining functions of the client: [create_collection_if_missing],
    [upsert_document] and [reindex_document], with the requests they send. *)

Module Seven011Store.

Import Seven011.

(** One entry of ["chunks"] in the document body. *)
Record ChunkRecord := mkChunk {
  chunk_id : str;
  chunk_text : str;
  chunk_order : nat
}.

(** The keys of the payload dictionary that the client and the Ingestion
    tasks read; a key that is absent is [None]. *)
Record Payload := mkPayload {
  title : option str;
  url : option str;
  language : option str;
  published_at : option str;
  labels : option Understanding.Labels;
  abstract : option str;
  chunks : option (list str);
  entities : option (list Entity);
  edges : option (list Edge);
  abstract_citations : option (list Tavily.Citation);
  metadata : option (gmap string str)
}.

(** The document body built by [upsert_document]. *)
Record DocumentBody := mkBody {
  b_collection : str;
  b_title : str;
  b_source_url : str;
  b_language : str;
  b_published_at : option str;
  b_doc_type : option str;
  b_abstract : str;
  b_chunks : list ChunkRecord;
  b_entities : list Entity;
  b_citations : list Tavily.Citation;
  b_metadata : gmap string str
}.

(** The requests the client sends to the API. *)
Inductive Request :=
| GetCollections
| CreateCollection (name description : str)
| CreateDocument (collection : str) (document : DocumentBody)
| ReindexDocument (doc_id : str)
| GraphQueryRequest (collection cypher : str).

(** [KeyError(key)], told from the other exceptions by its message. *)
Definition KeyError (key : string) : exn :=
  Exception (String.append "KeyError: " key).

(** [d[key]]: the value, or [KeyError]. *)
Definition item {S A} (key : string) (v : option A) : Eff S A :=
  match v with
  | Some a => eff_ret a
  | None => eff_of (Raise (KeyError key))
  end.

(** [[{"id": f"c{i}", "text": c, "order": i} for i, c in
     enumerate(chunks, i)]] *)
Fixpoint chunk_records (i : nat) (chunks : list str) : list ChunkRecord :=
  match chunks with
  | [] => []
  | c :: rest =>
      mkChunk (lit "c" ++ decimal i) c i :: chunk_records (S i) rest
  end.

(** [[c["name"] for c in collections]], each collection given by its
    ["name"] entry if it has one. *)
Fixpoint names_of (collections : list (option str)) : result (list str) :=
  match collections with
  | [] => Ok []
  | None :: _ => Raise (KeyError "name")
  | Some name :: rest =>
      match names_of rest with
      | Ok names => Ok (name :: names)
      | Raise e => Raise e
      end
  end.

Section Client.

(** [_get_client()]: raises when the environment is not configured. *)
Variable get_client : result unit.

(** The answers of the API: the listed collections, the creation of a
    collection, the ["id"] entry of the response to a document creation
    (if the response has one), the reindex and the graph query. *)
Variable get_collections : result (list (option str)).
Variable create_collection : str → str → result unit.
Variable create_document : str → DocumentBody → result (option str).
Variable reindex : str → result unit.
Variable graph_store : str → str → result unit.

(** A request is sent, then its answer is returned or raised. *)
Definition request {A} (r : Request) (answer : result A)
  : Eff (list Request) A :=
  λ log, (answer, log ++ [r]).

(** [graph_upsert] with its queries among the requests. *)
Definition graph_upsert (collection : str) (entities : list Entity)
    (edges : list Edge) : Eff (list Request) unit :=
  λ log,
    let '(r, sent) :=
      Seven011.graph_upsert get_client graph_store collection entities
        edges [] in
    (r, log ++ ((λ q, GraphQueryRequest (fst q) (snd q)) <$> sent)).

Open Scope eff_scope.

Definition create_collection_if_missing (name : str)
  : Eff (list Request) unit :=
  _ <- eff_of get_client ;;
  collections <- request GetCollections get_collections ;;
  names <- eff_of (names_of collections) ;;
  if bool_decide (name ∈ names) then eff_ret tt
  else
    let description := lit "Auto-created collection for " ++ name in
    request (CreateCollection name description)
      (create_collection name description).

Definition upsert_document (collection : str) (payload : Payload)
  : Eff (list Request) str :=
  _ <- eff_of get_client ;;
  title <- item "title" (title payload) ;;
  source_url <- item "url" (url payload) ;;
  labels <- item "labels" (labels payload) ;;
  let doc :=
    mkBody collection title source_url
      (default (lit "auto") (language payload))
      (published_at payload)
      (labels !! "doc_type"%string)
      (default [] (abstract payload))
      (chunk_records 1 (default [] (chunks payload)))
      (default [] (entities payload))
      (default [] (abstract_citations payload))
      (default ∅ (metadata payload)) in
  result <- request (CreateDocument collection doc)
              (create_document collection doc) ;;
  item "id" result.

Definition reindex_document (doc_id : str) : Eff (list Request) unit :=
  _ <- eff_of get_client ;;
  request (ReindexDocument doc_id) (reindex doc_id).

Close Scope eff_scope.

Lemma decimal_inj i j : decimal i = decimal j → i = j.
Proof.
  unfold decimal. intros H.
  apply (f_equal string_of_list_ascii) in H.
  rewrite !string_of_list_ascii_of_string in H.
  apply (f_equal NilEmpty.uint_of_string) in H.
  rewrite !NilEmpty.usu in H. injection H as H.
  apply (f_equal Nat.of_uint) in H.
  by rewrite !DecimalNat.Unsigned.of_to in H.
Qed.

Lemma chunk_records_lookup chunks : ∀ i k c,
  chunks !! k = Some c →
  chunk_records i chunks !! k =
    Some (mkChunk (lit "c" ++ decimal (i + k)) c (i + k)).
Proof.
  induction chunks as [|c0 rest IH]; intros i k c; [done|].
  destruct k as [|k]; simpl.
  - intros [= ->]. by rewrite Nat.add_0_r.
  - intros H. rewrite (IH (S i) k c H).
    by replace (S i + k) with (i + S k) by lia.
Qed.

Lemma chunk_records_order chunks : ∀ i r,
  r ∈ chunk_records i chunks →
  chunk_id r = lit "c" ++ decimal (chunk_order r) ∧ i ≤ chunk_order r.
Proof.
  induction chunks as [|c0 rest IH]; intros i r; simpl.
  - intros H. by apply elem_of_nil in H.
  - intros [->|H]%elem_of_cons; [done|].
    destruct (IH _ _ H). split; [done|lia].
Qed.

Lemma chunk_records_NoDup chunks : ∀ i,
  NoDup (chunk_id <$> chunk_records i chunks).
Proof.
  induction chunks as [|c0 rest IH]; intros i; simpl; constructor; [|done].
  intros (r & Hid & Hin)%list_elem_of_fmap.
  destruct (chunk_records_order _ _ _ Hin) as [Hr Hle].
  rewrite Hr in Hid. injection Hid as Hid.
  apply decimal_inj in Hid. lia.
Qed.

Lemma length_chunk_records chunks : ∀ i,
  length (chunk_records i chunks) = length chunks.
Proof. induction chunks as [|c rest IH]; intros i; simpl; [done|by f_equal]. Qed.

(** The first entity of the list with a given name is at index [i]. *)
Definition first_named (entities : list Entity) (name : str) (i : nat)
  : Prop :=
  e_name <$> entities !! i = Some name ∧
  ∀ k, k < i → e_name <$> entities !! k ≠ Some name.

Lemma index_from_first entities : ∀ i name j,
  index_from i name entities = Some j →
  first_named entities name (j - i) ∧ i ≤ j.
Proof.
  induction entities as [|e es IH]; intros i name j; simpl; [done|].
  case_bool_decide as Hn.
  - intros [= <-]. rewrite Nat.sub_diag. split; [|done].
    split; [simpl; by rewrite Hn|]. intros k Hk. lia.
  - intros H. destruct (IH _ _ _ H) as [[Hat Hbefore] Hle].
    replace (j - i) with (S (j - S i)) by lia.
    split; [|lia]. split; [exact Hat|].
    intros [|k] Hk; simpl.
    + intros [= Hc]. done.
    + apply Hbefore. lia.
Qed.

(** X6. When [upsert_document] returns an identifier, exactly one request
    was sent, the creation of the document, and the identifier is the one in
    its response; the chunks of the body are the chunks of the payload in
    order, the one at position [k] (from 0) with order [k + 1] and
    identifier [c] followed by [k + 1] in decimal, so that the identifiers
    are pairwise distinct. *)
Theorem upsert_document_returns collection payload log doc_id log' :
  upsert_document collection payload log = (Ok doc_id, log') →
  ∃ doc,
    log' = log ++ [CreateDocument collection doc] ∧
    create_document collection doc = Ok (Some doc_id) ∧
    length (b_chunks doc) = length (default [] (chunks payload)) ∧
    (∀ k c, default [] (chunks payload) !! k = Some c →
       b_chunks doc !! k =
         Some (mkChunk (lit "c" ++ decimal (S k)) c (S k))) ∧
    NoDup (chunk_id <$> b_chunks doc).
Proof.
  unfold upsert_document, eff_bind, eff_of, item, eff_ret, request.
  destruct get_client as [[]|e]; [|done].
  destruct (title payload) as [t|]; [|done].
  destruct (url payload) as [u|]; [|done].
  destruct (labels payload) as [l|]; [|done].
  set (doc := mkBody _ _ _ _ _ _ _ _ _ _ _).
  destruct (create_document collection doc) as [[id|]|e] eqn:Hc; [|done..].
  intros [= <- <-]. exists doc. split; [done|]. split; [done|].
  subst doc. cbn [b_chunks].
  split; [apply length_chunk_records|].
  split; [|apply chunk_records_NoDup].
  intros k c Hk. by rewrite (chunk_records_lookup _ 1 k c Hk).
Qed.

(** X7. With the client configured, a payload without ["title"], ["url"]
    or ["labels"] makes [upsert_document] raise the [KeyError] of the first
    of these three keys that is missing, in this order, before any request
    is sent. *)
Theorem upsert_document_missing_key collection payload log :
  get_client = Ok tt →
  title payload = None ∨ url payload = None ∨ labels payload = None →
  upsert_document collection payload log =
  (Raise (KeyError match title payload, url payload with
                   | None, _ => "title"
                   | Some _, None => "url"
                   | Some _, Some _ => "labels"
                   end), log).
Proof.
  intros Hc Hmissing.
  unfold upsert_document, eff_bind, eff_of, item, eff_ret. rewrite Hc.
  destruct (title payload) as [t|]; [|done].
  destruct (url payload) as [u|]; [|done].
  destruct (labels payload) as [l|]; [|done].
  by destruct Hmissing as [?|[?|?] ].
Qed.

(** X8. Without entities [graph_upsert] never sends a query, whatever the
    edges: no edge can resolve.  With no edges either it returns without
    asking for the client; with edges the result is whatever obtaining the
    client gives, so the call raises when the client is not configured. *)
Theorem graph_upsert_without_entities collection (edges : list Edge) sent :
  Seven011.graph_upsert get_client graph_store collection [] edges sent =
  (match edges with
   | [] => Ok tt
   | _ :: _ => get_client
   end, sent).
Proof.
  destruct edges as [|edge rest]; [done|].
  unfold Seven011.graph_upsert, eff_bind, eff_of.
  destruct get_client as [[]|e]; [|done].
  rewrite cypher_parts_spec.
  assert (H : ∀ l : list Edge, omap (statement_of []) l = []).
  { induction l as [|a l IH]; [done|]. exact IH. }
  by rewrite H.
Qed.

(** X9. When several entities carry the same name, an edge naming it is
    attached to the first of them: the two indices in the statement of a
    resolving edge are the least indices at which the source and the target
    name occur in the list of entities. *)
Theorem statement_of_first entities edge :
  resolves entities edge →
  ∃ i j,
    statement_of entities edge = Some (merge_edge i j edge) ∧
    first_named entities (source edge) i ∧
    first_named entities (target edge) j.
Proof.
  intros Hres.
  destruct (statement_of entities edge) as [stmt|] eqn:Hstmt.
  - unfold statement_of, index_of in Hstmt.
    destruct (index_from 0 (source edge) entities) as [i|] eqn:Es; [|done].
    destruct (index_from 0 (target edge) entities) as [j|] eqn:Et; [|done].
    injection Hstmt as <-.
    apply index_from_first in Es as [Hi _].
    apply index_from_first in Et as [Hj _].
    rewrite Nat.sub_0_r in Hi, Hj. by exists i, j.
  - by apply statement_of_None in Hstmt.
Qed.

End Client.

(** A payload with two chunks and no title. *)
Definition untitled_payload : Payload :=
  mkPayload None (Some (lit "https://example.com/a")) None None
    (Some Understanding.default_labels) None
    (Some [lit "first"; lit "second"]) None None None None.

Definition titled_payload : Payload :=
  mkPayload (Some (lit "A")) (Some (lit "https://example.com/a")) None None
    (Some Understanding.default_labels) None
    (Some [lit "first"; lit "second"]) None None None None.

Definition accepting_api (collection : str) (doc : DocumentBody)
  : result (option str) := Ok (Some (lit "doc-1")).

Lemma upsert_document_returns_witness :
  ∃ doc,
    b_chunks doc =
      [mkChunk (lit "c1") (lit "first") 1;
       mkChunk (lit "c2") (lit "second") 2] ∧
    NoDup (chunk_id <$> b_chunks doc).
Proof.
  destruct (upsert_document_returns (Ok tt) accepting_api (lit "kb")
              titled_payload [] (lit "doc-1")
              [CreateDocument (lit "kb")
                 (mkBody (lit "kb") (lit "A") (lit "https://example.com/a")
                    (lit "auto") None (Some (lit "article")) []
                    [mkChunk (lit "c1") (lit "first") 1;
                     mkChunk (lit "c2") (lit "second") 2] [] [] ∅)])
    as (doc & Hlog & _ & _ & _ & Hnodup).
  - vm_compute. reflexivity.
  - exists doc. split; [|exact Hnodup].
    simpl in Hlog. injection Hlog as <-. reflexivity.
Defined.

Lemma upsert_document_missing_key_witness :
  upsert_document (Ok tt) accepting_api (lit "kb") untitled_payload [] =
  (Raise (KeyError "title"), []).
Proof.
  apply (upsert_document_missing_key (Ok tt) accepting_api (lit "kb")
           untitled_payload []).
  - reflexivity.
  - left. reflexivity.
Defined.

(** Two entities named alike. *)
Definition twin_entities : list Entity :=
  [mkEntity (lit "Acme") (lit "Org"); mkEntity (lit "Bob") (lit "Person");
   mkEntity (lit "Acme") (lit "Brand")].

Lemma statement_of_first_witness :
  ∃ i j,
    statement_of twin_entities (mkEdge (lit "Bob") (lit "Acme") (lit "AT")) =
      Some (merge_edge i j (mkEdge (lit "Bob") (lit "Acme") (lit "AT"))) ∧
    first_named twin_entities (lit "Bob") i ∧
    first_named twin_entities (lit "Acme") j.
Proof.
  apply (statement_of_first twin_entities
           (mkEdge (lit "Bob") (lit "Acme") (lit "AT"))).
  split.
  - exists (mkEntity (lit "Bob") (lit "Person")). split; [|reflexivity].
    apply list_elem_of_further, list_elem_of_here.
  - exists (mkEntity (lit "Acme") (lit "Org")). split; [|reflexivity].
    apply list_elem_of_here.
Defined.

End Seven011Store.

(** * The Ingestion stage ([apps/worker-ingestion/tasks.py]) *)

Module Ingestion.

Import Seven011 Seven011Store.

(** What [write_to_0711] returns. *)
Record Receipt := mkReceipt {
  success : bool;
  doc_id : str;
  collection : str;
  entities_count : nat;
  edges_count : nat
}.

(** One entry of ["results"] in the report of [bulk_ingest]:
    [{"success": True, "doc_id": ...}] or [{"success": False, "error": ...}]. *)
Inductive DocResult :=
| Stored (doc_id : str)
| Failed (error : exn).

Definition stored (r : DocResult) : bool :=
  match r with
  | Stored _ => true
  | Failed _ => false
  end.

Record BulkReport := mkBulkReport {
  bulk_success : bool;
  total : nat;
  successful : nat;
  results : list DocResult
}.

Section Tasks.

(** [os.getenv("COLLECTION")] *)
Variable env_collection : option str.

(** The client and the API behind it, as in [Seven011Store]. *)
Variable get_client : result unit.
Variable get_collections : result (list (option str)).
Variable create_collection : str → str → result unit.
Variable create_document : str → DocumentBody → result (option str).
Variable reindex : str → result unit.
Variable graph_store : str → str → result unit.

(** [os.getenv("COLLECTION", "vertical_generic")] *)
Definition default_collection : str :=
  default (lit "vertical_generic") env_collection.

Open Scope eff_scope.

(** [entities = payload.get("entities", []); edges = payload.get("edges", []);
     if entities or edges: graph_upsert(collection, entities, edges)] *)
Definition graph_block (collection : str) (payload : Payload)
  : Eff (list Request) unit :=
  let entities := default [] (entities payload) in
  let edges := default [] (edges payload) in
  match entities, edges with
  | [], [] => eff_ret tt
  | _, _ =>
      Seven011Store.graph_upsert get_client graph_store collection entities
        edges
  end.

Definition write_to_0711 (payload : Payload) : Eff (list Request) Receipt :=
  eff_try
    (let collection := default_collection in
     _ <- eff_try
            (create_collection_if_missing get_client get_collections
               create_collection collection)
            (λ _, eff_ret tt) ;;
     doc_id <- eff_try
                 (upsert_document get_client create_document collection
                    payload)
                 (λ _, Understanding.retry) ;;
     _ <- eff_try (graph_block collection payload) (λ _, eff_ret tt) ;;
     _ <- eff_try (reindex_document get_client reindex doc_id)
            (λ _, eff_ret tt) ;;
     eff_ret (mkReceipt true doc_id collection
                (length (default [] (entities payload)))
                (length (default [] (edges payload)))))
    (λ _, Understanding.retry).

(** The loop of [bulk_ingest] over the documents. *)
Fixpoint bulk_loop (collection : str) (documents : list Payload)
    (results : list DocResult) : Eff (list Request) (list DocResult) :=
  match documents with
  | [] => eff_ret results
  | doc :: rest =>
      results <- eff_try
                   (doc_id <- upsert_document get_client create_document
                                collection doc ;;
                    _ <- graph_block collection doc ;;
                    eff_ret (results ++ [Stored doc_id]))
                   (λ e, eff_ret (results ++ [Failed e])) ;;
      bulk_loop collection rest results
  end.

(** [if not collection: collection = os.getenv("COLLECTION",
     "vertical_generic")]; the argument defaults to [None]. *)
Definition chosen (collection : option str) : str :=
  match collection with
  | Some (c :: cs) => c :: cs
  | _ => default_collection
  end.

Definition bulk_ingest (documents : list Payload) (collection : option str)
  : Eff (list Request) BulkReport :=
  eff_try
    (let collection := chosen collection in
     _ <- create_collection_if_missing get_client get_collections
            create_collection collection ;;
     results <- bulk_loop collection documents [] ;;
     let successful := length (filter (λ r, stored r = true) results) in
     eff_ret (mkBulkReport true (length documents) successful results))
    (λ _, Understanding.retry).

Close Scope eff_scope.

(** What [bulk_ingest] reports for one document: stored when both the
    document creation and the graph write return, failed otherwise. *)
Definition outcome (collection : str) (doc : Payload) : DocResult :=
  match fst (upsert_document get_client create_document collection doc []) with
  | Raise e => Failed e
  | Ok doc_id =>
      match fst (graph_block collection doc []) with
      | Ok _ => Stored doc_id
      | Raise e => Failed e
      end
  end.

(** Requests that write to the graph or the search index. *)
Definition indexes (r : Request) : bool :=
  match r with
  | ReindexDocument _ | GraphQueryRequest _ _ => true
  | _ => false
  end.

Definition creates_document (r : Request) : bool :=
  match r with
  | CreateDocument _ _ => true
  | _ => false
  end.

(** A computation whose answer does not depend on the requests sent so far
    and which only adds requests. *)
Definition appends {A} (m : Eff (list Request) A) : Prop :=
  ∀ log, m log = (fst (m []), log ++ snd (m [])).

Lemma appends_ret {A} (a : A) : appends (eff_ret a).
Proof. intros log. unfold eff_ret. simpl. by rewrite app_nil_r. Qed.

Lemma appends_of {A} (r : result A) : appends (eff_of r).
Proof. intros log. unfold eff_of. simpl. by rewrite app_nil_r. Qed.

Lemma appends_retry {A} : appends (Understanding.retry (A := A)).
Proof. intros log. unfold Understanding.retry. simpl. by rewrite app_nil_r. Qed.

Lemma appends_request {A} r (answer : result A) : appends (request r answer).
Proof. intros log. reflexivity. Qed.

Lemma appends_bind {A B} (m : Eff (list Request) A)
    (k : A → Eff (list Request) B) :
  appends m → (∀ a, appends (k a)) → appends (eff_bind m k).
Proof.
  intros Hm Hk log. unfold eff_bind. rewrite (Hm log).
  destruct (m []) as [[a|e] l0]; simpl; [|done].
  rewrite (Hk a (log ++ l0)), (Hk a l0). simpl. by rewrite app_assoc.
Qed.

Lemma appends_try {A} (m : Eff (list Request) A) h :
  appends m → (∀ e, appends (h e)) → appends (eff_try m h).
Proof.
  intros Hm Hh log. unfold eff_try. rewrite (Hm log).
  destruct (m []) as [[a|e] l0]; simpl; [done|].
  rewrite (Hh e (log ++ l0)), (Hh e l0). simpl. by rewrite app_assoc.
Qed.

Lemma appends_item {A} key (v : option A) : appends (item key v).
Proof. destruct v; [apply appends_ret|apply appends_of]. Qed.

Lemma appends_create_collection name :
  appends (create_collection_if_missing get_client get_collections
             create_collection name).
Proof.
  unfold create_collection_if_missing.
  apply appends_bind; [apply appends_of|intros _].
  apply appends_bind; [apply appends_request|intros collections].
  apply appends_bind; [apply appends_of|intros names].
  case_bool_decide; [apply appends_ret|apply appends_request].
Qed.

Lemma appends_upsert_document collection payload :
  appends (upsert_document get_client create_document collection payload).
Proof.
  unfold upsert_document.
  apply appends_bind; [apply appends_of|intros _].
  apply appends_bind; [apply appends_item|intros t].
  apply appends_bind; [apply appends_item|intros u].
  apply appends_bind; [apply appends_item|intros l].
  apply appends_bind; [apply appends_request|intros r].
  apply appends_item.
Qed.

Lemma appends_graph_upsert collection entities (edges : list Edge) :
  appends (Seven011Store.graph_upsert get_client graph_store collection
             entities edges).
Proof.
  intros log. unfold Seven011Store.graph_upsert.
  by destruct (Seven011.graph_upsert _ _ _ _ _ _) as [r sent].
Qed.

Lemma appends_graph_block collection payload :
  appends (graph_block collection payload).
Proof.
  unfold graph_block.
  destruct (default [] (entities payload)) as [|e es];
    [destruct (default [] (edges payload)) as [|edge rest]|];
    (apply appends_ret || apply appends_graph_upsert).
Qed.

Lemma appends_reindex_document doc_id :
  appends (reindex_document get_client reindex doc_id).
Proof.
  unfold reindex_document.
  apply appends_bind; [apply appends_of|intros _]. apply appends_request.
Qed.

Lemma eff_bind_ok {S A B} (m : Eff S A) (k : A → Eff S B) s a s' :
  m s = (Ok a, s') → eff_bind m k s = k a s'.
Proof. intros H. unfold eff_bind. by rewrite H. Qed.

Lemma eff_bind_raise {S A B} (m : Eff S A) (k : A → Eff S B) s e s' :
  m s = (Raise e, s') → eff_bind m k s = (Raise e, s').
Proof. intros H. unfold eff_bind. by rewrite H. Qed.

Lemma eff_try_ok {S A} (m : Eff S A) h s a s' :
  m s = (Ok a, s') → eff_try m h s = (Ok a, s').
Proof. intros H. unfold eff_try. by rewrite H. Qed.

Lemma eff_try_raise {S A} (m : Eff S A) h s e s' :
  m s = (Raise e, s') → eff_try m h s = h e s'.
Proof. intros H. unfold eff_try. by rewrite H. Qed.

(** A guarded step whose failure is ignored. *)
Lemma guarded (m : Eff (list Request) unit) log :
  appends m → eff_try m (λ _, eff_ret tt) log = (Ok tt, log ++ snd (m [])).
Proof.
  intros Hm. unfold eff_try. rewrite (Hm log).
  by destruct (m []) as [[[]|e] l0].
Qed.

Lemma upsert_document_client collection payload doc_id :
  fst (upsert_document get_client create_document collection payload []) =
    Ok doc_id →
  get_client = Ok tt.
Proof.
  unfold upsert_document, eff_bind, eff_of.
  by destruct get_client as [[]|e].
Qed.

Lemma create_collection_requests name :
  Forall (λ r, indexes r = false ∧ creates_document r = false)
    (snd (create_collection_if_missing get_client get_collections
            create_collection name [])).
Proof.
  unfold create_collection_if_missing, eff_bind, eff_of, request, eff_ret.
  destruct get_client as [[]|e]; [|constructor].
  destruct get_collections as [collections|e]; simpl; [|by repeat constructor].
  destruct (names_of collections) as [names|e]; [|by repeat constructor].
  case_bool_decide; simpl; by repeat constructor.
Qed.

Lemma upsert_document_requests collection payload :
  Forall (λ r, indexes r = false)
    (snd (upsert_document get_client create_document collection payload [])).
Proof.
  unfold upsert_document, eff_bind, eff_of, request, eff_ret, item.
  destruct get_client as [[]|e]; [|constructor].
  destruct (title payload); [|constructor].
  destruct (url payload); [|constructor].
  destruct (labels payload); [|constructor].
  simpl. destruct (create_document _ _) as [[id|]|e]; by repeat constructor.
Qed.

Ltac continue_with IH :=
  match goal with
  | |- ∃ _, bulk_loop _ _ ?results ?log = _ =>
      destruct (IH results log) as [reqs ->];
      eexists; rewrite <- !app_assoc; reflexivity
  end.

Lemma bulk_loop_spec collection documents : ∀ results log,
  ∃ reqs,
    bulk_loop collection documents results log =
    (Ok (results ++ (outcome collection <$> documents)), log ++ reqs).
Proof.
  induction documents as [|doc rest IH]; intros results log.
  - exists []. simpl. unfold eff_ret. by rewrite !app_nil_r.
  - cbn [bulk_loop fmap list_fmap]. unfold outcome at 1.
    unfold eff_bind at 1. unfold eff_try, eff_bind.
    rewrite (appends_upsert_document collection doc log).
    destruct (fst (upsert_document _ _ collection doc [])) as [id|e].
    + rewrite (appends_graph_block collection doc).
      destruct (fst (graph_block collection doc [])) as [[]|e];
        unfold eff_ret; continue_with IH.
    + unfold eff_ret. continue_with IH.
Qed.

(** X10. Once the document creation returns an identifier, [write_to_0711]
    succeeds with that identifier, whatever the collection check, the graph
    write and the reindex do, failures included; and the last request it
    sends is the reindex of that document. *)
Theorem write_to_0711_stored payload log id :
  fst (upsert_document get_client create_document default_collection
         payload []) = Ok id →
  ∃ reqs,
    write_to_0711 payload log =
    (Ok (mkReceipt true id default_collection
           (length (default [] (entities payload)))
           (length (default [] (edges payload)))),
     log ++ reqs ++ [ReindexDocument id]).
Proof.
  intros Hup. pose proof (upsert_document_client _ _ _ Hup) as Hc.
  exists (snd (create_collection_if_missing get_client get_collections
                 create_collection default_collection []) ++
          snd (upsert_document get_client create_document default_collection
                 payload []) ++
          snd (graph_block default_collection payload [])).
  unfold write_to_0711. cbv zeta.
  erewrite eff_try_ok; [reflexivity|].
  erewrite eff_bind_ok by apply guarded, appends_create_collection.
  erewrite eff_bind_ok by
    (apply eff_try_ok; rewrite appends_upsert_document, Hup; reflexivity).
  erewrite eff_bind_ok by apply guarded, appends_graph_block.
  erewrite eff_bind_ok.
  2:{ unfold eff_try, reindex_document, eff_bind, eff_of, request.
      rewrite Hc. destruct (reindex id) as [[]|e]; reflexivity. }
  unfold eff_ret. by rewrite <- !app_assoc.
Qed.

(** X11. When the document creation fails, [write_to_0711] asks for a
    retry, and it has written nothing to the graph or the search index. *)
Theorem write_to_0711_upsert_fails payload log e :
  fst (upsert_document get_client create_document default_collection
         payload []) = Raise e →
  ∃ reqs,
    write_to_0711 payload log = (Raise (Exception "Retry"), log ++ reqs) ∧
    Forall (λ r, indexes r = false) reqs.
Proof.
  intros Hup.
  exists (snd (create_collection_if_missing get_client get_collections
                 create_collection default_collection []) ++
          snd (upsert_document get_client create_document default_collection
                 payload [])).
  split.
  - unfold write_to_0711. cbv zeta.
    erewrite eff_try_raise; [|erewrite eff_bind_ok by
      apply guarded, appends_create_collection;
      erewrite eff_bind_raise; [reflexivity|];
      erewrite eff_try_raise by
        (rewrite appends_upsert_document, Hup; reflexivity);
      reflexivity].
    unfold Understanding.retry. by rewrite <- !app_assoc.
  - apply Forall_app. split; [|apply upsert_document_requests].
    eapply Forall_impl; [apply create_collection_requests|].
    by intros r [? _].
Qed.

(** X12. Once the collection check returns, [bulk_ingest] does not raise:
    it reports one result per document, in order.  A document is reported
    as stored exactly when both its creation and its graph write return, so
    a document whose graph write fails is reported as failed although it
    was created; the count of successes never exceeds the total. *)
Theorem bulk_ingest_report documents collection log :
  fst (create_collection_if_missing get_client get_collections
         create_collection (chosen collection) []) = Ok tt →
  ∃ report log',
    bulk_ingest documents collection log = (Ok report, log') ∧
    bulk_success report = true ∧
    total report = length documents ∧
    results report = outcome (chosen collection) <$> documents ∧
    successful report = length (filter (λ r, stored r = true) (results report)) ∧
    successful report ≤ total report.
Proof.
  intros Hcoll. unfold bulk_ingest. cbv zeta.
  destruct (bulk_loop_spec (chosen collection) documents []
              (log ++ snd (create_collection_if_missing get_client
                             get_collections create_collection
                             (chosen collection) []))) as [reqs Hloop].
  eexists _, _. split.
  - erewrite eff_try_ok; [reflexivity|].
    erewrite eff_bind_ok by
      (rewrite appends_create_collection, Hcoll; reflexivity).
    erewrite eff_bind_ok by exact Hloop.
    reflexivity.
  - simpl. repeat split.
    etrans; [apply length_filter|]. by rewrite length_fmap.
Qed.

(** X13. When the collection check fails, [bulk_ingest] asks for a retry
    and no document has been created; [write_to_0711] ignores the same
    failure and goes on to create its document. *)
Theorem bulk_ingest_collection_fails documents collection log e :
  fst (create_collection_if_missing get_client get_collections
         create_collection (chosen collection) []) = Raise e →
  ∃ reqs,
    bulk_ingest documents collection log =
      (Raise (Exception "Retry"), log ++ reqs) ∧
    Forall (λ r, creates_document r = false) reqs.
Proof.
  intros Hcoll.
  exists (snd (create_collection_if_missing get_client get_collections
                 create_collection (chosen collection) [])).
  split.
  - unfold bulk_ingest. cbv zeta.
    erewrite eff_try_raise; [reflexivity|].
    erewrite eff_bind_raise; [reflexivity|].
    rewrite appends_create_collection, Hcoll. reflexivity.
  - eapply Forall_impl; [apply create_collection_requests|].
    by intros r [_ ?].
Qed.

End Tasks.

(** An API that lists no collection, creates collections and documents, and
    fails every graph query and every reindex. *)
Definition listing : result (list (option str)) := Ok [].
Definition creating (name description : str) : result unit := Ok tt.
Definition failing_reindex (doc_id : str) : result unit :=
  Raise (Exception "reindex").
Definition failing_graph (collection cypher : str) : result unit :=
  Raise (Exception "graph").

(** A payload with a title, two entities and two edges. *)
Definition graph_payload : Payload :=
  mkPayload (Some (lit "A")) (Some (lit "https://example.com/a")) None None
    (Some Understanding.default_labels) None (Some [lit "first"])
    (Some sample_entities) (Some sample_edges) None None.

Lemma write_to_0711_stored_witness :
  ∃ reqs,
    write_to_0711 None (Ok tt) listing creating accepting_api
      failing_reindex failing_graph graph_payload [] =
    (Ok (mkReceipt true (lit "doc-1") (lit "vertical_generic") 2 2),
     [] ++ reqs ++ [ReindexDocument (lit "doc-1")]).
Proof.
  apply (write_to_0711_stored None (Ok tt) listing creating accepting_api
           failing_reindex failing_graph graph_payload [] (lit "doc-1")).
  reflexivity.
Defined.

Lemma write_to_0711_upsert_fails_witness :
  ∃ reqs,
    write_to_0711 None (Ok tt) listing creating accepting_api
      failing_reindex failing_graph untitled_payload [] =
      (Raise (Exception "Retry"), [] ++ reqs) ∧
    Forall (λ r, indexes r = false) reqs.
Proof.
  apply (write_to_0711_upsert_fails None (Ok tt) listing creating
           accepting_api failing_reindex failing_graph untitled_payload []
           (KeyError "title")).
  reflexivity.
Defined.

Lemma bulk_ingest_report_witness :
  ∃ report log',
    bulk_ingest None (Ok tt) listing creating accepting_api failing_graph
      [titled_payload; graph_payload; untitled_payload] None [] =
      (Ok report, log') ∧
    results report =
      [Stored (lit "doc-1"); Failed (Exception "graph");
       Failed (KeyError "title")] ∧
    successful report = 1.
Proof.
  destruct (bulk_ingest_report None (Ok tt) listing creating accepting_api
              failing_graph [titled_payload; graph_payload; untitled_payload]
              None [])
    as (report & log' & Hrun & _ & _ & Hres & Hcount & _).
  - reflexivity.
  - exists report, log'. split; [exact Hrun|].
    rewrite Hcount, Hres. split; reflexivity.
Defined.

Lemma bulk_ingest_collection_fails_witness :
  ∃ reqs,
    bulk_ingest None (Ok tt) (Raise (Exception "listing")) creating
      accepting_api failing_graph [titled_payload] None [] =
      (Raise (Exception "Retry"), [] ++ reqs) ∧
    Forall (λ r, creates_document r = false) reqs.
Proof.
  apply (bulk_ingest_collection_fails None (Ok tt)
           (Raise (Exception "listing")) creating accepting_api failing_graph
           [titled_payload] None [] (Exception "listing")).
  reflexivity.
Defined.

End Ingestion.

(** * The search request ([libs/tavily_client/client.py])

    [tavily_search] with all its arguments, and the payload that
    [TavilyClient.search] posts. *)

Module TavilySearch.

(** The JSON payload of a search request.  ["include_answer"] is always
    [False] and ["include_raw_content"] always [True]; the three last keys
    are set only when their argument is truthy. *)
Record SearchPayload := mkSearchPayload {
  query : str;
  max_results : Z;
  search_depth : str;
  include_domains : option (list str);
  exclude_domains : option (list str);
  time_range : option str
}.

(** One entry of the response, by its ["url"] entry if it has one. *)
Record Hit := mkHit {
  hit_url : option str
}.

(** [x if x else nothing], for a list and for a string. *)
Definition truthy {A} (l : option (list A)) : option (list A) :=
  match l with
  | Some (_ :: _) => l
  | _ => None
  end.

(** [TavilyClient.search]: the payload posted. *)
Definition search_payload (query : str) (max_results : Z)
    (search_depth : str) (include_domains exclude_domains : option (list str))
    (time_range : option str) : SearchPayload :=
  mkSearchPayload query max_results search_depth
    (truthy include_domains) (truthy exclude_domains) (truthy time_range).

(** [time_range_map.get(freshness, "month")] *)
Definition time_range_of (freshness : str) : str :=
  if bool_decide (freshness = lit "1d") then lit "day"
  else if bool_decide (freshness = lit "7d") then lit "week"
  else if bool_decide (freshness = lit "30d") then lit "month"
  else if bool_decide (freshness = lit "365d") then lit "year"
  else lit "month".

Section Search.

(** [_get_client()]: raises when [TAVILY_API_KEY] is not set. *)
Variable get_client : result unit.

(** The service: its answer to a request, given the requests before it. *)
Variable api : list SearchPayload → SearchPayload → result (list Hit).

Open Scope eff_scope.

Definition search (query : str) (max_results : Z) (search_depth : str)
    (include_domains exclude_domains : option (list str))
    (time_range : option str) : Eff (list SearchPayload) (list Hit) :=
  let payload :=
    search_payload query max_results search_depth include_domains
      exclude_domains time_range in
  λ issued, (api issued payload, issued ++ [payload]).

(** [tavily_search(query, max_results, freshness, allow, deny)] *)
Definition tavily_search (query : str) (max_results : Z) (freshness : str)
    (allow deny : option (list str)) : Eff (list SearchPayload) (list Hit) :=
  let time_range := time_range_of freshness in
  _ <- eff_of get_client ;;
  search query max_results (lit "advanced") allow deny (Some time_range).

Close Scope eff_scope.

(** X14. Every request that [tavily_search] sends asks for the advanced
    search depth and carries a time range, one of [day], [week], [month] and
    [year]; a freshness tag other than [1d], [7d], [30d] and [365d] gives
    [month].  An empty allow or deny list is left out of the payload, as if
    it had not been given. *)
Theorem tavily_search_payload query max_results freshness allow deny issued :
  get_client = Ok tt →
  ∃ payload,
    tavily_search query max_results freshness allow deny issued =
      (api issued payload, issued ++ [payload]) ∧
    search_depth payload = lit "advanced" ∧
    time_range payload = Some (time_range_of freshness) ∧
    time_range_of freshness ∈ [lit "day"; lit "week"; lit "month"; lit "year"] ∧
    (freshness ∉ [lit "1d"; lit "7d"; lit "30d"; lit "365d"] →
     time_range payload = Some (lit "month")) ∧
    (allow = Some [] → include_domains payload = None) ∧
    (deny = Some [] → exclude_domains payload = None) ∧
    include_domains payload ≠ Some [] ∧ exclude_domains payload ≠ Some [].
Proof.
  intros Hc. eexists. split.
  { unfold tavily_search, eff_bind, eff_of, search. rewrite Hc. reflexivity. }
  cbn [search_depth time_range include_domains exclude_domains search_payload].
  assert (Hrange : time_range_of freshness ∈
                   [lit "day"; lit "week"; lit "month"; lit "year"]).
  { unfold time_range_of. repeat case_bool_decide;
      repeat (apply list_elem_of_here || apply list_elem_of_further). }
  assert (Htruthy : truthy (Some (time_range_of freshness)) =
                    Some (time_range_of freshness)).
  { unfold time_range_of. by repeat case_bool_decide. }
  split; [done|]. split; [done|]. split; [done|]. split.
  { intros Hnot. rewrite Htruthy. f_equal. unfold time_range_of.
    repeat case_bool_decide; try done; exfalso; apply Hnot; subst;
      repeat (apply list_elem_of_here || apply list_elem_of_further). }
  split; [by intros ->|]. split; [by intros ->|].
  split; [by destruct allow as [[|]|]|by destruct deny as [[|]|] ].
Qed.

End Search.

Definition no_hits (issued : list SearchPayload) (payload : SearchPayload)
  : result (list Hit) := Ok [].

Lemma tavily_search_payload_witness :
  ∃ payload,
    tavily_search (Ok tt) no_hits (lit "tax law") 25 (lit "90d") (Some [])
      None [] = (Ok [], [payload]) ∧
    time_range payload = Some (lit "month") ∧
    include_domains payload = None.
Proof.
  destruct (tavily_search_payload (Ok tt) no_hits (lit "tax law") 25
              (lit "90d") (Some []) None [])
    as (payload & Hrun & _ & _ & _ & Hmonth & Hallow & _).
  - reflexivity.
  - exists payload. split; [exact Hrun|]. split.
    + apply Hmonth. vm_compute. intros H.
      repeat (apply elem_of_cons in H as [H|H]; [discriminate|]).
      by apply elem_of_nil in H.
    + by apply Hallow.
Defined.

End TavilySearch.

(** * The Discovery stage ([apps/worker-discovery/tasks.py]) *)

Module Discovery.

Import TavilySearch.

(** [s.replace(old, new)] for a non-empty [old]: the occurrences of [old]
    are replaced from left to right, without overlap.  [skip] counts the
    characters of an occurrence still to be passed over. *)
Fixpoint replace_from (skip : nat) (old new s : str) : str :=
  match s with
  | [] => []
  | c :: s' =>
      match skip with
      | S n => replace_from n old new s'
      | 0 =>
          if Str.starts_with old s
          then new ++ replace_from (length old - 1) old new s'
          else c :: replace_from 0 old new s'
      end
  end.

Definition replace (old new s : str) : str := replace_from 0 old new s.

Definition placeholder : str := lit "{topic}".

Definition default_topics : list str :=
  [lit "technology"; lit "science"; lit "policy"; lit "regulation";
   lit "guidelines"].

(** The inner loop of [expand_queries]: one query per topic. *)
Fixpoint topic_loop (template : str) (topics : list str)
    (queries : list str) : list str :=
  match topics with
  | [] => queries
  | topic :: rest =>
      topic_loop template rest (queries ++ [replace placeholder topic template])
  end.

Fixpoint template_loop (query_templates : list str) (topics : list str)
    (queries : list str) : list str :=
  match query_templates with
  | [] => queries
  | template :: rest =>
      if Str.contains placeholder template
      then template_loop rest topics (topic_loop template topics queries)
      else template_loop rest topics (queries ++ [template])
  end.

(** [expand_queries(query_templates, topics)]; [topics] defaults to [None]. *)
Definition expand_queries (query_templates : list str)
    (topics : option (list str)) : list str :=
  let topics :=
    match topics with
    | Some (t :: ts) => t :: ts
    | _ => default_topics
    end in
  template_loop query_templates topics [].

(** ["topics"] of the configuration: a list of names, or a list of objects
    given by their ["title"] and ["id"] entries, as the vertical
    configurations have them. *)
Inductive Topics :=
| Names (names : list str)
| Objects (objects : list (option str * option str)).

(** The ["discovery"] section of the configuration. *)
Record DiscoveryConfig := mkDiscoveryConfig {
  queries : option (list str);
  cfg_max_results : option Z;
  freshness : option str;
  allowlist : option (list str);
  denylist : option (list str)
}.

Record Config := mkConfig {
  discovery : option DiscoveryConfig;
  topics : option Topics
}.

(** [cfg.get("discovery", {})] *)
Definition no_discovery : DiscoveryConfig :=
  mkDiscoveryConfig None None None None None.

(** [t.get("title", t.get("id", ""))] *)
Definition topic_title (t : option str * option str) : str :=
  match fst t with
  | Some title => title
  | None => default [] (snd t)
  end.

(** The names handed to [expand_queries]. *)
Definition topic_names (topics : option Topics) : option (list str) :=
  match topics with
  | Some (Objects (t :: ts)) => Some (topic_title <$> t :: ts)
  | Some (Names (t :: ts)) => Some (t :: ts)
  | _ => None
  end.

Record Report := mkReport {
  success : bool;
  queries_processed : nat;
  results_found : nat
}.

(** What the stage leaves outside the process: the searches issued and the
    tasks sent. *)
Record World := mkWorld {
  searches : list SearchPayload;
  outbox : list (Understanding.Task str)
}.

Section Stage.

Variable get_client : result unit.
Variable api : list SearchPayload → SearchPayload → result (list Hit).

(** The message broker: its answer to a task, given the tasks before it. *)
Variable broker :
  list (Understanding.Task str) → Understanding.Task str → result unit.

Definition with_searches {A} (m : Eff (list SearchPayload) A) : Eff World A :=
  λ w, let '(r, issued) := m (searches w) in (r, mkWorld issued (outbox w)).

Definition send_task (name : string) (payload : str) (queue : string)
  : Eff World unit :=
  λ w, match broker (outbox w) (name, queue, payload) with
       | Ok _ => (Ok tt, mkWorld (searches w)
                           (outbox w ++ [(name, queue, payload)]))
       | Raise e => (Raise e, w)
       end.

Open Scope eff_scope.

(** [for result in results: if result.get("url"): celery.send_task(...)] *)
Fixpoint forward (results : list Hit) : Eff World unit :=
  match results with
  | [] => eff_ret tt
  | result :: rest =>
      match hit_url result with
      | Some (c :: u) =>
          _ <- send_task "tasks.intake.fetch_extract" (c :: u) "intake" ;;
          forward rest
      | _ => forward rest
      end
  end.

(** The loop over the queries.  In the guarded block a failed search leaves
    [total_results] as it is; a failure while forwarding comes after the
    count has been added. *)
Fixpoint query_loop (discovery_config : DiscoveryConfig)
    (queries : list str) (total_results : nat) : Eff World nat :=
  match queries with
  | [] => eff_ret total_results
  | query :: rest =>
      found <- eff_try
                 (results <- with_searches
                    (tavily_search get_client api query
                       (default 25%Z (cfg_max_results discovery_config))
                       (default (lit "30d") (freshness discovery_config))
                       (Some (default [] (allowlist discovery_config)))
                       (Some (default [] (denylist discovery_config)))) ;;
                  eff_ret (Some results))
                 (λ _, eff_ret None) ;;
      match found with
      | None => query_loop discovery_config rest total_results
      | Some results =>
          _ <- eff_try (forward results) (λ _, eff_ret tt) ;;
          query_loop discovery_config rest (total_results + length results)
      end
  end.

Definition plan_and_search (cfg : Config) : Eff World Report :=
  eff_try
    (let discovery_config := default no_discovery (discovery cfg) in
     let query_templates := default [] (queries discovery_config) in
     let queries := expand_queries query_templates (topic_names (topics cfg)) in
     total_results <- query_loop discovery_config queries 0 ;;
     eff_ret (mkReport true (length queries) total_results))
    (λ _, Understanding.retry).

Close Scope eff_scope.

(** A task for the Intake stage carrying a non-empty URL. *)
Definition intake_task (t : Understanding.Task str) : Prop :=
  ∃ url, t = ("tasks.intake.fetch_extract"%string, "intake"%string, url) ∧
         url ≠ [].

Lemma forward_spec results : ∀ w,
  ∃ r sent,
    forward results w = (r, mkWorld (searches w) (outbox w ++ sent)) ∧
    length sent ≤ length results ∧ Forall intake_task sent.
Proof.
  induction results as [|result rest IH]; intros w.
  - exists (Ok tt), []. simpl. unfold eff_ret. rewrite app_nil_r.
    destruct w. by split.
  - assert (Hskip : ∃ r sent,
      forward rest w = (r, mkWorld (searches w) (outbox w ++ sent)) ∧
      length sent ≤ length (result :: rest) ∧ Forall intake_task sent).
    { destruct (IH w) as (r & sent & Hrun & Hlen & Hall).
      exists r, sent. simpl. split; [done|]. split; [lia|done]. }
    simpl. destruct (hit_url result) as [[|c u]|]; [done| |done].
    unfold eff_bind, send_task.
    destruct (broker (outbox w) _) as [[]|e].
    + destruct (IH (mkWorld (searches w)
                      (outbox w ++ [("tasks.intake.fetch_extract"%string,
                                     "intake"%string, c :: u)])))
        as (r & sent & Hrun & Hlen & Hall).
      exists r, (("tasks.intake.fetch_extract"%string, "intake"%string,
                  c :: u) :: sent).
      rewrite Hrun. simpl. rewrite <- app_assoc. split; [done|].
      split; [lia|]. constructor; [|done]. by exists (c :: u).
    + exists (Raise e), []. rewrite app_nil_r. destruct w.
      split; [done|]. split; [simpl; lia|constructor].
Qed.

Lemma query_loop_spec discovery_config queries : ∀ total_results w,
  ∃ total new sent,
    query_loop discovery_config queries total_results w =
      (Ok total, mkWorld (searches w ++ new) (outbox w ++ sent)) ∧
    (get_client = Ok tt → query <$> new = queries) ∧
    (get_client ≠ Ok tt → new = [] ∧ sent = [] ∧ total = total_results) ∧
    total_results + length sent ≤ total ∧
    Forall intake_task sent.
Proof.
  induction queries as [|q rest IH]; intros total_results w.
  - exists total_results, [], []. simpl. unfold eff_ret. rewrite !app_nil_r.
    destruct w. repeat split; (done || lia || constructor).
  - cbn [query_loop]. unfold eff_bind at 1. unfold eff_try at 1.
    unfold eff_bind at 1. unfold with_searches, tavily_search, eff_bind,
      eff_of, search.
    destruct get_client as [[]|e] eqn:Hc.
    + set (payload := search_payload _ _ _ _ _ _).
      destruct (api (searches w) payload) as [results|e]; unfold eff_ret.
      * unfold eff_bind. unfold eff_try at 1.
        destruct (forward_spec results
                    (mkWorld (searches w ++ [payload]) (outbox w)))
          as (r & sent1 & -> & Hlen1 & Hall1).
        cbn [searches outbox].
        destruct (IH (total_results + length results)
                    (mkWorld (searches w ++ [payload]) (outbox w ++ sent1)))
          as (total & new & sent & Hrun & Hq & _ & Hle & Hall).
        cbn [searches outbox] in Hrun.
        exists total, (payload :: new), (sent1 ++ sent).
        split.
        { destruct r as [[]|e]; unfold eff_ret; rewrite Hrun;
            by rewrite <- !app_assoc. }
        split; [intros _; by rewrite fmap_cons, (Hq eq_refl)|].
        split; [by intros ?|]. rewrite length_app.
        split; [lia|by apply Forall_app].
      * destruct (IH total_results
                    (mkWorld (searches w ++ [payload]) (outbox w)))
          as (total & new & sent & Hrun & Hq & _ & Hle & Hall).
        cbn [searches outbox] in Hrun.
        exists total, (payload :: new), sent.
        split; [rewrite Hrun; by rewrite <- !app_assoc|].
        split; [intros _; by rewrite fmap_cons, (Hq eq_refl)|].
        split; [by intros ?|done].
    + unfold eff_ret.
      destruct (IH total_results (mkWorld (searches w) (outbox w)))
        as (total & new & sent & Hrun & _ & Hnone & Hle & Hall).
      destruct Hnone as (-> & -> & ->); [done|].
      exists total_results, [], []. rewrite Hrun.
      split; [done|]. split; [by intros ?|done].
Qed.

(** X17. [plan_and_search] never raises, whatever the search service and
    the broker do: it reports success and counts every query as processed.
    With the search client available every query is searched exactly once,
    in order, also after a failed search or a failed hand-over; without it
    (no API key) nothing is searched or forwarded and zero results are
    reported, still as a success. *)
Theorem plan_and_search_returns cfg w :
  let queries :=
    expand_queries (default [] (queries (default no_discovery (discovery cfg))))
      (topic_names (topics cfg)) in
  ∃ report w' new,
    plan_and_search cfg w = (Ok report, w') ∧
    success report = true ∧
    queries_processed report = length queries ∧
    searches w' = searches w ++ new ∧
    (get_client = Ok tt → query <$> new = queries) ∧
    (get_client ≠ Ok tt →
     new = [] ∧ outbox w' = outbox w ∧ results_found report = 0).
Proof.
  intros qs. unfold plan_and_search. cbv zeta. fold qs.
  destruct (query_loop_spec (default no_discovery (discovery cfg)) qs 0 w)
    as (total & new & sent & Hrun & Hq & Hnone & _ & _).
  unfold eff_try, eff_bind. rewrite Hrun. unfold eff_ret.
  eexists _, _, new. split; [reflexivity|]. simpl.
  split; [done|]. split; [done|]. split; [done|]. split; [done|].
  intros Hn. destruct (Hnone Hn) as (-> & -> & ->).
  by rewrite app_nil_r.
Qed.

(** X18. Every task that [plan_and_search] sends goes to the [intake]
    queue as [tasks.intake.fetch_extract] with a non-empty URL, and the
    number of results it reports is at least the number of tasks sent:
    results without a URL, and results that could not be handed over, are
    counted all the same. *)
Theorem plan_and_search_forwards cfg w :
  ∃ report w' sent,
    plan_and_search cfg w = (Ok report, w') ∧
    outbox w' = outbox w ++ sent ∧
    Forall intake_task sent ∧
    length sent ≤ results_found report.
Proof.
  unfold plan_and_search. cbv zeta.
  destruct (query_loop_spec (default no_discovery (discovery cfg))
              (expand_queries
                 (default [] (queries (default no_discovery (discovery cfg))))
                 (topic_names (topics cfg))) 0 w)
    as (total & new & sent & Hrun & _ & _ & Hle & Hall).
  unfold eff_try, eff_bind. rewrite Hrun. unfold eff_ret.
  eexists _, _, sent. split; [reflexivity|]. simpl.
  split; [done|]. split; [done|lia].
Qed.

End Stage.

Lemma topic_loop_spec template topics : ∀ queries,
  topic_loop template topics queries =
  queries ++ ((λ topic, replace placeholder topic template) <$> topics).
Proof.
  induction topics as [|topic rest IH]; intros queries; simpl.
  - by rewrite app_nil_r.
  - rewrite IH. by rewrite <- app_assoc.
Qed.

(** The queries one template gives. *)
Definition fill (topics : list str) (template : str) : list str :=
  if Str.contains placeholder template
  then (λ topic, replace placeholder topic template) <$> topics
  else [template].

Lemma template_loop_spec topics query_templates : ∀ queries,
  template_loop query_templates topics queries =
  queries ++ flat_map (fill topics) query_templates.
Proof.
  induction query_templates as [|template rest IH]; intros queries;
    cbn [template_loop flat_map].
  - by rewrite app_nil_r.
  - assert (Hfill : fill topics template =
      if Str.contains placeholder template
      then (λ topic, replace placeholder topic template) <$> topics
      else [template]) by done.
    rewrite Hfill.
    destruct (Str.contains placeholder template); rewrite IH.
    + by rewrite topic_loop_spec, <- app_assoc.
    + by rewrite <- app_assoc.
Qed.

Lemma starts_with_placeholder c s :
  Str.starts_with placeholder (c :: s) =
  Ascii.eqb "{" c && Str.starts_with (lit "topic}") s.
Proof. reflexivity. Qed.

Lemma replace_no_brace new s :
  Str.has_char "{" s = false → replace_from 0 placeholder new s = s.
Proof.
  induction s as [|c s IH]; [done|].
  unfold Str.has_char. cbn [existsb]. fold (Str.has_char "{" s).
  intros [Hc Hs]%orb_false_iff.
  cbn [replace_from]. rewrite starts_with_placeholder, Hc.
  cbn [andb]. by rewrite IH.
Qed.

Lemma replace_from_skip old new pre s :
  replace_from (length pre) old new (pre ++ s) = replace_from 0 old new s.
Proof. induction pre as [|c pre IH]; [done|exact IH]. Qed.

Lemma replace_fill new pre post :
  Str.has_char "{" pre = false → Str.has_char "{" post = false →
  replace placeholder new (pre ++ placeholder ++ post) = pre ++ new ++ post.
Proof.
  intros Hpre Hpost. unfold replace.
  induction pre as [|c pre IH].
  - change ([] ++ placeholder ++ post)
      with ("{"%char :: lit "topic}" ++ post).
    cbn [replace_from].
    assert (Hs : Str.starts_with placeholder
                   ("{"%char :: lit "topic}" ++ post) = true).
    { apply Str.starts_with_spec. by exists post. }
    rewrite Hs.
    change (length placeholder - 1) with (length (lit "topic}")).
    by rewrite replace_from_skip, replace_no_brace.
  - revert Hpre. unfold Str.has_char. cbn [existsb].
    fold (Str.has_char "{" pre). intros [Hc Hp]%orb_false_iff.
    change ((c :: pre) ++ placeholder ++ post)
      with (c :: pre ++ placeholder ++ post).
    cbn [replace_from]. rewrite starts_with_placeholder, Hc.
    cbn [andb]. by rewrite (IH Hp).
Qed.

(** [topics if topics else the defaults] *)
Definition topics_used (topics : option (list str)) : list str :=
  match topics with
  | Some (t :: ts) => t :: ts
  | _ => default_topics
  end.

(** X15. A template with a single placeholder, [pre{topic}post] with no
    brace in [pre] or [post], gives one query per topic, in the order of the
    topics: [pre], the topic, [post].  The topics are the five defaults when
    none are given or the list is empty. *)
Theorem expand_queries_fills pre post topics :
  Str.has_char "{" pre = false → Str.has_char "{" post = false →
  expand_queries [pre ++ placeholder ++ post] topics =
  (λ topic, pre ++ topic ++ post) <$> topics_used topics ∧
  (topics = None ∨ topics = Some [] → topics_used topics = default_topics).
Proof.
  intros Hpre Hpost. split; [|by intros [->| ->] ].
  unfold expand_queries. fold (topics_used topics).
  rewrite template_loop_spec. cbn [flat_map app]. rewrite app_nil_r.
  unfold fill.
  assert (Hc : Str.contains placeholder (pre ++ placeholder ++ post) = true).
  { apply Str.contains_spec. by exists pre, post. }
  rewrite Hc. apply list_fmap_ext. intros _ topic _.
  by apply replace_fill.
Qed.

(** X16. A template without the placeholder is passed through unchanged
    and a template with it gives one query per topic, so the number of
    queries is the number of plain templates plus the number of topics
    times the number of templates with a placeholder; when no template has
    one, the queries are the templates themselves, whatever the topics. *)
Theorem expand_queries_count query_templates topics :
  length (expand_queries query_templates topics) =
    length (filter (λ t, Str.contains placeholder t = false) query_templates) +
    length (topics_used topics) *
    length (filter (λ t, Str.contains placeholder t = true) query_templates) ∧
  (Forall (λ t, Str.contains placeholder t = false) query_templates →
   expand_queries query_templates topics = query_templates).
Proof.
  unfold expand_queries. fold (topics_used topics).
  rewrite template_loop_spec. cbn [app]. split.
  - induction query_templates as [|template rest IH]; [simpl; lia|].
    cbn [flat_map]. rewrite length_app, IH, !filter_cons. unfold fill.
    destruct (Str.contains placeholder template) eqn:E.
    + rewrite decide_False by done. rewrite decide_True by done.
      rewrite length_fmap. cbn [length]. lia.
    + rewrite decide_True by done. rewrite decide_False by done.
      cbn [length]. lia.
  - induction 1 as [|template rest Hplain _ IH]; [done|].
    cbn [flat_map]. unfold fill at 1. rewrite Hplain, IH. done.
Qed.

Lemma expand_queries_fills_witness :
  expand_queries [lit "latest {topic} rules"] (Some [lit "tax"; lit "vat"]) =
  [lit "latest tax rules"; lit "latest vat rules"].
Proof.
  destruct (expand_queries_fills (lit "latest ") (lit " rules")
              (Some [lit "tax"; lit "vat"])) as [H _].
  - reflexivity.
  - reflexivity.
  - exact H.
Defined.

Lemma expand_queries_count_witness :
  length (expand_queries [lit "{topic} law"; lit "news"; lit "{topic}"] None)
    = 11 ∧
  expand_queries [lit "news"; lit "topic"] None = [lit "news"; lit "topic"].
Proof.
  destruct (expand_queries_count
              [lit "{topic} law"; lit "news"; lit "{topic}"] None)
    as [Hcount _].
  destruct (expand_queries_count [lit "news"; lit "topic"] None)
    as [_ Hplain].
  split; [exact Hcount|].
  apply Hplain. repeat constructor.
Defined.

(** A service that answers every search with two results, one of them
    without a URL, and a broker that accepts every task. *)
Definition two_hits (issued : list SearchPayload) (payload : SearchPayload)
  : result (list Hit) :=
  Ok [mkHit (Some (lit "https://one.example/a")); mkHit None].

Definition accepting_broker (sent : list (Understanding.Task str))
    (task : Understanding.Task str) : result unit := Ok tt.

Definition sample_cfg : Config :=
  mkConfig
    (Some (mkDiscoveryConfig (Some [lit "{topic} law"; lit "news"]) (Some 5%Z)
             None None None))
    (Some (Objects [(Some (lit "tax"), Some (lit "t1")); (None, None)])).

Example plan_and_search_sample :
  plan_and_search (Ok tt) two_hits accepting_broker sample_cfg
    (mkWorld [] []) =
  (Ok (mkReport true 3 6),
   mkWorld
     ((λ q, mkSearchPayload (lit q) 5 (lit "advanced") None None
              (Some (lit "month"))) <$> ["tax law"; " law"; "news"]%string)
     (replicate 3 ("tasks.intake.fetch_extract"%string, "intake"%string,
                   lit "https://one.example/a"))).
Proof. vm_compute. reflexivity. Qed.

Lemma plan_and_search_returns_witness :
  ∃ report w',
    plan_and_search (Raise (Exception "ValueError")) two_hits
      accepting_broker sample_cfg (mkWorld [] []) = (Ok report, w') ∧
    success report = true ∧ queries_processed report = 3 ∧
    results_found report = 0 ∧ searches w' = [] ∧ outbox w' = [].
Proof.
  destruct (plan_and_search_returns (Raise (Exception "ValueError")) two_hits
              accepting_broker sample_cfg (mkWorld [] []))
    as (report & w' & new & Hrun & Hs & Hq & Hnew & _ & Hnone).
  destruct Hnone as (-> & Hout & Hzero); [discriminate|].
  exists report, w'. split; [exact Hrun|].
  split; [exact Hs|]. split; [exact Hq|]. split; [exact Hzero|].
  split; [exact Hnew|exact Hout].
Defined.

End Discovery.

(** * The Intake stage ([apps/worker-intake/tasks.py])

    [fetch_extract], with [canonicalize] of [libs/common/dedupe.py] and the
    duplicate store of [Dedupe]. *)

Module Intake.

(** The document built by the stage: the keys it sets and reads.
    ["canonical_url"] and ["content_hash"] are added by [canonicalize]. *)
Record Doc := mkDoc {
  url : str;
  title : str;
  text : str;
  canonical_url : option str;
  content_hash : option str
}.

(** The keys that [is_duplicate] reads. *)
Definition dedupe_view (doc : Doc) : Dedupe.Doc :=
  Dedupe.mkDoc (url doc) (canonical_url doc) (content_hash doc).

Inductive Failure :=
| FetchFailed (e : exn)
| PdfExtractionFailed (e : exn)
| ContentTooShort
| DuplicateContent.

(** What the task returns: [{"success": True, "url", "text_length"}] or
    [{"success": False, "error"}]. *)
Inductive Report :=
| Success (url : str) (text_length : nat)
| Rejected (error : Failure).

(** The state outside the task: the duplicate store and the tasks sent. *)
Record World := mkWorld {
  store : Dedupe.Store;
  outbox : list (Understanding.Task Doc)
}.

Section Stage.

(** The table look-ups of [urlparse], as in [Extract]. *)
Variable table_checks : str → bool.

(** [fetch_url]: the page text and the response headers, keyed as the
    server sent them. *)
Variable fetch_url : str → result (str * gmap str str).

(** [extract_pdf_text] and [extract_text], the latter by the title and the
    text it finds. *)
Variable extract_pdf_text : str → result str.
Variable extract_text : str → str → result (str * str).

(** [compute_content_hash]: the SHA-256 digest in hexadecimal. *)
Variable compute_content_hash : str → str.

Variable broker : result unit.

Definition canonicalize_url : str → result str :=
  Extract.canonicalize_url table_checks.

(** [canonicalize] ([libs/common/dedupe.py]) *)
Definition canonicalize (doc : Doc) : result Doc :=
  match canonicalize_url (url doc) with
  | Ok canonical_url =>
      Ok (mkDoc (url doc) (title doc) (text doc) (Some canonical_url)
            (Some (compute_content_hash (text doc))))
  | Raise e => Raise e
  end.

(** [is_duplicate] on the store of the world. *)
Definition is_duplicate (doc : Doc) : Eff World bool :=
  λ w, let '(answer, st) := Dedupe.is_duplicate (dedupe_view doc) (store w) in
       (Ok answer, mkWorld st (outbox w)).

Definition send_task (name : string) (payload : Doc) (queue : string)
  : Eff World unit :=
  λ w, match broker with
       | Ok _ => (Ok tt, mkWorld (store w)
                           (outbox w ++ [(name, queue, payload)]))
       | Raise e => (Raise e, w)
       end.

Open Scope eff_scope.

(** The part of [fetch_extract] after the document has been built. *)
Definition check_and_forward (canonical_url : str) (doc : Doc)
  : Eff World Report :=
  if length (text doc) <? 100 then eff_ret (Rejected ContentTooShort)
  else
    doc <- eff_of (canonicalize doc) ;;
    duplicate <- is_duplicate doc ;;
    if duplicate then eff_ret (Rejected DuplicateContent)
    else
      _ <- send_task "tasks.understanding.classify_ner" doc "understanding" ;;
      eff_ret (Success canonical_url (length (text doc))).

Definition fetch_extract (url : str) : Eff World Report :=
  eff_try
    (canonical_url <- eff_of (canonicalize_url url) ;;
     match fetch_url canonical_url with
     | Raise e => eff_ret (Rejected (FetchFailed e))
     | Ok (html, headers) =>
         let content_type :=
           Str.lower (default [] (headers !! lit "content-type")) in
         if Str.contains (lit "pdf") content_type
         then
           match extract_pdf_text canonical_url with
           | Raise e => eff_ret (Rejected (PdfExtractionFailed e))
           | Ok text =>
               check_and_forward canonical_url
                 (mkDoc canonical_url
                    (lit "PDF Document from " ++ canonical_url) text
                    None None)
           end
         else
           found <- eff_of (extract_text html canonical_url) ;;
           check_and_forward canonical_url
             (mkDoc canonical_url (fst found) (snd found) None None)
     end)
    (λ _, Understanding.retry).

Close Scope eff_scope.

(** The task sent to the Understanding stage. *)
Definition classify_task (doc : Doc) : Understanding.Task Doc :=
  ("tasks.understanding.classify_ner"%string, "understanding"%string, doc).

Lemma check_and_forward_returns u doc w report w' :
  check_and_forward u doc w = (Ok report, w') →
  match report with
  | Success u' n =>
      ∃ cc,
        let sent :=
          mkDoc (url doc) (title doc) (text doc) (Some cc)
            (Some (compute_content_hash (text doc))) in
        u' = u ∧ n = length (text doc) ∧ 100 ≤ n ∧
        canonicalize_url (url doc) = Ok cc ∧
        outbox w' = outbox w ++ [classify_task sent] ∧
        (cc ∉ Dedupe.seen_urls (store w)) ∧
        (cc ∈ Dedupe.seen_urls (store w'))
  | Rejected _ => w' = w
  end.
Proof.
  unfold check_and_forward.
  destruct (length (text doc) <? 100) eqn:Hlen.
  { unfold eff_ret. by intros [= <- <-]. }
  apply Nat.ltb_ge in Hlen.
  unfold eff_bind, eff_of, canonicalize.
  destruct (canonicalize_url (url doc)) as [cc|e]; [|done].
  unfold is_duplicate. set (doc' := mkDoc _ _ _ _ _).
  destruct (Dedupe.is_duplicate (dedupe_view doc') (store w))
    as [answer st] eqn:Hdup.
  destruct answer.
  - unfold eff_ret. intros [= <- <-].
    pose proof (DedupeRun.is_duplicate_true (dedupe_view doc') (store w)) as H.
    rewrite Hdup in H. simpl in H. rewrite H by done. by destruct w.
  - unfold send_task. destruct broker as [[]|e]; [|done].
    unfold eff_ret. cbn [store outbox]. intros [= <- <-].
    pose proof (DedupeRun.is_duplicate_false (dedupe_view doc') (store w)) as H.
    rewrite Hdup in H. simpl in H.
    destruct H as (Hnew & _ & Hurls & _); [done|].
    exists cc. cbn [outbox store text].
    split; [done|]. split; [done|]. split; [done|]. split; [done|].
    split; [done|]. split; [exact Hnew|].
    rewrite Hurls. apply elem_of_union. left. by apply elem_of_singleton.
Qed.

Lemma check_and_forward_seen u doc w cc :
  canonicalize_url (url doc) = Ok cc →
  cc ∈ Dedupe.seen_urls (store w) →
  ∃ error, check_and_forward u doc w = (Ok (Rejected error), w).
Proof.
  intros Hcc Hseen. unfold check_and_forward.
  destruct (length (text doc) <? 100); [by eexists|].
  unfold eff_bind, eff_of, canonicalize. rewrite Hcc.
  unfold is_duplicate. set (doc' := mkDoc _ _ _ _ _).
  assert (Hdup : fst (Dedupe.is_duplicate (dedupe_view doc') (store w))
                 = true).
  { apply Dedupe.is_duplicate_seen. by left. }
  pose proof (DedupeRun.is_duplicate_true _ _ Hdup) as Hst.
  destruct (Dedupe.is_duplicate (dedupe_view doc') (store w))
    as [answer st].
  simpl in Hdup, Hst. subst answer st.
  exists DuplicateContent. unfold eff_ret. by destruct w.
Qed.

(** The document that [fetch_extract] builds for a URL, if it gets that
    far: [None] when the page cannot be fetched or its text not extracted. *)
Definition built (canonical_url : str) : option Doc :=
  match fetch_url canonical_url with
  | Raise _ => None
  | Ok (html, headers) =>
      if Str.contains (lit "pdf")
           (Str.lower (default [] (headers !! lit "content-type")))
      then
        match extract_pdf_text canonical_url with
        | Raise _ => None
        | Ok text =>
            Some (mkDoc canonical_url
                    (lit "PDF Document from " ++ canonical_url) text
                    None None)
        end
      else
        match extract_text html canonical_url with
        | Raise _ => None
        | Ok found =>
            Some (mkDoc canonical_url (fst found) (snd found) None None)
        end
  end.

Lemma fetch_extract_built url_in w :
  match canonicalize_url url_in with
  | Raise _ =>
      fetch_extract url_in w = (Raise (Exception "Retry"), w)
  | Ok u =>
      match built u with
      | Some doc =>
          url doc = u ∧
          fetch_extract url_in w =
          eff_try (check_and_forward u doc) (λ _, Understanding.retry) w
      | None =>
          fetch_extract url_in w = (Raise (Exception "Retry"), w) ∨
          ∃ error, fetch_extract url_in w = (Ok (Rejected error), w)
      end
  end.
Proof.
  unfold fetch_extract, built, eff_try, eff_bind, eff_of.
  destruct (canonicalize_url url_in) as [u|e]; [|done].
  destruct (fetch_url u) as [[html headers]|e]; [|right; by eexists].
  destruct (Str.contains _ _).
  - destruct (extract_pdf_text u) as [text0|e]; [done|right; by eexists].
  - destruct (extract_text html u) as [found|e]; [done|by left].
Qed.

Lemma check_and_forward_run u doc w :
  check_and_forward u doc w =
  if length (text doc) <? 100 then (Ok (Rejected ContentTooShort), w)
  else
    match canonicalize_url (url doc) with
    | Raise e => (Raise e, w)
    | Ok cc =>
        let doc' :=
          mkDoc (url doc) (title doc) (text doc) (Some cc)
            (Some (compute_content_hash (text doc))) in
        let result := Dedupe.is_duplicate (dedupe_view doc') (store w) in
        if fst result
        then (Ok (Rejected DuplicateContent), mkWorld (snd result) (outbox w))
        else
          match broker with
          | Ok _ =>
              (Ok (Success u (length (text doc))),
               mkWorld (snd result) (outbox w ++ [classify_task doc']))
          | Raise e => (Raise e, mkWorld (snd result) (outbox w))
          end
    end.
Proof.
  unfold check_and_forward.
  destruct (length (text doc) <? 100); [done|].
  unfold eff_bind, eff_of, canonicalize.
  destruct (canonicalize_url (url doc)) as [cc|e]; [|done].
  unfold is_duplicate. cbv zeta.
  destruct (Dedupe.is_duplicate _ (store w)) as [[|] st]; [done|].
  unfold send_task. cbn [fst snd store outbox].
  by destruct broker as [[]|e].
Qed.

(** X19. When [fetch_extract] reports success, it has sent exactly one
    task, to the Understanding stage, whose document has at least 100
    characters of text, the hash of that text, and a canonical URL that was
    not in the duplicate store before and is in it afterwards.  When it
    reports a failure (fetch, PDF extraction, short content, duplicate),
    nothing was sent and the duplicate store is unchanged, so a page
    rejected as too short is not remembered. *)
Theorem fetch_extract_returns url_in w report w' :
  fetch_extract url_in w = (Ok report, w') →
  match report with
  | Success u n =>
      ∃ doc cc,
        canonicalize_url url_in = Ok u ∧ canonicalize_url u = Ok cc ∧
        outbox w' = outbox w ++ [classify_task doc] ∧
        url doc = u ∧ canonical_url doc = Some cc ∧
        content_hash doc = Some (compute_content_hash (text doc)) ∧
        n = length (text doc) ∧ 100 ≤ n ∧
        (cc ∉ Dedupe.seen_urls (store w)) ∧
        (cc ∈ Dedupe.seen_urls (store w'))
  | Rejected _ => w' = w
  end.
Proof.
  intros Hrun. pose proof (fetch_extract_built url_in w) as Hb.
  destruct (canonicalize_url url_in) as [u|e]; [|by rewrite Hb in Hrun].
  destruct (built u) as [doc|].
  - destruct Hb as [Hu Hb]. rewrite Hb in Hrun. unfold eff_try in Hrun.
    destruct (check_and_forward u doc w) as [[r|e] w0] eqn:Hcf; [|done].
    injection Hrun as <- <-.
    pose proof (check_and_forward_returns _ _ _ _ _ Hcf) as H.
    destruct r as [u' n|error]; [|done].
    destruct H as (cc & -> & -> & Hlen & Hcc & Hout & Hnew & Hin).
    rewrite Hu in Hcc.
    eexists _, cc. split; [done|]. split; [done|]. split; [exact Hout|].
    by repeat split.
  - destruct Hb as [Hb|[error Hb] ]; rewrite Hb in Hrun; [done|].
    by injection Hrun as <- <-.
Qed.

(** X20. Once a URL has been forwarded, no URL with the same canonical
    form is forwarded again: from any later state of the duplicate store,
    the task changes nothing and does not report success, whatever the
    fetch returns. *)
Theorem fetch_extract_not_twice url1 url2 w u n w1 w2 r w2' :
  fetch_extract url1 w = (Ok (Success u n), w1) →
  canonicalize_url url2 = canonicalize_url url1 →
  Dedupe.seen_urls (store w1) ⊆ Dedupe.seen_urls (store w2) →
  fetch_extract url2 w2 = (r, w2') →
  w2' = w2 ∧ ∀ u' n', r ≠ Ok (Success u' n').
Proof.
  intros Hrun1 Hsame Hsub Hrun2.
  destruct (fetch_extract_returns _ _ _ _ Hrun1)
    as (doc1 & cc & Hu & Hcc & _ & _ & _ & _ & _ & _ & _ & Hin).
  pose proof (fetch_extract_built url2 w2) as Hb.
  rewrite Hsame, Hu in Hb.
  destruct (built u) as [doc|].
  - destruct Hb as [Hdoc Hb]. rewrite Hb in Hrun2.
    destruct (check_and_forward_seen u doc w2 cc) as [error Hcf].
    { by rewrite Hdoc. }
    { by apply Hsub. }
    unfold eff_try in Hrun2. rewrite Hcf in Hrun2.
    by injection Hrun2 as <- <-.
  - destruct Hb as [Hb|[error Hb] ]; rewrite Hb in Hrun2;
      by injection Hrun2 as <- <-.
Qed.

End Stage.

(** X21. If the broker fails when a fresh document is handed over, the
    task asks for a retry, but the document has already been recorded in
    the duplicate store: the retried task, whatever the broker does then,
    rejects it as a duplicate, and the document is never forwarded. *)
Theorem fetch_extract_lost_on_retry table_checks fetch_url extract_pdf_text
    extract_text compute_content_hash e broker' url_in w u n w1 :
  fetch_extract table_checks fetch_url extract_pdf_text extract_text
    compute_content_hash (Ok tt) url_in w = (Ok (Success u n), w1) →
  let w_failed := mkWorld (store w1) (outbox w) in
  fetch_extract table_checks fetch_url extract_pdf_text extract_text
    compute_content_hash (Raise e) url_in w =
    (Raise (Exception "Retry"), w_failed) ∧
  fetch_extract table_checks fetch_url extract_pdf_text extract_text
    compute_content_hash broker' url_in w_failed =
    (Ok (Rejected DuplicateContent), w_failed).
Proof.
  intros Hrun w_failed.
  pose proof (fetch_extract_built table_checks fetch_url extract_pdf_text
                extract_text compute_content_hash (Ok tt) url_in w) as H1.
  pose proof (fetch_extract_built table_checks fetch_url extract_pdf_text
                extract_text compute_content_hash (Raise e) url_in w) as H2.
  pose proof (fetch_extract_built table_checks fetch_url extract_pdf_text
                extract_text compute_content_hash broker' url_in w_failed)
    as H3.
  destruct (canonicalize_url table_checks url_in) as [u0|e0];
    [|by rewrite H1 in Hrun].
  destruct (built fetch_url extract_pdf_text extract_text u0) as [doc|].
  2:{ destruct H1 as [H1|[error H1] ]; by rewrite H1 in Hrun. }
  destruct H1 as [_ H1], H2 as [_ H2], H3 as [_ H3].
  rewrite H1 in Hrun. rewrite H2, H3. clear H1 H2 H3.
  unfold eff_try in *. rewrite check_and_forward_run in Hrun.
  rewrite !check_and_forward_run. subst w_failed. cbn [store outbox].
  destruct (length (text doc) <? 100); [done|].
  destruct (canonicalize_url table_checks (url doc)) as [cc|e1]; [|done].
  cbv zeta in *. set (doc' := mkDoc _ _ _ _ _) in *.
  destruct (Dedupe.is_duplicate (dedupe_view doc') (store w))
    as [dup st] eqn:Hdup.
  cbn [fst snd] in *. destruct dup; [done|].
  injection Hrun as _ _ <-. cbn [store outbox].
  split; [done|].
  pose proof (DedupeRun.is_duplicate_false (dedupe_view doc') (store w)) as Hf.
  rewrite Hdup in Hf. cbn [fst snd] in Hf.
  destruct Hf as (_ & _ & Hurls & _); [done|].
  assert (Hseen : fst (Dedupe.is_duplicate (dedupe_view doc') st) = true).
  { apply Dedupe.is_duplicate_seen. left. rewrite Hurls.
    apply elem_of_union. left. by apply elem_of_singleton. }
  rewrite Hseen. by rewrite (DedupeRun.is_duplicate_true _ _ Hseen).
Qed.

(** A site that serves the same page, of 127 characters of text, at every
    address. *)
Definition sample_fetch (u : str) : result (str * gmap str str) :=
  Ok (lit "<html><title>Tax</title></html>", ∅).
Definition no_pdf (u : str) : result str := Raise (Exception "pdf").
Definition sample_extract (html u : str) : result (str * str) :=
  Ok (lit "Tax", Editorial.short_text).
Definition sample_hash (content : str) : str := lit Dedupe.sha256_of_test.

Definition w0 : World := mkWorld Dedupe.empty_store [].

Definition sample_url : str := lit "https://example.com/tax?utm_source=mail".

Definition sample_run : result Report * World :=
  fetch_extract Extract.no_table_checks sample_fetch no_pdf sample_extract
    sample_hash (Ok tt) sample_url w0.

Lemma sample_run_succeeds :
  sample_run = (Ok (Success (lit "https://example.com/tax") 127),
                snd sample_run).
Proof. apply injective_projections; [vm_compute; reflexivity|reflexivity]. Qed.

Lemma fetch_extract_returns_witness :
  ∃ doc,
    outbox (snd sample_run) = [classify_task doc] ∧
    canonical_url doc = Some (lit "https://example.com/tax") ∧
    text doc = Editorial.short_text.
Proof.
  destruct (fetch_extract_returns Extract.no_table_checks sample_fetch no_pdf
              sample_extract sample_hash (Ok tt) sample_url w0
              (Success (lit "https://example.com/tax") 127) (snd sample_run)
              sample_run_succeeds)
    as (doc & cc & _ & Hcc & Hout & _ & Hcanon & _).
  exists doc. split; [exact Hout|].
  vm_compute in Hcc. injection Hcc as <-.
  split; [exact Hcanon|].
  vm_compute in Hout. injection Hout as <-. reflexivity.
Defined.

Lemma fetch_extract_not_twice_witness :
  snd (fetch_extract Extract.no_table_checks sample_fetch no_pdf
         sample_extract sample_hash (Ok tt)
         (lit "https://example.com/tax#top") (snd sample_run)) =
  snd sample_run.
Proof.
  refine (proj1 (fetch_extract_not_twice Extract.no_table_checks sample_fetch
                   no_pdf sample_extract sample_hash (Ok tt) sample_url
                   (lit "https://example.com/tax#top") w0
                   (lit "https://example.com/tax") 127 (snd sample_run)
                   (snd sample_run) _ _ sample_run_succeeds _ _ _)).
  - vm_compute. reflexivity.
  - reflexivity.
  - apply surjective_pairing.
Defined.

Lemma fetch_extract_lost_on_retry_witness :
  fetch_extract Extract.no_table_checks sample_fetch no_pdf sample_extract
    sample_hash (Ok tt) sample_url
    (mkWorld (store (snd sample_run)) []) =
  (Ok (Rejected DuplicateContent), mkWorld (store (snd sample_run)) []).
Proof.
  exact (proj2 (fetch_extract_lost_on_retry Extract.no_table_checks
                  sample_fetch no_pdf sample_extract sample_hash
                  (Exception "broker") (Ok tt) sample_url w0
                  (lit "https://example.com/tax") 127 (snd sample_run)
                  sample_run_succeeds)).
Defined.

End Intake.

(** * More on chunking ([libs/common/chunking.py])

    The shape of the chunks of [chunk_by_headings], and
    [chunk_by_sentences]. *)

Module Chunks.

Import Str Chunking.

(** A string that is not empty and has no white space at either end. *)
Definition trimmed (s : str) : Prop := s ≠ [] ∧ strip s = s.

(** [s.split(sep)] for a non-empty [sep]: the occurrences of [sep] are
    found from left to right, without overlap.  [skip] counts the characters
    of an occurrence still to be passed over. *)
Fixpoint split_from (skip : nat) (sep s : str) : list str :=
  match s with
  | [] => [[]]
  | c :: s' =>
      match skip with
      | S n => split_from n sep s'
      | 0 =>
          if starts_with sep s
          then [] :: split_from (length sep - 1) sep s'
          else
            match split_from 0 sep s' with
            | piece :: pieces => (c :: piece) :: pieces
            | [] => [[c]]
            end
      end
  end.

Definition split_on (sep s : str) : list str := split_from 0 sep s.

(** [[.!?]] *)
Definition ends_sentence (c : ascii) : bool :=
  Ascii.eqb c "." || Ascii.eqb c "!" || Ascii.eqb c "?".

(** [re.split(r'(?<=[.!?])\s+', text)].  A separator is a maximal run of
    white space that follows one of [.], [!] and [?].  [prev_end] says
    whether the character just read is one of these; [in_gap] whether a
    separator is being read.  The head of the result is the piece being
    read. *)
Fixpoint sentence_scan (prev_end in_gap : bool) (s : str) : list str :=
  match s with
  | [] => [[]]
  | c :: s' =>
      if is_space c && in_gap then sentence_scan false true s'
      else if is_space c && prev_end then [] :: sentence_scan false true s'
      else
        match sentence_scan (ends_sentence c) false s' with
        | piece :: pieces => (c :: piece) :: pieces
        | [] => [[c]]
        end
  end.

Definition split_sentences (text : str) : list str :=
  sentence_scan false false text.

(** The loop that is to collect the sentences of the overlap, from the last
    sentence of the chunk backwards. *)
Fixpoint overlap_loop (prev_sentences : list str)
    (overlap_sentences : list str) (overlap_tokens : Z) : list str * Z :=
  match prev_sentences with
  | [] => (overlap_sentences, overlap_tokens)
  | prev_sentence :: rest =>
      if (overlap_tokens <? overlap_tokens)%Z
      then overlap_loop rest (prev_sentence :: overlap_sentences)
             (overlap_tokens + Z.of_nat (length prev_sentence / 4))
      else (overlap_sentences, overlap_tokens)
  end.

(** The loop over [sentences], carrying [chunks], [current_chunk] and the
    variable [overlap_tokens], which the loop assigns. *)
Fixpoint sentence_loop (target_tokens : Z) (sentences : list str)
    (chunks : list str) (current_chunk : str) (overlap_tokens : Z)
  : list str * str :=
  match sentences with
  | [] => (chunks, current_chunk)
  | sentence :: rest =>
      let sentence := strip sentence in
      if negb (nonempty sentence)
      then sentence_loop target_tokens rest chunks current_chunk overlap_tokens
      else
        let sentence_tokens := length sentence / 4 in
        let current_tokens := length current_chunk / 4 in
        if (target_tokens <? Z.of_nat (current_tokens + sentence_tokens))%Z
           && nonempty current_chunk
        then
          let chunks := chunks ++ [strip current_chunk] in
          let '(overlap_sentences, overlap_tokens) :=
            overlap_loop (rev (split_on (lit ". ") current_chunk)) [] 0 in
          let current_chunk :=
            match overlap_sentences with
            | [] => sentence
            | _ :: _ =>
                join (lit ". ") overlap_sentences ++ lit ". " ++ sentence
            end in
          sentence_loop target_tokens rest chunks current_chunk overlap_tokens
        else if nonempty current_chunk
        then sentence_loop target_tokens rest chunks
               (current_chunk ++ lit " " ++ sentence) overlap_tokens
        else sentence_loop target_tokens rest chunks sentence overlap_tokens
  end.

Definition chunk_by_sentences (text : str) (target_tokens : Z)
    (overlap_tokens : Z) : list str :=
  let sentences := split_sentences text in
  let '(chunks, current_chunk) :=
    sentence_loop target_tokens sentences [] [] overlap_tokens in
  if nonempty (strip current_chunk) then chunks ++ [strip current_chunk]
  else chunks.

(** The sentences the loop works with: stripped, the empty ones left out. *)
Definition sentences_of (text : str) : list str :=
  List.filter nonempty (strip <$> split_sentences text).

(** ** White space at the ends *)

Lemma lstrip_head c t : is_space c = false → lstrip (c :: t) = c :: t.
Proof. intros H. unfold lstrip. cbn [drop_while]. by rewrite H. Qed.

Lemma rstrip_last u d : is_space d = false → rstrip (u ++ [d]) = u ++ [d].
Proof.
  intros H. unfold rstrip. rewrite rev_app_distr.
  change (rev [d] ++ rev u) with (d :: rev u).
  cbn [drop_while]. rewrite H.
  change (rev (d :: rev u)) with (rev (rev u) ++ [d]).
  by rewrite rev_involutive.
Qed.

Lemma length_rstrip s : length (rstrip s) ≤ length s.
Proof.
  unfold rstrip. rewrite length_rev.
  pose proof (length_drop_while is_space (rev s)) as H.
  by rewrite length_rev in H.
Qed.

Lemma trimmed_intro c t u d :
  is_space c = false → is_space d = false → c :: t = u ++ [d] →
  trimmed (c :: t).
Proof.
  intros Hc Hd E. split; [done|].
  unfold strip. rewrite (lstrip_head _ _ Hc), E. by apply rstrip_last.
Qed.

Lemma trimmed_head s : trimmed s → ∃ c t, s = c :: t ∧ is_space c = false.
Proof.
  intros [Hne Hs]. destruct s as [|c t]; [done|].
  exists c, t. split; [done|].
  destruct (is_space c) eqn:E; [|done]. exfalso.
  assert (H : length (strip (c :: t)) ≤ length t).
  { unfold strip, lstrip. cbn [drop_while]. rewrite E.
    etrans; [apply length_rstrip|apply length_drop_while]. }
  rewrite Hs in H. simpl in H. lia.
Qed.

Lemma trimmed_last s : trimmed s → ∃ u d, s = u ++ [d] ∧ is_space d = false.
Proof.
  intros Ht. destruct (trimmed_head s Ht) as (c & t & -> & Hc).
  destruct Ht as [_ Hs].
  destruct (exists_last (l := c :: t)) as (u & d & E); [done|].
  exists u, d. split; [done|].
  destruct (is_space d) eqn:Ed; [|done]. exfalso.
  unfold strip in Hs. rewrite (lstrip_head _ _ Hc), E in Hs.
  unfold rstrip in Hs. rewrite rev_app_distr in Hs.
  change (rev [d] ++ rev u) with (d :: rev u) in Hs.
  cbn [drop_while] in Hs. rewrite Ed in Hs.
  apply (f_equal length) in Hs. rewrite length_rev, length_app in Hs.
  pose proof (length_drop_while is_space (rev u)) as H.
  rewrite length_rev in H. simpl in Hs. lia.
Qed.

Lemma trimmed_app a m b : trimmed a → trimmed b → trimmed (a ++ m ++ b).
Proof.
  intros Ha Hb.
  destruct (trimmed_head a Ha) as (c & t & -> & Hc).
  destruct (trimmed_last b Hb) as (u & d & -> & Hd).
  apply (trimmed_intro c (t ++ m ++ u ++ [d]) ((c :: t) ++ m ++ u) d);
    [done|done|].
  by rewrite <- !app_assoc.
Qed.

Lemma trimmed_strip s : nonempty (strip s) = true → trimmed (strip s).
Proof. intros H. split; [by destruct (strip s)|apply strip_idem]. Qed.

Lemma trimmed_nonempty s : trimmed s → nonempty s = true.
Proof. intros [H _]. by destruct s. Qed.

(** ** The chunks of [chunk_by_headings] *)

Lemma chunk_loop_trimmed target_tokens sections : ∀ chunks current_chunk,
  Forall trimmed chunks →
  current_chunk = [] ∨ trimmed current_chunk →
  Forall trimmed
    (fst (chunk_loop target_tokens sections chunks current_chunk)) ∧
  (snd (chunk_loop target_tokens sections chunks current_chunk) = [] ∨
   trimmed (snd (chunk_loop target_tokens sections chunks current_chunk))).
Proof.
  induction sections as [|section rest IH]; intros chunks cur Hchunks Hcur.
  - done.
  - cbn [chunk_loop].
    destruct (nonempty (strip section)) eqn:Hne; cbn [negb]; [|by apply IH].
    pose proof (trimmed_strip _ Hne) as Hsec.
    destruct (target_tokens <?
              Z.of_nat (length cur / 4 + length (strip section) / 4))%Z;
      cbn [andb]; destruct (nonempty cur) eqn:Hc.
    + apply IH; [|by right]. apply Forall_app. split; [done|].
      apply Forall_singleton. destruct Hcur as [->|Ht]; [done|].
      destruct Ht as [? Hs]. by rewrite Hs.
    + apply IH; [done|by right].
    + apply IH; [done|]. right. destruct Hcur as [->|Ht]; [done|].
      by apply trimmed_app.
    + apply IH; [done|by right].
Qed.

(** X22. No chunk of [chunk_by_headings] is empty, and none begins or ends
    with white space: stripping a chunk leaves it as it is.  In particular a
    text of white space only gives no chunk at all. *)
Theorem chunk_by_headings_trimmed text keep_headings target_tokens chunk :
  chunk ∈ chunk_by_headings text keep_headings target_tokens →
  chunk ≠ [] ∧ strip chunk = chunk.
Proof.
  unfold chunk_by_headings.
  destruct (chunk_loop_trimmed target_tokens (re_split text) [] [])
    as [Hchunks Hcur]; [constructor|by left|].
  destruct (chunk_loop target_tokens (re_split text) [] [])
    as [chunks cur]. cbn [fst snd] in Hchunks, Hcur.
  rewrite Forall_forall in Hchunks.
  destruct (nonempty (strip cur)) eqn:Hne; [|apply Hchunks].
  intros [Hin|Hin]%elem_of_app; [by apply Hchunks|].
  apply list_elem_of_singleton in Hin as ->. by apply trimmed_strip.
Qed.

(** X23. When the heading pattern matches nowhere in the text, the text
    comes back as a single chunk, stripped, whatever its length and
    whatever [target_tokens]: the size target only decides whether sections
    are joined, a section is never cut. *)
Theorem chunk_by_headings_no_heading text keep_headings target_tokens :
  scan_delims true 0 text = [] →
  chunk_by_headings text keep_headings target_tokens =
  if nonempty (strip text) then [strip text] else [].
Proof.
  intros Hnone.
  destruct (scan_weave text true 0) as [Hweave Hlen]; [lia|].
  rewrite Hnone in Hweave, Hlen.
  unfold chunk_by_headings, re_split.
  destruct (scan true 0 text) as [|piece [|? ?] ]; [done| |done].
  cbn [weave] in Hweave. rewrite drop_0 in Hweave. subst piece.
  cbn [chunk_loop]. destruct (nonempty (strip text)) eqn:Hne; cbn [negb].
  - rewrite andb_false_r. cbn [nonempty]. by rewrite strip_idem, Hne.
  - done.
Qed.

(** ** [chunk_by_sentences] *)

(** The overlap loop compares [overlap_tokens] with itself: it stops at its
    first step and collects nothing. *)
Lemma overlap_loop_nothing prev_sentences :
  overlap_loop prev_sentences [] 0 = ([], 0%Z).
Proof. by destruct prev_sentences. Qed.

Lemma sentence_loop_overlap target_tokens sentences :
  ∀ chunks current_chunk o1 o2,
    sentence_loop target_tokens sentences chunks current_chunk o1 =
    sentence_loop target_tokens sentences chunks current_chunk o2.
Proof.
  induction sentences as [|sentence rest IH]; intros chunks cur o1 o2; [done|].
  cbn [sentence_loop]. rewrite overlap_loop_nothing.
  destruct (negb (nonempty (strip sentence))); [apply IH|].
  destruct (_ && _); [done|].
  destruct (nonempty cur); apply IH.
Qed.

Lemma join_snoc sep (parts : list str) part :
  parts ≠ [] → join sep (parts ++ [part]) = join sep parts ++ sep ++ part.
Proof.
  induction parts as [|p [|q r] IH]; intros Hne; [done|done|].
  change (join sep ((p :: q :: r) ++ [part]))
    with (p ++ sep ++ join sep ((q :: r) ++ [part])).
  rewrite IH by done.
  change (join sep (p :: q :: r)) with (p ++ sep ++ join sep (q :: r)).
  by rewrite <- !app_assoc.
Qed.

Lemma join_trimmed (parts : list str) :
  parts ≠ [] → Forall trimmed parts → trimmed (join (lit " ") parts).
Proof.
  induction parts as [|p [|q r] IH]; intros Hne Hall; [done| |].
  - by apply Forall_inv in Hall.
  - change (join (lit " ") (p :: q :: r))
      with (p ++ lit " " ++ join (lit " ") (q :: r)).
    apply trimmed_app; [by apply Forall_inv in Hall|].
    apply IH; [done|by apply Forall_inv_tail in Hall].
Qed.

(** A group of sentences that makes up a chunk. *)
Definition group_ok (group : list str) : Prop :=
  group ≠ [] ∧ Forall trimmed group.

Lemma sentence_loop_groups target_tokens sentences : ∀ groups group o,
  Forall group_ok groups → Forall trimmed group →
  ∃ groups' group',
    sentence_loop target_tokens sentences (join (lit " ") <$> groups)
      (join (lit " ") group) o =
      (join (lit " ") <$> groups', join (lit " ") group') ∧
    Forall group_ok groups' ∧ Forall trimmed group' ∧
    concat groups' ++ group' =
      concat groups ++ group ++
      List.filter nonempty (strip <$> sentences).
Proof.
  induction sentences as [|sentence rest IH]; intros groups group o Hgs Hg.
  - exists groups, group. cbn [fmap list_fmap List.filter].
    by rewrite app_nil_r.
  - cbn [sentence_loop fmap list_fmap List.filter].
    rewrite overlap_loop_nothing.
    destruct (nonempty (strip sentence)) eqn:Hne; cbn [negb]; [|by apply IH].
    pose proof (trimmed_strip _ Hne) as Hs.
    destruct group as [|s0 group0].
    + rewrite andb_false_r. cbn [join nonempty].
      destruct (IH groups [strip sentence] o) as (gs & g & Hrun & ? & ? & Heq);
        [done|by constructor|].
      exists gs, g. by split.
    + assert (Hok : group_ok (s0 :: group0)) by done.
      pose proof (join_trimmed _ (proj1 Hok) Hg) as Hcur.
      rewrite (trimmed_nonempty _ Hcur), andb_true_r.
      destruct (target_tokens <? _)%Z.
      * destruct (IH (groups ++ [s0 :: group0]) [strip sentence] 0%Z)
          as (gs & g & Hrun & ? & ? & Heq).
        { apply Forall_app. split; [done|by constructor]. }
        { by constructor. }
        exists gs, g. split; [|split; [done|split; [done|] ] ].
        -- rewrite fmap_app in Hrun. cbn [fmap list_fmap join] in Hrun.
           by rewrite (proj2 Hcur).
        -- rewrite Heq, concat_app. cbn [concat].
           by rewrite app_nil_r, <- !app_assoc.
      * destruct (IH groups ((s0 :: group0) ++ [strip sentence]) o)
          as (gs & g & Hrun & ? & ? & Heq); [done| |].
        { apply Forall_app. split; [done|by constructor]. }
        exists gs, g. split; [|split; [done|split; [done|] ] ].
        -- by rewrite join_snoc in Hrun.
        -- rewrite Heq. by rewrite <- !app_assoc.
Qed.

(** X24. [chunk_by_sentences] produces no overlap.  Its chunks are
    consecutive groups of the (stripped, non-empty) sentences of the text,
    each chunk the sentences of its group joined by single spaces; the
    groups taken together are exactly the sentences, each once and in order,
    so no sentence is repeated in the next chunk; and the value of
    [overlap_tokens] makes no difference to the result. *)
Theorem chunk_by_sentences_partition text target_tokens overlap_tokens :
  ∃ groups,
    chunk_by_sentences text target_tokens overlap_tokens =
      join (lit " ") <$> groups ∧
    concat groups = sentences_of text ∧
    Forall (λ group, group ≠ []) groups ∧
    chunk_by_sentences text target_tokens overlap_tokens =
      chunk_by_sentences text target_tokens 0.
Proof.
  unfold chunk_by_sentences, sentences_of.
  rewrite (sentence_loop_overlap target_tokens (split_sentences text) [] []
             overlap_tokens 0).
  destruct (sentence_loop_groups target_tokens (split_sentences text) [] []
              0%Z) as (gs & g & Hrun & Hgs & Hg & Heq);
    [constructor|constructor|].
  cbn [fmap list_fmap join] in Hrun. rewrite Hrun.
  cbn [concat app] in Heq.
  destruct g as [|s0 g0].
  - exists gs. cbn [join strip]. rewrite app_nil_r in Heq.
    split; [done|]. split; [done|]. split; [|done].
    eapply Forall_impl; [exact Hgs|]. by intros ? [? _].
  - pose proof (join_trimmed (s0 :: g0) ltac:(done) Hg) as Hcur.
    rewrite (proj2 Hcur), (trimmed_nonempty _ Hcur).
    exists (gs ++ [s0 :: g0]).
    split; [by rewrite fmap_app|].
    split; [rewrite concat_app; cbn [concat]; by rewrite app_nil_r|].
    split; [|done].
    apply Forall_app. split; [|by constructor].
    eapply Forall_impl; [exact Hgs|]. by intros ? [? _].
Qed.

(** Three sentences under a budget of three tokens. *)
Definition three_sentences : str :=
  lit "Rates rise. Firms pay more!  Who gains?".

Example chunk_by_sentences_sample :
  chunk_by_sentences three_sentences 3 50 =
  [lit "Rates rise."; lit "Firms pay more!"; lit "Who gains?"] ∧
  chunk_by_sentences three_sentences 500 50 =
  [lit "Rates rise. Firms pay more! Who gains?"].
Proof. split; vm_compute; reflexivity. Qed.

(** A no-break space after a full stop separates two sentences; they are
    joined again by a space. *)
Example chunk_by_sentences_latin1 :
  chunk_by_sentences (lit "A." ++ ["160"%char] ++ lit "B.") 500 50 =
  [lit "A. B."].
Proof. vm_compute. reflexivity. Qed.

(** A text that begins and ends with a no-break space and has U+0085 at
    the end of its first line. *)
Definition spaced_text : str :=
  ["160"%char] ++ lit "abc" ++ ["133"%char; nl] ++ lit "# def" ++
  ["160"%char].

Lemma chunk_by_headings_trimmed_witness :
  lit "abc" ++ [nl; nl] ++ lit "def" ≠ [] ∧
  strip (lit "abc" ++ [nl; nl] ++ lit "def") =
  lit "abc" ++ [nl; nl] ++ lit "def".
Proof.
  apply (chunk_by_headings_trimmed spaced_text true 500).
  vm_compute. apply list_elem_of_here.
Defined.

(** A text of 45 characters with no heading, between a no-break space and
    U+0085, under a budget of one token. *)
Definition plain_text : str :=
  ["160"%char] ++ lit " taxes rise, and firms pay more than before" ++
  ["133"%char].

Lemma chunk_by_headings_no_heading_witness :
  chunk_by_headings plain_text true 1 =
  [lit "taxes rise, and firms pay more than before"].
Proof.
  rewrite (chunk_by_headings_no_heading plain_text true 1).
  - vm_compute. reflexivity.
  - vm_compute. reflexivity.
Defined.

End Chunks.

(** * The canonical URL, parsed again ([libs/common/extract.py]) *)

Module Canonical.

Import Str Extract.

Section Reparse.

Variable table_checks : str → bool.

(** X25. For a URL with a scheme and a network location, parsing the
    result of [canonicalize_url] gives back the scheme, the network location
    and the path of the original parse, with no path parameters and no
    fragment; and the parameters of its query are exactly the parameters of
    the original query that have an [=] and a key outside the tracking
    list, in their order. *)
Theorem canonicalize_url_parses url parsed canonical :
  urlparse table_checks url = Ok parsed →
  scheme parsed ≠ [] → netloc parsed ≠ [] →
  canonicalize_url table_checks url = Ok canonical →
  let params := List.filter kept (split "&" (query parsed)) in
  urlparse table_checks canonical =
    Ok (mkParse (scheme parsed) (netloc parsed) (path parsed) []
          (canonical_query (query parsed)) []) ∧
  (params ≠ [] → split "&" (canonical_query (query parsed)) = params).
Proof.
  intros Hparse Hsc Hnl Hcanon params. split.
  - unfold canonicalize_url in Hcanon. rewrite Hparse in Hcanon.
    injection Hcanon as <-.
    unfold urlparse in Hparse.
    destruct (urlsplit table_checks url) as [[[[[sc nl] p] q] f]|] eqn:Hsplit;
      [|done].
    destruct (if bool_decide (sc ∈ uses_params) && has_char ";" p
              then splitparams p else (p, [])) as [p' prm] eqn:Hprm.
    injection Hparse as <-. simpl in Hsc, Hnl.
    cbn [scheme netloc path query].
    destruct (urlsplit_parts _ _ _ _ _ _ _ Hsplit Hsc Hnl) as [Hparts Hq].
    assert (Hprefix : ∃ rest, p = p' ++ rest).
    { destruct (bool_decide (sc ∈ uses_params) && has_char ";" p).
      - destruct (splitparams_prefix p) as [rest Hrest].
        rewrite Hprm in Hrest. by exists rest.
      - injection Hprm as <- <-. exists []. by rewrite app_nil_r. }
    destruct Hprefix as [rest Hrest].
    pose proof (parts_ok_prefix _ _ _ _ _ _ Hparts Hrest) as Hparts'.
    pose proof (canonical_query_ok _ Hq) as Hq'.
    change (urlparse table_checks
              (sc ++ lit "://" ++ nl ++ p' ++
               query_suffix (canonical_query q)) =
            Ok (mkParse sc nl p' [] (canonical_query q) [])).
    unfold urlparse.
    rewrite (urlsplit_compose _ _ _ _ _ Hparts' Hq').
    assert (Hagain :
      (if bool_decide (sc ∈ uses_params) && has_char ";" p'
       then splitparams p' else (p', [])) = (p', [])).
    { destruct (bool_decide (sc ∈ uses_params)) eqn:Hu; cbn [andb]; [|done].
      cbn [andb] in Hprm. destruct (has_char ";" p) eqn:Hsemi.
      - assert (p' = fst (splitparams p)) as -> by (by rewrite Hprm).
        rewrite splitparams_idem.
        by destruct (has_char ";" (fst (splitparams p))).
      - injection Hprm as <- <-. by rewrite Hsemi. }
    by rewrite Hagain.
  - intros Hne. rewrite canonical_query_spec. fold params.
    destruct params as [|param rest] eqn:Hp; [done|]. rewrite <- Hp.
    apply (split_join "&" params); [by rewrite Hp|].
    apply Forall_forall. intros piece Hin. subst params.
    apply list_elem_of_In, List.filter_In in Hin as [Hin _].
    apply list_elem_of_In in Hin.
    pose proof (split_pieces "&" (query parsed)) as Hall.
    rewrite Forall_forall in Hall. by destruct (Hall _ Hin).
Qed.

End Reparse.

Definition tracked_url : str :=
  lit "https://example.com/a;v=2?utm_source=m&x=1&flag&y=2#top".

Lemma canonicalize_url_parses_witness :
  urlparse no_table_checks (lit "https://example.com/a?x=1&y=2") =
    Ok (mkParse (lit "https") (lit "example.com") (lit "/a") []
          (lit "x=1&y=2") []) ∧
  split "&" (lit "x=1&y=2") = [lit "x=1"; lit "y=2"].
Proof.
  destruct (canonicalize_url_parses no_table_checks tracked_url
              (mkParse (lit "https") (lit "example.com") (lit "/a")
                 (lit "v=2") (lit "utm_source=m&x=1&flag&y=2") (lit "top"))
              (lit "https://example.com/a?x=1&y=2")) as [Hparse Hsplit].
  - vm_compute. reflexivity.
  - discriminate.
  - discriminate.
  - vm_compute. reflexivity.
  - split; [exact Hparse|]. apply Hsplit. discriminate.
Defined.

End Canonical.
